(** * CometMigrator: a shallow embedding of the migration contract

    The Solidity contract [CometMigrator] (pragma 0.8.16) that ships in
    [src/web/AaveV2Migrator.tsx] is embedded as a state-and-error monad over
    an explicit world: the contract's one storage slot ([inMigration]) and
    the ledgers of the collaborator contracts it talks to.  Every run also
    yields the chronological log of the external calls it attempted.

    How the embedding reads the EVM:
    - a revert carries no world: the EVM discards every effect of a reverted
      call, and the contract has no [try]/[catch], so a failure anywhere in
      the nested chain surfaces at the entry point ([commit]);
    - [uint256] and [int256] values are integers in [Z]; checked arithmetic
      panics, explicit conversions wrap;
    - [abi.encode] followed by [abi.decode] is the identity on
      [MigrationCallbackData];
    - the collaborators (tokens, source markets, liquidity venues, the target
      protocol, the wrapper) are honest ledgers that never call back into
      the contract except for the one callback a venue owes; where one may
      refuse, a table in [Env] decides, whatever the ledgers hold;
    - gas is not modelled; the nesting of venue callbacks is bounded by a
      depth that [migrate] sets to the plan's length plus one, which is
      shown never to be exceeded.

    The React component of the same file, which prepares the arguments of
    [migrate], is embedded in the module [Web] as pure functions of its
    state. *)

From Stdlib Require Import ZArith String List Bool Lia.
Import ListNotations.
Open Scope Z_scope.

(** ** Solidity values *)

Definition address := Z.

(** [type(uint256).max], also the front end's [MAX_UINT256]. *)
Definition MAX_UINT256 : Z := 2 ^ 256 - 1.
Definition MAX_UINT8 : Z := 255.
Definition MIN_INT256 : Z := - 2 ^ 255.

(** Taken from the contract's constants. *)
Definition MIN_SQRT_RATIO : Z := 4295128739.
Definition MAX_SQRT_RATIO : Z := 1461446703485210103287273052203988822378723970342.

(** Explicit conversions between [uint256] and [int256] reinterpret the
    two's-complement bits; they never fail. *)
Definition toInt256 (x : Z) : Z := if x <? 2 ^ 255 then x else x - 2 ^ 256.
Definition toUint256 (x : Z) : Z := x mod 2 ^ 256.

Inductive Error : Type :=
| Reentrancy (loc : Z)
| CompoundV2Error (loc code : Z)
| SweepFailure (loc : Z)
| CTokenTransferFailure
| RequireFailed (reason : string)      (* [require(cond, reason)] *)
| Panic (code : Z)                     (* 0x11 arithmetic, 0x32 index *)
| CollaboratorRevert (who : address)   (* a revert raised inside a callee *)
| CallDepthExceeded.

Definition PANIC_ARITHMETIC : Z := 17.
Definition PANIC_INDEX : Z := 50.

(** The message of the caller check in both callbacks; the specification
    calls this failure [UnauthorizedCallback]. *)
Definition UnauthorizedCallback : Error :=
  RequireFailed "must be called from uniswapLiquidityPool".

Inductive Result (A : Type) : Type :=
| Ok (a : A)
| Revert (e : Error).
Arguments Ok {A} a.
Arguments Revert {A} e.

(** ** The contract's structs *)

Record Collateral : Type := mkCollateral {
  cToken : address;
  amount : Z
}.

Record BorrowData : Type := mkBorrowData {
  borrowCToken : address;
  borrowAmount : Z;
  pool : address;
  isFlashLoan : bool
}.

Record MigrationCallbackData : Type := mkData {
  user : address;
  borrowData : list BorrowData;
  collateral : list Collateral;
  baseToken : address;
  totalBaseToBorrow : Z;
  step : Z
}.

(** ** External calls, as the contract issues them *)

Inductive Event : Type :=
| CallBorrowBalanceCurrent (ctok account : address)
| CallFlash (pl recipient : address) (amount0 amount1 : Z)
            (data : MigrationCallbackData)
| CallSwap (pl recipient : address) (zeroForOne : bool)
           (amountSpecified sqrtPriceLimitX96 : Z)
           (data : MigrationCallbackData)
| CallApprove (token spender : address) (amt : Z)
| CallRepayBorrowBehalf (ctok borrower : address) (amt : Z)
| CallTransfer (token dst : address) (amt : Z)
| CallTransferFrom (token src dst : address) (amt : Z)
| CallRedeem (ctok : address) (amt : Z)
| CallWethDeposit (value : Z)
| CallSupplyTo (dst asset : address) (amt : Z)
| CallWithdrawFrom (src dst asset : address) (amt : Z)
| CallSend (dst : address) (value : Z)
| EmitMigrated (account : address) (coll : list Collateral)
               (repayAmount borrowAmountWithFee : Z).

(** ** The world *)

(** What the collaborator contracts hold.  A Solidity mapping is total, so
    each ledger is a total function. *)
Record Ledger : Type := mkLedger {
  balanceOf : address -> address -> Z;      (* ERC-20 (cTokens too): token, holder *)
  nativeBalance : address -> Z;
  borrowBalance : address -> address -> Z;  (* cToken, borrower *)
  cometBalance : address -> address -> Z    (* account, asset; negative = borrowed *)
}.

Record World : Type := mkWorld {
  inMigration : Z;          (* the contract's only mutable storage *)
  ledger : Ledger
}.

(** Immutable configuration, and the answers of the collaborators that the
    contract cannot influence. *)
Record Env : Type := mkEnv {
  this : address;                              (* [address(this)] *)
  comet : address;
  cETH : address;
  weth : address;
  sweepee : address;
  underlying : address -> address;             (* [cToken.underlying()] *)
  token0 : address -> address;                 (* [pool.token0()] *)
  token1 : address -> address;
  flashFee : address -> Z -> Z;                (* pool, amount lent *)
  swapQuote : address -> bool -> Z -> Z * Z;   (* pool, zeroForOne, amountSpecified *)
  repayCode : address -> address -> Z -> Z;    (* cToken, borrower, amount *)
  redeemCode : address -> Z -> Z;              (* cToken, amount *)
  redeemValue : address -> Z -> Z;             (* cToken, amount: underlying paid out *)
  cTokenTransferAllowed : address -> address -> address -> Z -> bool;
  transferSucceeds : address -> address -> Z -> bool;  (* token, to, amount *)
  acceptsEther : address -> bool;
  withdrawAllowed : address -> address -> Z -> bool    (* src, asset, amount *)
}.

(** ** The monad

    State, failure, and a log.  The log lists, oldest first, the external
    calls the contract attempted; unlike the world it survives a revert, so
    that a failing run can still be asked what it did before it failed. *)

Definition Trace : Type := list Event.

Definition M (A : Type) : Type := World -> Trace * Result (A * World).

Definition ret {A : Type} (a : A) : M A := fun w => ([], Ok (a, w)).

Definition bind {A B : Type} (m : M A) (k : A -> M B) : M B :=
  fun w => match m w with
           | (t1, Ok (a, w1)) =>
               match k a w1 with
               | (t2, r) => (t1 ++ t2, r)
               end
           | (t1, Revert e) => (t1, Revert e)
           end.

Definition revert {A : Type} (e : Error) : M A := fun _ => ([], Revert e).

Declare Scope sol_scope.
Delimit Scope sol_scope with sol.
Notation "x <- m ;; k" := (bind m (fun x => k))
  (at level 61, m at next level, right associativity) : sol_scope.
Notation "m ;; k" := (bind m (fun _ => k))
  (at level 61, right associativity) : sol_scope.
Open Scope sol_scope.

Definition readInMigration : M Z := fun w => ([], Ok (inMigration w, w)).

Definition writeInMigration (v : Z) : M unit :=
  fun w => ([], Ok (tt, mkWorld v (ledger w))).

(** A collaborator call acts on the ledgers only. *)
Definition Ext (A : Type) : Type := Ledger -> Result (A * Ledger).

Definition call {A : Type} (ev : Event) (op : Ext A) : M A :=
  fun w => ([ev],
            match op (ledger w) with
            | Ok (a, l') => Ok (a, mkWorld (inMigration w) l')
            | Revert e => Revert e
            end).

Definition view {A : Type} (f : Ledger -> A) : M A :=
  fun w => ([], Ok (f (ledger w), w)).

Definition emit (ev : Event) : M unit := fun w => ([ev], Ok (tt, w)).

(** Checked arithmetic of Solidity 0.8. *)
Definition checked_add (bound a b : Z) : M Z :=
  if a + b <=? bound then ret (a + b) else revert (Panic PANIC_ARITHMETIC).

Definition checked_sub (a b : Z) : M Z :=
  if b <=? a then ret (a - b) else revert (Panic PANIC_ARITHMETIC).

Definition checked_neg (a : Z) : M Z :=
  if a =? MIN_INT256 then revert (Panic PANIC_ARITHMETIC) else ret (- a).

(** [xs[i]] on a memory array. *)
Definition lookup {A : Type} (xs : list A) (i : Z) : option A :=
  if i <? 0 then None else nth_error xs (Z.to_nat i).

Definition index {A : Type} (xs : list A) (i : Z) : M A :=
  match lookup xs i with
  | Some x => ret x
  | None => revert (Panic PANIC_INDEX)
  end.

(** What a top-level transaction leaves behind: the EVM keeps the new world
    on success and the old one on a revert. *)
Definition commit {A : Type} (m : M A) (w : World) : World :=
  match snd (m w) with
  | Ok (_, w') => w'
  | Revert _ => w
  end.

Definition traceOf {A : Type} (m : M A) (w : World) : Trace := fst (m w).

Definition failure {A : Type} (r : Result A) : option Error :=
  match r with
  | Ok _ => None
  | Revert e => Some e
  end.

(** ** Collaborator contracts

    None of them belongs to the repository.  Each is idealised as an honest
    ledger: a token moves balances, a source market (cToken) tracks debt, the
    target protocol tracks a signed balance per account and asset, and a
    liquidity venue pays out, calls back once and insists on being repaid.
    Where a collaborator may refuse, [Env] decides. *)

Definition upd2 (m : address -> address -> Z) (a b : address) (v : Z)
  : address -> address -> Z :=
  fun a' b' => if (a' =? a) && (b' =? b) then v else m a' b'.

Definition upd1 (m : address -> Z) (a : address) (v : Z) : address -> Z :=
  fun a' => if a' =? a then v else m a'.

Definition setBalances (l : Ledger) (b : address -> address -> Z) : Ledger :=
  mkLedger b (nativeBalance l) (borrowBalance l) (cometBalance l).

Definition credit (token holder : address) (amt : Z) (l : Ledger) : Ledger :=
  setBalances l (upd2 (balanceOf l) token holder (balanceOf l token holder + amt)).

Definition debit (token holder : address) (amt : Z) (l : Ledger) : Ledger :=
  credit token holder (- amt) l.

Definition move (token src dst : address) (amt : Z) (l : Ledger) : Ledger :=
  credit token dst amt (debit token src amt l).

Definition creditNative (holder : address) (amt : Z) (l : Ledger) : Ledger :=
  mkLedger (balanceOf l)
           (upd1 (nativeBalance l) holder (nativeBalance l holder + amt))
           (borrowBalance l) (cometBalance l).

Definition creditDebt (ctok borrower : address) (amt : Z) (l : Ledger) : Ledger :=
  mkLedger (balanceOf l) (nativeBalance l)
           (upd2 (borrowBalance l) ctok borrower (borrowBalance l ctok borrower + amt))
           (cometBalance l).

Definition creditComet (account asset : address) (amt : Z) (l : Ledger) : Ledger :=
  mkLedger (balanceOf l) (nativeBalance l) (borrowBalance l)
           (upd2 (cometBalance l) account asset (cometBalance l account asset + amt)).

Section Collaborators.
Variable env : Env.

(** ERC-20 [transfer], called by the contract: a token may answer [false];
    spending more than is held reverts. *)
Definition erc20_transfer (token dst : address) (amt : Z) : Ext bool :=
  fun l =>
    if negb (transferSucceeds env token dst amt) then Ok (false, l)
    else if balanceOf l token (this env) <? amt
         then Revert (CollaboratorRevert token)
         else Ok (true, move token (this env) dst amt l).

(** ERC-20 [approve]: allowances are not tracked. *)
Definition erc20_approve (token spender : address) (amt : Z) : Ext bool :=
  fun l => Ok (true, l).

(** [sweepee.send(value)]. *)
Definition native_send (dst : address) (value : Z) : Ext bool :=
  fun l =>
    if acceptsEther env dst
    then Ok (true, creditNative dst value (creditNative (this env) (- value) l))
    else Ok (false, l).

(** [cToken.borrowBalanceCurrent(account)]. *)
Definition ctoken_borrowBalanceCurrent (ctok account : address) : Ext Z :=
  fun l => Ok (borrowBalance l ctok account, l).

(** [cToken.repayBorrowBehalf(borrower, amt)]: a refusal is an error code
    and changes nothing; otherwise the debt shrinks and the underlying
    token is pulled from the contract. *)
Definition ctoken_repayBorrowBehalf (ctok borrower : address) (amt : Z) : Ext Z :=
  fun l =>
    let code := repayCode env ctok borrower amt in
    if negb (code =? 0) then Ok (code, l)
    else if (borrowBalance l ctok borrower <? amt)
            || (balanceOf l (underlying env ctok) (this env) <? amt)
         then Revert (CollaboratorRevert ctok)
         else Ok (0, creditDebt ctok borrower (- amt)
                       (move (underlying env ctok) (this env) ctok amt l)).

(** [cToken.transferFrom(src, dst, amt)] answers [false] instead of
    reverting. *)
Definition ctoken_transferFrom (ctok src dst : address) (amt : Z) : Ext bool :=
  fun l =>
    if cTokenTransferAllowed env ctok src dst amt && (amt <=? balanceOf l ctok src)
    then Ok (true, move ctok src dst amt l)
    else Ok (false, l).

(** [cToken.redeem(amt)]: burns the contract's cTokens and pays out the
    underlying asset, native currency for [cETH]. *)
Definition ctoken_redeem (ctok : address) (amt : Z) : Ext Z :=
  fun l =>
    let code := redeemCode env ctok amt in
    if negb (code =? 0) then Ok (code, l)
    else if balanceOf l ctok (this env) <? amt
         then Revert (CollaboratorRevert ctok)
         else
           let l1 := debit ctok (this env) amt l in
           let paid := redeemValue env ctok amt in
           Ok (0, if ctok =? cETH env
                  then creditNative (this env) paid l1
                  else credit (underlying env ctok) (this env) paid l1).

(** [weth.deposit{value: v}()]. *)
Definition weth_deposit (v : Z) : Ext unit :=
  fun l =>
    if nativeBalance l (this env) <? v
    then Revert (CollaboratorRevert (weth env))
    else Ok (tt, credit (weth env) (this env) v
                   (creditNative (weth env) v (creditNative (this env) (- v) l))).

(** [comet.supplyTo(dst, asset, amt)]. *)
Definition comet_supplyTo (dst asset : address) (amt : Z) : Ext unit :=
  fun l =>
    if balanceOf l asset (this env) <? amt
    then Revert (CollaboratorRevert (comet env))
    else Ok (tt, creditComet dst asset amt
                   (move asset (this env) (comet env) amt l)).

(** [comet.withdrawFrom(src, dst, asset, amt)]: the protocol decides whether
    [src] let the contract act for it and stays collateralised. *)
Definition comet_withdrawFrom (src dst asset : address) (amt : Z) : Ext unit :=
  fun l =>
    if negb (withdrawAllowed env src asset amt)
       || (balanceOf l asset (comet env) <? amt)
    then Revert (CollaboratorRevert (comet env))
    else Ok (tt, creditComet src asset (- amt)
                   (move asset (comet env) dst amt l)).

(** What the venue hands out on [flash]; answers its two balances before. *)
Definition pool_lend (pl recipient : address) (amount0 amount1 : Z) : Ext (Z * Z) :=
  fun l =>
    let b0 := balanceOf l (token0 env pl) pl in
    let b1 := balanceOf l (token1 env pl) pl in
    if (b0 <? amount0) || (b1 <? amount1)
    then Revert (CollaboratorRevert pl)
    else Ok ((b0, b1),
             move (token1 env pl) pl recipient amount1
               (move (token0 env pl) pl recipient amount0 l)).

Definition Callback : Type :=
  address -> Z -> Z -> MigrationCallbackData -> M unit.

(** [pool.flash(recipient, amount0, amount1, data)]: lend, call the
    borrower back with the two fees, and revert unless both balances grew
    by the fee. *)
Definition pool_flash (cb : Callback) (pl recipient : address)
    (amount0 amount1 : Z) (data : MigrationCallbackData) : M unit :=
  let fee0 := flashFee env pl amount0 in
  let fee1 := flashFee env pl amount1 in
  before <- call (CallFlash pl recipient amount0 amount1 data)
                 (pool_lend pl recipient amount0 amount1) ;;
  cb pl fee0 fee1 data ;;
  after0 <- view (fun l => balanceOf l (token0 env pl) pl) ;;
  after1 <- view (fun l => balanceOf l (token1 env pl) pl) ;;
  if (fst before + fee0 <=? after0) && (snd before + fee1 <=? after1)
  then ret tt
  else revert (CollaboratorRevert pl).

(** The token the venue pays out, and the one it takes in, on a swap. *)
Definition swapOutToken (pl : address) (zeroForOne : bool) : address :=
  if zeroForOne then token1 env pl else token0 env pl.
Definition swapInToken (pl : address) (zeroForOne : bool) : address :=
  if zeroForOne then token0 env pl else token1 env pl.

Definition pool_swap_out (pl recipient : address) (zeroForOne : bool)
    (amount0 amount1 : Z) : Ext Z :=
  fun l =>
    let out := - (if zeroForOne then amount1 else amount0) in
    if balanceOf l (swapOutToken pl zeroForOne) pl <? out
    then Revert (CollaboratorRevert pl)
    else Ok (balanceOf l (swapInToken pl zeroForOne) pl,
             move (swapOutToken pl zeroForOne) pl recipient out l).

(** [pool.swap(recipient, zeroForOne, amountSpecified, limit, data)]: pay
    the output, call back with the two signed deltas, and revert unless the
    input side was paid. *)
Definition pool_swap (cb : Callback) (pl recipient : address)
    (zeroForOne : bool) (amountSpecified sqrtPriceLimitX96 : Z)
    (data : MigrationCallbackData) : M unit :=
  let amount0 := fst (swapQuote env pl zeroForOne amountSpecified) in
  let amount1 := snd (swapQuote env pl zeroForOne amountSpecified) in
  before <- call (CallSwap pl recipient zeroForOne amountSpecified
                           sqrtPriceLimitX96 data)
                 (pool_swap_out pl recipient zeroForOne amount0 amount1) ;;
  cb pl amount0 amount1 data ;;
  after <- view (fun l => balanceOf l (swapInToken pl zeroForOne) pl) ;;
  if before + (if zeroForOne then amount0 else amount1) <=? after
  then ret tt
  else revert (CollaboratorRevert pl).

End Collaborators.

(** ** The contract *)

Section CometMigrator.
Variable env : Env.

(** The internal function [flashLoanOrSwap], as the callbacks see it. *)
Definition Acquire : Type :=
  list BorrowData -> Z -> MigrationCallbackData -> M unit.

Definition lengthOf {A : Type} (xs : list A) : Z := Z.of_nat (length xs).

(** The asset a collateral cToken turns into before it is supplied. *)
Definition suppliedAsset (c : Collateral) : address :=
  if cToken c =? cETH env then weth env else underlying env (cToken c).

(** One pass of the collateral loop of [migrateCollateralAndBorrow] for item
    [c], with loop counter [i : uint8]; answers the counter after [i++]. *)
Definition migrateOne (account : address) (c : Collateral) (i : Z) : M Z :=
  amt <- (if amount c =? MAX_UINT256
          then view (fun l => balanceOf l (cToken c) account)
          else ret (amount c)) ;;
  transferSuccess <-
    call (CallTransferFrom (cToken c) account (this env) amt)
         (ctoken_transferFrom env (cToken c) account (this env) amt) ;;
  if negb transferSuccess then revert CTokenTransferFailure else
  held <- view (fun l => balanceOf l (cToken c) (this env)) ;;
  err <- call (CallRedeem (cToken c) held)
              (ctoken_redeem env (cToken c) held) ;;
  if negb (err =? 0)
  then (loc <- checked_add MAX_UINT8 1 i ;;
        revert (CompoundV2Error loc err))
  else
  (if cToken c =? cETH env
   then (value <- view (fun l => nativeBalance l (this env)) ;;
         call (CallWethDeposit value) (weth_deposit env value))
   else ret tt) ;;
  let asset := suppliedAsset c in
  call (CallApprove asset (comet env) MAX_UINT256)
       (erc20_approve asset (comet env) MAX_UINT256) ;;
  supplied <- view (fun l => balanceOf l asset (this env)) ;;
  call (CallSupplyTo account asset supplied)
       (comet_supplyTo env account asset supplied) ;;
  checked_add MAX_UINT8 i 1.

(** The loop itself. *)
Fixpoint migrateCollateral (account : address) (cs : list Collateral) (i : Z)
  : M unit :=
  match cs with
  | [] => ret tt
  | c :: rest =>
      i' <- migrateOne account c i ;;
      migrateCollateral account rest i'
  end.

Definition migrateCollateralAndBorrow (migrationData : MigrationCallbackData)
    (borrowAmountWithFee : Z) : M unit :=
  migrateCollateral (user migrationData) (collateral migrationData) 0 ;;
  call (CallWithdrawFrom (user migrationData) (this env)
                         (baseToken migrationData) borrowAmountWithFee)
       (comet_withdrawFrom env (user migrationData) (this env)
                           (baseToken migrationData) borrowAmountWithFee) ;;
  emit (EmitMigrated (user migrationData) (collateral migrationData)
                     0 borrowAmountWithFee).

(** What both callbacks do once the amount owed for this leg is known:
    repay the source market, then either settle or open the next leg.  The
    two callbacks spell these statements out word for word (lines 1489-1512
    and 1556-1579 of the source); they are written once here. *)
Definition repayAndContinue (acquire : Acquire)
    (migrationCallbackData : MigrationCallbackData)
    (currentBorrowData : BorrowData) (totalBorrowAmount : Z) : M unit :=
  let borrowToken := underlying env (borrowCToken currentBorrowData) in
  let repayAmount := borrowAmount currentBorrowData in
  call (CallApprove borrowToken (borrowCToken currentBorrowData) MAX_UINT256)
       (erc20_approve borrowToken (borrowCToken currentBorrowData) MAX_UINT256) ;;
  err <- call (CallRepayBorrowBehalf (borrowCToken currentBorrowData)
                                     (user migrationCallbackData) repayAmount)
              (ctoken_repayBorrowBehalf env (borrowCToken currentBorrowData)
                                        (user migrationCallbackData) repayAmount) ;;
  if negb (err =? 0) then revert (CompoundV2Error 0 err) else
  lastIndex <- checked_sub (lengthOf (borrowData migrationCallbackData)) 1 ;;
  let isLastStep := lastIndex <=? step migrationCallbackData in
  if isLastStep
  then migrateCollateralAndBorrow migrationCallbackData totalBorrowAmount
  else
    nextStep <- checked_add MAX_UINT256 (step migrationCallbackData) 1 ;;
    let callbackData :=
      mkData (user migrationCallbackData)
             (borrowData migrationCallbackData)
             (collateral migrationCallbackData)
             (baseToken migrationCallbackData)
             totalBorrowAmount
             nextStep in
    acquire (borrowData migrationCallbackData) nextStep callbackData.

Definition uniswapV3FlashCallback (acquire : Acquire) (sender : address)
    (fee0 fee1 : Z) (data : MigrationCallbackData) : M unit :=
  guard <- readInMigration ;;
  if negb (guard =? 1) then revert (Reentrancy 1) else
  let migrationCallbackData := data in
  currentBorrowData <- index (borrowData migrationCallbackData)
                             (step migrationCallbackData) ;;
  if negb (sender =? pool currentBorrowData)
  then revert UnauthorizedCallback else
  let borrowToken := underlying env (borrowCToken currentBorrowData) in
  let repayAmount := borrowAmount currentBorrowData in
  let isPoolToken0 := token0 env (pool currentBorrowData) =? borrowToken in
  borrowAmountWithFee <-
    checked_add MAX_UINT256 repayAmount (if isPoolToken0 then fee0 else fee1) ;;
  totalBorrowAmount <-
    checked_add MAX_UINT256 (totalBaseToBorrow migrationCallbackData)
                borrowAmountWithFee ;;
  repayAndContinue acquire migrationCallbackData currentBorrowData
                   totalBorrowAmount ;;
  call (CallTransfer borrowToken (pool currentBorrowData) borrowAmountWithFee)
       (erc20_transfer env borrowToken (pool currentBorrowData)
                       borrowAmountWithFee) ;;
  ret tt.

Definition uniswapV3SwapCallback (acquire : Acquire) (sender : address)
    (amount0Delta amount1Delta : Z) (data : MigrationCallbackData) : M unit :=
  guard <- readInMigration ;;
  if negb (guard =? 1) then revert (Reentrancy 1) else
  let migrationCallbackData := data in
  currentBorrowData <- index (borrowData migrationCallbackData)
                             (step migrationCallbackData) ;;
  if negb (sender =? pool currentBorrowData)
  then revert UnauthorizedCallback else
  let borrowToken := underlying env (borrowCToken currentBorrowData) in
  let isPoolToken0 := token0 env (pool currentBorrowData) =? borrowToken in
  let baseBorrowAmount :=
    toUint256 (if isPoolToken0 then amount1Delta else amount0Delta) in
  totalBorrowAmount <-
    checked_add MAX_UINT256 (totalBaseToBorrow migrationCallbackData)
                baseBorrowAmount ;;
  repayAndContinue acquire migrationCallbackData currentBorrowData
                   totalBorrowAmount ;;
  let repayToken :=
    if isPoolToken0 then token1 env (pool currentBorrowData)
    else token0 env (pool currentBorrowData) in
  call (CallTransfer repayToken (pool currentBorrowData) baseBorrowAmount)
       (erc20_transfer env repayToken (pool currentBorrowData)
                       baseBorrowAmount) ;;
  ret tt.

(** [flashLoanOrSwap] with the two callbacks it will be re-entered
    through. *)
Definition flashLoanOrSwapVia (flashCallback swapCallback : Callback)
    (borrowData_ : list BorrowData) (step_ : Z)
    (callbackData : MigrationCallbackData) : M unit :=
  initialBorrowData <- index borrowData_ step_ ;;
  let borrowToken := underlying env (borrowCToken initialBorrowData) in
  let isPoolToken0 := token0 env (pool initialBorrowData) =? borrowToken in
  let repayAmount := borrowAmount initialBorrowData in
  if isFlashLoan initialBorrowData
  then
    pool_flash env flashCallback (pool initialBorrowData) (this env)
               (if isPoolToken0 then repayAmount else 0)
               (if isPoolToken0 then 0 else repayAmount)
               callbackData
  else
    let zeroForOne := negb isPoolToken0 in
    let sqrtPriceLimitX96 :=
      if zeroForOne then MIN_SQRT_RATIO + 1 else MAX_SQRT_RATIO - 1 in
    amountSpecified <- checked_neg (toInt256 repayAmount) ;;
    pool_swap env swapCallback (pool initialBorrowData) (this env)
              (negb isPoolToken0) amountSpecified sqrtPriceLimitX96
              callbackData.

(** The venue re-enters the contract inside [flash]/[swap]; [depth] bounds
    how many legs may nest. *)
Fixpoint flashLoanOrSwap (depth : nat) : Acquire :=
  match depth with
  | O => fun _ _ _ => revert CallDepthExceeded
  | S d =>
      flashLoanOrSwapVia (uniswapV3FlashCallback (flashLoanOrSwap d))
                         (uniswapV3SwapCallback (flashLoanOrSwap d))
  end.

Definition setBorrowAmount (b : BorrowData) (v : Z) : BorrowData :=
  mkBorrowData (borrowCToken b) v (pool b) (isFlashLoan b).

(** The loop at the top of [migrate]. *)
Fixpoint resolveBorrowAmounts (account : address) (bs : list BorrowData)
  : M (list BorrowData) :=
  match bs with
  | [] => ret []
  | b :: rest =>
      repayAmount <-
        (if borrowAmount b =? MAX_UINT256
         then call (CallBorrowBalanceCurrent (borrowCToken b) account)
                   (ctoken_borrowBalanceCurrent (borrowCToken b) account)
         else ret (borrowAmount b)) ;;
      rest' <- resolveBorrowAmounts account rest ;;
      ret (setBorrowAmount b repayAmount :: rest')
  end.

Definition migrate (sender : address) (collateral_ : list Collateral)
    (borrowData_ : list BorrowData) (baseToken_ : address) : M unit :=
  guard <- readInMigration ;;
  if negb (guard =? 0) then revert (Reentrancy 0) else
  guard1 <- readInMigration ;;
  raised <- checked_add MAX_UINT256 guard1 1 ;;
  writeInMigration raised ;;
  let account := sender in
  resolved <- resolveBorrowAmounts account borrowData_ ;;
  let step_ := 0 in
  let callbackData :=
    mkData account resolved collateral_ baseToken_ 0 step_ in
  flashLoanOrSwap (S (length resolved)) resolved step_ callbackData ;;
  guard2 <- readInMigration ;;
  lowered <- checked_sub guard2 1 ;;
  writeInMigration lowered.

Definition sweep (token : address) : M unit :=
  guard <- readInMigration ;;
  if negb (guard =? 0) then revert (Reentrancy 2) else
  if token =? 0
  then
    value <- view (fun l => nativeBalance l (this env)) ;;
    sent <- call (CallSend (sweepee env) value)
                 (native_send env (sweepee env) value) ;;
    if negb sent then revert (SweepFailure 0) else ret tt
  else
    held <- view (fun l => balanceOf l token (this env)) ;;
    sent <- call (CallTransfer token (sweepee env) held)
                 (erc20_transfer env token (sweepee env) held) ;;
    if negb sent then revert (SweepFailure 1) else ret tt.

End CometMigrator.

(** ** Reading a run *)

(** The entries of a log that a selector picks, in order. *)
Fixpoint collect {X : Type} (f : Event -> option X) (t : Trace) : list X :=
  match t with
  | [] => []
  | ev :: t' =>
      match f ev with
      | Some x => x :: collect f t'
      | None => collect f t'
      end
  end.

Definition selRepay (ev : Event) : option (address * address * Z) :=
  match ev with
  | CallRepayBorrowBehalf c u a => Some (c, u, a)
  | _ => None
  end.

Definition selWithdraw (ev : Event) : option (address * address * address * Z) :=
  match ev with
  | CallWithdrawFrom s d x a => Some (s, d, x, a)
  | _ => None
  end.

(** Who handed over which cToken to whom (the amount is read live). *)
Definition selTransferFrom (ev : Event) : option (address * address * address) :=
  match ev with
  | CallTransferFrom c s d _ => Some (c, s, d)
  | _ => None
  end.

(** For whom which asset was supplied to the target protocol. *)
Definition selSupply (ev : Event) : option (address * address) :=
  match ev with
  | CallSupplyTo d x _ => Some (d, x)
  | _ => None
  end.

(** Token, venue and amount of each transfer back to a venue. *)
Definition selTransfer (ev : Event) : option (address * address * Z) :=
  match ev with
  | CallTransfer tk d a => Some (tk, d, a)
  | _ => None
  end.

(** The step index carried by each liquidity request. *)
Definition selStep (ev : Event) : option Z :=
  match ev with
  | CallFlash _ _ _ _ data => Some (step data)
  | CallSwap _ _ _ _ _ data => Some (step data)
  | _ => None
  end.

Definition selRead (ev : Event) : option (address * address) :=
  match ev with
  | CallBorrowBalanceCurrent c u => Some (c, u)
  | _ => None
  end.

(** The calls that only [migrateCollateralAndBorrow] makes. *)
Definition isSettlement (ev : Event) : bool :=
  match ev with
  | CallTransferFrom _ _ _ _ | CallRedeem _ _ | CallWethDeposit _
  | CallSupplyTo _ _ _ | CallWithdrawFrom _ _ _ _ | EmitMigrated _ _ _ _ => true
  | _ => false
  end.

(** [k; k+1; ...], [len] of them. *)
Fixpoint upFrom (k : Z) (len : nat) : list Z :=
  match len with
  | O => []
  | S len' => k :: upFrom (k + 1) len'
  end.

Section Reading.
Variable env : Env.

Definition isPoolToken0 (b : BorrowData) : bool :=
  token0 env (pool b) =? underlying env (borrowCToken b).

(** What a loan leg costs on top of the amount lent. *)
Definition legFee (b : BorrowData) : Z :=
  flashFee env (pool b) (borrowAmount b).

(** What the venue asks for a swap leg, in the pair's other token. *)
Definition legQuote (b : BorrowData) : Z :=
  let q := swapQuote env (pool b) (negb (isPoolToken0 b))
                     (- toInt256 (borrowAmount b)) in
  toUint256 (if isPoolToken0 b then snd q else fst q).

(** What the venue of a leg is owed when its callback returns. *)
Definition legOwed (b : BorrowData) : Z :=
  if isFlashLoan b then borrowAmount b + legFee b else legQuote b.

(** The token in which a leg is paid back. *)
Definition legToken (b : BorrowData) : address :=
  if isFlashLoan b then underlying env (borrowCToken b)
  else if isPoolToken0 b then token1 env (pool b) else token0 env (pool b).

Fixpoint owedSum (bs : list BorrowData) : Z :=
  match bs with
  | [] => 0
  | b :: rest => legOwed b + owedSum rest
  end.

(** How much of [account]'s debt in market [c] a plan repays. *)
Fixpoint repaidTo (account : address) (bs : list BorrowData)
    (c a : address) : Z :=
  match bs with
  | [] => 0
  | b :: rest =>
      (if (borrowCToken b =? c) && (account =? a) then borrowAmount b else 0)
      + repaidTo account rest c a
  end.

(** The amounts of a plan with every sentinel replaced by the debt that
    ledger [l] shows. *)
Definition resolveAt (l : Ledger) (account : address) (bs : list BorrowData)
  : list BorrowData :=
  map (fun b => setBorrowAmount b
                  (if borrowAmount b =? MAX_UINT256
                   then borrowBalance l (borrowCToken b) account
                   else borrowAmount b)) bs.

(** One debt read per sentinel entry, in plan order. *)
Fixpoint sentinelReads (account : address) (bs : list BorrowData) : Trace :=
  match bs with
  | [] => []
  | b :: rest =>
      (if borrowAmount b =? MAX_UINT256
       then [CallBorrowBalanceCurrent (borrowCToken b) account] else [])
      ++ sentinelReads account rest
  end.

(** The amount a collateral item resolves to on ledger [l]. *)
Definition liveAmount (l : Ledger) (account : address) (c : Collateral) : Z :=
  if amount c =? MAX_UINT256 then balanceOf l (cToken c) account else amount c.

(** A monitor for the log of a step chain over plan [bs]: [next] legs have
    been opened so far.  A liquidity request must carry step [next] and go
    to that step's venue; a repayment must be the one of the leg opened
    last; settlement and the transfers back to the venues may only happen
    once every leg is open. *)
Definition scanEvent (bs : list BorrowData) (account : address) (next : Z)
    (ev : Event) : option Z :=
  match ev with
  | CallFlash pl _ _ _ data | CallSwap pl _ _ _ _ data =>
      match lookup bs next with
      | Some b =>
          if (step data =? next) && (pl =? pool b) then Some (next + 1)
          else None
      | None => None
      end
  | CallRepayBorrowBehalf c u a =>
      match lookup bs (next - 1) with
      | Some b =>
          if (c =? borrowCToken b) && (u =? account) && (a =? borrowAmount b)
          then Some next else None
      | None => None
      end
  | CallApprove _ _ _ => Some next
  | CallTransfer _ _ _
  | CallTransferFrom _ _ _ _ | CallRedeem _ _ | CallWethDeposit _
  | CallSupplyTo _ _ _ | CallWithdrawFrom _ _ _ _ | EmitMigrated _ _ _ _ =>
      if next =? lengthOf bs then Some next else None
  | CallBorrowBalanceCurrent _ _ | CallSend _ _ => None
  end.

Fixpoint scan (bs : list BorrowData) (account : address) (next : Z)
    (t : Trace) : option Z :=
  match t with
  | [] => Some next
  | ev :: t' =>
      match scanEvent bs account next ev with
      | Some next' => scan bs account next' t'
      | None => None
      end
  end.

(** The liquidity request of a leg, as logged. *)
Definition requestEvent (b : BorrowData) (data : MigrationCallbackData)
  : Event :=
  if isFlashLoan b
  then CallFlash (pool b) (this env)
                 (if isPoolToken0 b then borrowAmount b else 0)
                 (if isPoolToken0 b then 0 else borrowAmount b) data
  else CallSwap (pool b) (this env) (negb (isPoolToken0 b))
                (- toInt256 (borrowAmount b))
                (if negb (isPoolToken0 b)
                 then MIN_SQRT_RATIO + 1 else MAX_SQRT_RATIO - 1) data.

(** What a successful chain logs while it opens the legs [bs], which start
    at step [k] with [total] already owed. *)
Fixpoint opening (account : address) (plan : list BorrowData)
    (coll : list Collateral) (base : address)
    (bs : list BorrowData) (k total : Z) : Trace :=
  match bs with
  | [] => []
  | b :: rest =>
      requestEvent b (mkData account plan coll base total k)
      :: CallApprove (underlying env (borrowCToken b)) (borrowCToken b) MAX_UINT256
      :: CallRepayBorrowBehalf (borrowCToken b) account (borrowAmount b)
      :: opening account plan coll base rest (k + 1) (total + legOwed b)
  end.

(** What it logs while it unwinds: the venue opened last is paid first. *)
Fixpoint unwinding (bs : list BorrowData) : Trace :=
  match bs with
  | [] => []
  | b :: rest =>
      unwinding rest ++ [CallTransfer (legToken b) (pool b) (legOwed b)]
  end.

(** ** Transactions *)

Inductive Tx : Type :=
| TxMigrate (sender : address) (coll : list Collateral)
            (plan : list BorrowData) (base : address)
| TxFlashCallback (sender : address) (fee0 fee1 : Z)
                  (data : MigrationCallbackData)
| TxSwapCallback (sender : address) (amount0Delta amount1Delta : Z)
                 (data : MigrationCallbackData)
| TxSweep (token : address).

Definition runTx (tx : Tx) : M unit :=
  match tx with
  | TxMigrate sender coll plan base => migrate env sender coll plan base
  | TxFlashCallback sender fee0 fee1 data =>
      uniswapV3FlashCallback env
        (flashLoanOrSwap env (S (length (borrowData data))))
        sender fee0 fee1 data
  | TxSwapCallback sender d0 d1 data =>
      uniswapV3SwapCallback env
        (flashLoanOrSwap env (S (length (borrowData data))))
        sender d0 d1 data
  | TxSweep token => sweep env token
  end.

(** The worlds the contract can be in between transactions: the guard is
    zero at deployment, anyone may submit any transaction, and the rest of
    the chain may change the ledgers at will. *)
Inductive Reachable : World -> Prop :=
| reach_deployed (l : Ledger) : Reachable (mkWorld 0 l)
| reach_tx (w : World) (tx : Tx) :
    Reachable w -> Reachable (commit (runTx tx) w)
| reach_elsewhere (w : World) (l : Ledger) :
    Reachable w -> Reachable (mkWorld (inMigration w) l).

End Reading.

(** ** What a run may be asked

    The predicates below are the conclusions of the lemmas on the parts of
    the contract; each reads the log [t] and the result [r] of one run. *)

(** The calls [migrateCollateralAndBorrow] makes, approvals included. *)
Definition settleOnly (ev : Event) : bool :=
  isSettlement ev || match ev with CallApprove _ _ _ => true | _ => false end.

(** The debts are the same on both ledgers. *)
Definition sameDebt (l l' : Ledger) : Prop := borrowBalance l' = borrowBalance l.

(** What a logged call, having succeeded, adds to [account]'s balance of
    [asset] in the target protocol. *)
Definition cometEffect (account asset : address) (ev : Event) : Z :=
  match ev with
  | CallSupplyTo d x a => if (account =? d) && (asset =? x) then a else 0
  | CallWithdrawFrom s _ x a => if (account =? s) && (asset =? x) then - a else 0
  | _ => 0
  end.

Fixpoint cometDelta (account asset : address) (t : Trace) : Z :=
  match t with
  | [] => 0
  | ev :: t' => cometEffect account asset ev + cometDelta account asset t'
  end.

(** The target protocol's balances on [l'] are those on [l], moved as the
    log says. *)
Definition CometFollows (t : Trace) (l l' : Ledger) : Prop :=
  forall x y, cometBalance l' x y = cometBalance l x y + cometDelta x y t.

(** Every successful run of [m] moves the target protocol's balances as its
    log says. *)
Definition Tracks {A : Type} (m : M A) : Prop :=
  forall w t a w', m w = (t, Ok (a, w')) ->
                   CometFollows t (ledger w) (ledger w').

(** What the withdrawals [ws] took from [account]'s balance of [asset]. *)
Fixpoint withdrawn (account asset : address)
    (ws : list (address * address * address * Z)) : Z :=
  match ws with
  | [] => 0
  | (s, _, x, a) :: rest =>
      (if (account =? s) && (asset =? x) then a else 0)
      + withdrawn account asset rest
  end.

(** ** Replaying a log

    What the collaborator that answers a call does to the ledgers; a call
    that reverts leaves them alone. *)
Definition after {A : Type} (op : Ext A) (l : Ledger) : Ledger :=
  match op l with
  | Ok (_, l') => l'
  | Revert _ => l
  end.

Section Replay.
Variable env : Env.

(** The collaborator behind each logged call.  A liquidity request stands
    for the venue paying out; what its callback does is logged after it. *)
Definition effect (ev : Event) : Ledger -> Ledger :=
  match ev with
  | CallBorrowBalanceCurrent c u => after (ctoken_borrowBalanceCurrent c u)
  | CallFlash pl rc a0 a1 _ => after (pool_lend env pl rc a0 a1)
  | CallSwap pl rc z spec _ _ =>
      after (pool_swap_out env pl rc z (fst (swapQuote env pl z spec))
                           (snd (swapQuote env pl z spec)))
  | CallApprove tk sp a => after (erc20_approve tk sp a)
  | CallRepayBorrowBehalf c u a => after (ctoken_repayBorrowBehalf env c u a)
  | CallTransfer tk d a => after (erc20_transfer env tk d a)
  | CallTransferFrom c s d a => after (ctoken_transferFrom env c s d a)
  | CallRedeem c a => after (ctoken_redeem env c a)
  | CallWethDeposit v => after (weth_deposit env v)
  | CallSupplyTo d x a => after (comet_supplyTo env d x a)
  | CallWithdrawFrom s d x a => after (comet_withdrawFrom env s d x a)
  | CallSend d v => after (native_send env d v)
  | EmitMigrated _ _ _ _ => fun l => l
  end.

(** The ledgers after the calls of log [t], answered in turn from [l]. *)
Definition replay (t : Trace) (l : Ledger) : Ledger :=
  fold_left (fun l' ev => effect ev l') t l.

End Replay.

Section Outcomes.
Variable env : Env.

(** One pass of the collateral loop. *)
Definition OnePost (account : address) (c : Collateral) (i : Z) (w : World)
    (t : Trace) (r : Result (Z * World)) : Prop :=
  Forall (fun ev => settleOnly ev = true) t /\
  collect selWithdraw t = [] /\
  failure r <> Some CallDepthExceeded /\
  (exists t2, t = CallTransferFrom (cToken c) account (this env)
                    (liveAmount (ledger w) account c) :: t2) /\
  forall i' w', r = Ok (i', w') ->
    i' = i + 1 /\
    inMigration w' = inMigration w /\
    sameDebt (ledger w) (ledger w') /\
    collect selTransferFrom t = [(cToken c, account, this env)] /\
    collect selSupply t = [(account, suppliedAsset env c)].

(** The whole collateral loop. *)
Definition McPost (account : address) (cs : list Collateral) (w : World)
  (t : Trace) (r : Result (unit * World)) : Prop :=
  Forall (fun ev => settleOnly ev = true) t /\
  collect selWithdraw t = [] /\
  failure r <> Some CallDepthExceeded /\
  forall w', r = Ok (tt, w') ->
    inMigration w' = inMigration w /\
    sameDebt (ledger w) (ledger w') /\
    collect selTransferFrom t = map (fun c => (cToken c, account, this env)) cs /\
    collect selSupply t = map (fun c => (account, suppliedAsset env c)) cs.

(** [migrateCollateralAndBorrow]. *)
Definition SettlePost (data : MigrationCallbackData) (total : Z) (w : World)
  (t : Trace) (r : Result (unit * World)) : Prop :=
  Forall (fun ev => settleOnly ev = true) t /\
  failure r <> Some CallDepthExceeded /\
  forall w', r = Ok (tt, w') ->
    inMigration w' = inMigration w /\
    sameDebt (ledger w) (ledger w') /\
    collect selTransferFrom t
      = map (fun c => (cToken c, user data, this env)) (collateral data) /\
    collect selSupply t
      = map (fun c => (user data, suppliedAsset env c)) (collateral data) /\
    collect selWithdraw t = [(user data, this env, baseToken data, total)].

(** A callback that returns has paid its caller back, last of all. *)
Definition PaidBack (sender : address) (data : MigrationCallbackData)
    (tokenOf : BorrowData -> address) (owedOf : BorrowData -> Z)
    (t : Trace) (r : Result (unit * World)) : Prop :=
  forall w', r = Ok (tt, w') ->
    exists b pre,
      lookup (borrowData data) (step data) = Some b /\
      sender = pool b /\
      t = pre ++ [CallTransfer (tokenOf b) sender (owedOf b)] /\
      (transferSucceeds env (tokenOf b) sender (owedOf b) = true ->
       exists l, ledger w' = move (tokenOf b) (this env) sender (owedOf b) l).

(** The step chain that [migrate] starts, on the world it starts it in. *)
Definition chainOf (sender : address) (coll : list Collateral)
    (plan : list BorrowData) (base : address) (w : World)
  : Trace * Result (unit * World) :=
  let resolved := resolveAt (ledger w) sender plan in
  flashLoanOrSwap env (S (length resolved)) resolved 0
                  (mkData sender resolved coll base 0 0)
                  (mkWorld 1 (ledger w)).

(** The sum the specification states: every leg's amount plus its fee. *)
Fixpoint feeInclusiveSum (bs : list BorrowData) : Z :=
  match bs with
  | [] => 0
  | b :: rest => (borrowAmount b + legFee env b) + feeInclusiveSum rest
  end.

End Outcomes.

Section ChainOutcomes.
Variable env : Env.
Variables (usr : address) (bs : list BorrowData) (coll : list Collateral)
          (base : address).

(** The callback data of step [k] with [total] owed so far. *)
Definition dataAt (total k : Z) : MigrationCallbackData :=
  mkData usr bs coll base total k.

(** The legs from step [k] on. *)
Definition restFrom (k : Z) : list BorrowData := skipn (Z.to_nat k) bs.

(** What holds of every run of the chain from step [k], failed or not: the
    monitor accepts its log, and reaches the plan's end if the run
    succeeded; the depth bound was not hit; a repayment that the source
    market refused ended the run with [CompoundV2Error(0, code)]; no debt
    was read. *)
Definition Common (k : Z) (t : Trace) (r : Result (unit * World)) : Prop :=
  (exists j, scan bs usr k t = Some j /\
             (forall w', r = Ok (tt, w') -> j = lengthOf bs)) /\
  failure r <> Some CallDepthExceeded /\
  (forall c u a, In (c, u, a) (collect selRepay t) ->
                 repayCode env c u a <> 0 ->
                 failure r = Some (CompoundV2Error 0 (repayCode env c u a))) /\
  collect selRead t = [].

(** What holds of a successful run over the legs [rest]: the debts shrank
    by what these legs repay, and the log is [front], then the log of a
    successful settlement of [total], then [back]; the settlement found the
    ledgers that the calls of [front] made of those of [w], and the run left
    the ledgers that the calls of [back] made of the settlement's. *)
Definition Settled (rest : list BorrowData) (total : Z) (front back : Trace)
    (w w' : World) (t : Trace) : Prop :=
  (forall c a, borrowBalance (ledger w') c a
               = borrowBalance (ledger w) c a - repaidTo usr rest c a) /\
  exists dataLast wm wm' ts,
    user dataLast = usr /\ collateral dataLast = coll /\
    baseToken dataLast = base /\
    migrateCollateralAndBorrow env dataLast total wm = (ts, Ok (tt, wm')) /\
    t = front ++ ts ++ back /\
    ledger wm = replay env front (ledger w) /\
    ledger w' = replay env back (ledger wm').

(** [flashLoanOrSwap] at step [k]. *)
Definition ChainPost (k total : Z) (w : World) (t : Trace)
    (r : Result (unit * World)) : Prop :=
  Common k t r /\
  forall w', r = Ok (tt, w') ->
    inMigration w = 1 /\ inMigration w' = 1 /\
    Settled (restFrom k) (total + owedSum env (restFrom k))
            (opening env usr bs coll base (restFrom k) k total)
            (unwinding env (restFrom k)) w w' t.

(** The two calls that repay leg [b]. *)
Definition repayEvents (b : BorrowData) : Trace :=
  [CallApprove (underlying env (borrowCToken b)) (borrowCToken b) MAX_UINT256;
   CallRepayBorrowBehalf (borrowCToken b) usr (borrowAmount b)].

(** [repayAndContinue] at step [k]. *)
Definition RacPost (k : Z) (b : BorrowData) (totalNew : Z) (w : World)
    (t : Trace) (r : Result (unit * World)) : Prop :=
  Common (k + 1) t r /\
  forall w', r = Ok (tt, w') ->
    inMigration w' = inMigration w /\
    Settled (b :: restFrom (k + 1)) (totalNew + owedSum env (restFrom (k + 1)))
            (repayEvents b ++
             opening env usr bs coll base (restFrom (k + 1)) (k + 1) totalNew)
            (unwinding env (restFrom (k + 1))) w w' t.

(** Either callback at step [k]. *)
Definition HandlerPost (k : Z) (b : BorrowData) (total : Z) (w : World)
    (t : Trace) (r : Result (unit * World)) : Prop :=
  Common (k + 1) t r /\
  forall w', r = Ok (tt, w') ->
    inMigration w = 1 /\ inMigration w' = 1 /\
    Settled (b :: restFrom (k + 1))
            (total + legOwed env b + owedSum env (restFrom (k + 1)))
            (repayEvents b ++ opening env usr bs coll base (restFrom (k + 1))
                                      (k + 1) (total + legOwed env b))
            (unwinding env (restFrom (k + 1))
             ++ [CallTransfer (legToken env b) (pool b) (legOwed env b)])
            w w' t.

End ChainOutcomes.

(** ** Concrete scenarios *)

Definition USER : address := 1.
Definition INTRUDER : address := 999.
Definition ME : address := 100.
Definition COMET : address := 200.
Definition CETH : address := 300.
Definition WETH : address := 400.
Definition SWEEPEE : address := 500.
Definition CUSDC : address := 10.
Definition USDC : address := 12.
Definition CDAI : address := 14.
Definition DAI : address := 15.
Definition CWBTC : address := 30.
Definition WBTC : address := 31.
Definition POOL1 : address := 20.
Definition POOL2 : address := 21.
Definition POOL3 : address := 22.
Definition OTHER : address := 13.

Definition underlyingOf (c : address) : address :=
  if c =? CUSDC then USDC else if c =? CDAI then DAI
  else if c =? CWBTC then WBTC else 0.

(** Pools 1 and 2 lend USDC (their token0) for a fee of 3 on 1000 and 2 on
    400; pool 3 trades DAI (token0) against USDC (token1) and asks 500 USDC
    for 1000 DAI.  Nothing refuses. *)
Definition envHonest : Env :=
  mkEnv ME COMET CETH WETH SWEEPEE underlyingOf
    (fun pl => if pl =? POOL3 then DAI else USDC)
    (fun pl => if pl =? POOL3 then USDC else OTHER)
    (fun _ a => if a =? 1000 then 3 else if a =? 400 then 2 else 0)
    (fun _ _ a => (a, 500))
    (fun _ _ _ => 0) (fun _ _ => 0) (fun _ a => a)
    (fun _ _ _ _ => true) (fun _ _ _ => true) (fun _ => true)
    (fun _ _ _ => true).

(** The same, but the USDC market refuses a repayment of 400 with code 7. *)
Definition envRefusing : Env :=
  mkEnv ME COMET CETH WETH SWEEPEE underlyingOf
    (fun pl => if pl =? POOL3 then DAI else USDC)
    (fun pl => if pl =? POOL3 then USDC else OTHER)
    (fun _ a => if a =? 1000 then 3 else if a =? 400 then 2 else 0)
    (fun _ _ a => (a, 500))
    (fun _ _ a => if a =? 400 then 7 else 0) (fun _ _ => 0) (fun _ a => a)
    (fun _ _ _ _ => true) (fun _ _ _ => true) (fun _ => true)
    (fun _ _ _ => true).

(** The user owes [debt] USDC and 1000 DAI and holds 500 cWBTC; the venues
    and the target protocol are liquid; the contract holds 7 stray units of
    another token. *)
Definition ledgerWith (debt : Z) : Ledger :=
  mkLedger
    (fun t h =>
       if (t =? USDC) && ((h =? POOL1) || (h =? POOL2)) then 5000
       else if (t =? DAI) && (h =? POOL3) then 5000
       else if (t =? USDC) && (h =? COMET) then 9000
       else if (t =? CWBTC) && (h =? USER) then 500
       else if (t =? OTHER) && (h =? ME) then 7
       else 0)
    (fun _ => 0)
    (fun c b =>
       if (c =? CUSDC) && (b =? USER) then debt
       else if (c =? CDAI) && (b =? USER) then 1000 else 0)
    (fun _ _ => 0).

Definition idleWorld (debt : Z) : World := mkWorld 0 (ledgerWith debt).

Definition loan (amt : Z) (pl : address) : BorrowData :=
  mkBorrowData CUSDC amt pl true.

(** Scenario A: one loan leg, one collateral item at its live balance. *)
Definition planA : list BorrowData := [loan 1000 POOL1].
Definition collateralA : list Collateral := [mkCollateral CWBTC MAX_UINT256].

(** Scenario B: two loan legs. *)
Definition planB : list BorrowData := [loan 1000 POOL1; loan 400 POOL2].

(** One swap leg: 1000 DAI of debt, paid for with USDC. *)
Definition planSwap : list BorrowData := [mkBorrowData CDAI 1000 POOL3 false].

(** Two legs on the same market, the second one at the sentinel. *)
Definition planSentinel : list BorrowData :=
  [loan 1000 POOL1; loan MAX_UINT256 POOL2].

(** The world a callback for the only leg of [plan] finds: the guard is
    engaged and the venue has paid out. *)
Definition dataFor (plan : list BorrowData) : MigrationCallbackData :=
  mkData USER plan [] USDC 0 0.
Definition midLoanWorld : World :=
  mkWorld 1 (move USDC POOL1 ME 1000 (ledgerWith 1000)).
Definition midSwapWorld : World :=
  mkWorld 1 (move DAI POOL3 ME 1000 (ledgerWith 1000)).

Definition runA := migrate envHonest USER collateralA planA USDC (idleWorld 1000).
Definition runB := migrate envHonest USER [] planB USDC (idleWorld 1400).
Definition runSwap := migrate envHonest USER [] planSwap USDC (idleWorld 0).
Definition runSentinel :=
  migrate envHonest USER [] planSentinel USDC (idleWorld 1400).
Definition runRefused :=
  migrate envRefusing USER [] planB USDC (idleWorld 1400).

Definition collateralTwice : list Collateral :=
  [mkCollateral CWBTC 300; mkCollateral CWBTC MAX_UINT256].

(** ** What else a run may be asked *)

(** The [Migrated] events of a log. *)
Definition selMigrated (ev : Event)
  : option (address * list Collateral * Z * Z) :=
  match ev with
  | EmitMigrated u c r b => Some (u, c, r, b)
  | _ => None
  end.

(** The amounts of the transfers [ts] that are in token [tk], added up. *)
Fixpoint paidIn (tk : address) (ts : list (address * address * Z)) : Z :=
  match ts with
  | [] => 0
  | (t, _, a) :: rest => (if t =? tk then a else 0) + paidIn tk rest
  end.

Section PassOutcomes.
Variable env : Env.

(** A pass leaves nothing of what it handled in the contract. *)
Definition ClearedBy (c : Collateral) (w w' : World) : Prop :=
  (forall tk, balanceOf (ledger w) tk (this env) = 0 \/
              tk = cToken c \/ tk = suppliedAsset env c ->
              balanceOf (ledger w') tk (this env) = 0) /\
  (nativeBalance (ledger w) (this env) = 0 \/ cToken c = cETH env ->
   nativeBalance (ledger w') (this env) = 0).

(** What a pass supplies: everything the contract holds of the asset. *)
Definition wholeBalance (account : address) (c : Collateral) (l : Ledger)
  : Z :=
  balanceOf l (suppliedAsset env c) (this env)
  + (if cToken c =? cETH env then nativeBalance l (this env) else 0)
  + redeemValue env (cToken c)
      (balanceOf l (cToken c) (this env) + liveAmount l account c).

End PassOutcomes.

(** ** What a migration moves *)

(** The cTokens handed over, amounts included. *)
Definition selPulled (ev : Event) : option (address * address * address * Z) :=
  match ev with
  | CallTransferFrom c s d a => Some (c, s, d, a)
  | _ => None
  end.

(** The supplies to the target protocol, amounts included. *)
Definition selSupplied (ev : Event) : option (address * address * Z) :=
  match ev with
  | CallSupplyTo d x a => Some (d, x, a)
  | _ => None
  end.

(** What the supplies [ss] added to [account]'s balance of [asset]. *)
Fixpoint suppliedTo (account asset : address)
    (ss : list (address * address * Z)) : Z :=
  match ss with
  | [] => 0
  | (d, x, a) :: rest =>
      (if (account =? d) && (asset =? x) then a else 0)
      + suppliedTo account asset rest
  end.

Section Moves.
Variable env : Env.

(** What [account] holds of each token on ledger [l]. *)
Definition heldBy (l : Ledger) (account : address) : address -> Z :=
  fun tk => balanceOf l tk account.

(** The amount item [c] asks of a user who holds [held]: the whole balance
    for the sentinel. *)
Definition pullOf (held : address -> Z) (c : Collateral) : Z :=
  if amount c =? MAX_UINT256 then held (cToken c) else amount c.

(** What the user holds once that amount is gone. *)
Definition heldAfter (held : address -> Z) (c : Collateral) : address -> Z :=
  upd1 held (cToken c) (held (cToken c) - pullOf held c).

(** The cTokens the items [cs] take in turn from a user who holds [held]. *)
Fixpoint pulls (account : address) (held : address -> Z)
    (cs : list Collateral) : list (address * address * address * Z) :=
  match cs with
  | [] => []
  | c :: rest =>
      (cToken c, account, this env, pullOf held c)
      :: pulls account (heldAfter held c) rest
  end.

(** What the user holds after all of them. *)
Fixpoint remaining (held : address -> Z) (cs : list Collateral)
  : address -> Z :=
  match cs with
  | [] => held
  | c :: rest => remaining (heldAfter held c) rest
  end.

(** What the source markets pay for these cTokens, item by item, supplied
    for the user. *)
Fixpoint supplies (account : address) (held : address -> Z)
    (cs : list Collateral) : list (address * address * Z) :=
  match cs with
  | [] => []
  | c :: rest =>
      (account, suppliedAsset env c,
       redeemValue env (cToken c) (pullOf held c))
      :: supplies account (heldAfter held c) rest
  end.

(** How much of [asset] that is. *)
Fixpoint reached (held : address -> Z) (cs : list Collateral)
    (asset : address) : Z :=
  match cs with
  | [] => 0
  | c :: rest =>
      (if suppliedAsset env c =? asset
       then redeemValue env (cToken c) (pullOf held c) else 0)
      + reached (heldAfter held c) rest asset
  end.

(** The user is none of the contracts a migration of [plan] talks to. *)
Definition Outsider (sender : address) (plan : list BorrowData) : Prop :=
  sender <> this env /\ sender <> comet env /\
  Forall (fun b => sender <> pool b /\ sender <> borrowCToken b) plan.

(** On ledger [l] the contract holds nothing of what the collateral items
    [cs] are or turn into. *)
Definition Unheld (cs : list Collateral) (l : Ledger) : Prop :=
  Forall (fun c => suppliedAsset env c <> cToken c /\
                   balanceOf l (cToken c) (this env) = 0 /\
                   balanceOf l (suppliedAsset env c) (this env) = 0 /\
                   (cToken c = cETH env -> nativeBalance l (this env) = 0))
         cs.

(** The ledgers a settlement finds: those of [l] once every leg of the plan
    is open and repaid. *)
Definition settlementLedger (sender : address) (coll : list Collateral)
    (plan : list BorrowData) (base : address) (l : Ledger) : Ledger :=
  let resolved := resolveAt l sender plan in
  replay env (opening env sender resolved coll base resolved 0 0) l.

End Moves.

(** Every successful run of [m] leaves the ledgers that its logged calls
    make of the ones it found. *)
Definition Replays (env : Env) {A : Type} (m : M A) : Prop :=
  forall w t a w', m w = (t, Ok (a, w')) -> ledger w' = replay env t (ledger w).

(** ** Further concrete scenarios *)

(** The same as [envHonest], but the cWBTC market refuses to redeem with
    code 9. *)
Definition envNoRedeem : Env :=
  mkEnv ME COMET CETH WETH SWEEPEE underlyingOf
    (fun pl => if pl =? POOL3 then DAI else USDC)
    (fun pl => if pl =? POOL3 then USDC else OTHER)
    (fun _ a => if a =? 1000 then 3 else if a =? 400 then 2 else 0)
    (fun _ _ a => (a, 500))
    (fun _ _ _ => 0) (fun c _ => if c =? CWBTC then 9 else 0) (fun _ a => a)
    (fun _ _ _ _ => true) (fun _ _ _ => true) (fun _ => true)
    (fun _ _ _ => true).

(** The contract holds 7 stray WBTC. *)
Definition strayWorld : World := mkWorld 1 (credit WBTC ME 7 (ledgerWith 0)).

(** The data of a settlement that moves 300 cWBTC and borrows 1003 USDC. *)
Definition settleData : MigrationCallbackData :=
  mkData USER planA [mkCollateral CWBTC 300] USDC 0 0.


(** Scenario A with the collateral asked for in two items. *)
Definition runTwice :=
  migrate envHonest USER collateralTwice planA USDC (idleWorld 1000).

(** The data of scenario A as an intruder would forge them: the only change
    is that the leg names the intruder as its venue. *)
Definition forgedData : MigrationCallbackData :=
  mkData USER [mkBorrowData CUSDC 1000 INTRUDER true] [] USDC 0 0.

(** The same for the swap leg of 1000 DAI. *)
Definition forgedSwapData : MigrationCallbackData :=
  mkData USER [mkBorrowData CDAI 1000 INTRUDER false] [] USDC 0 0.

(** * The front end

    The React component [AaveV2Migrator] of [src/web/AaveV2Migrator.tsx]:
    its state reducer, the position figures it derives on every render,
    and the form validation that decides what [migrate] is called with. *)

Module Web.

(** ** JavaScript values *)

(** A JavaScript [Map] with string keys: its entries in insertion order.
    [set] on a key that is present replaces the value where the key stands;
    on a new key it appends. *)
Definition JsMap (V : Type) : Type := list (string * V).

Section JsMaps.
Context {V : Type}.

Fixpoint mapGet (k : string) (m : JsMap V) : option V :=
  match m with
  | [] => None
  | (k', v) :: rest => if String.eqb k' k then Some v else mapGet k rest
  end.

Fixpoint mapSet (k : string) (v : V) (m : JsMap V) : JsMap V :=
  match m with
  | [] => [(k, v)]
  | (k', v') :: rest =>
      if String.eqb k' k then (k, v) :: rest else (k', v') :: mapSet k v rest
  end.

(** [new Map(entries)]. *)
Definition mapFromEntries (entries : list (string * V)) : JsMap V :=
  fold_left (fun m kv => mapSet (fst kv) (snd kv) m) entries [].

(** [Array.from(m)], [m.entries()]. *)
Definition mapEntries (m : JsMap V) : list (string * V) := m.

Definition mapKeys (m : JsMap V) : list string := map fst m.

End JsMaps.

(** BigInt division truncates toward zero. *)
Definition bigDiv (a b : Z) : Z := Z.quot a b.

(** What the component calls but this repository's sources do not contain:
    the helpers of [./helpers/numbers] and the number-to-BigInt conversion
    of the JavaScript runtime.  [undefined] and [null] are [None]. *)
Record Helpers : Type := mkHelpers {
  Number : Type;                                        (* a JS number *)
  maybeBigIntFromString : string -> Z -> option Z;      (* text, decimals *)
  parseNumber : string -> (Number -> Z) -> option Z;
  amountToWei : Number -> Z -> Z;
  formatTokenBalance : Z -> Z -> option bool -> option bool -> string;
  bigIntPow10 : Z -> Z                                  (* [BigInt(10 ** d)] *)
}.

Definition FACTOR_PRECISION : Z := 18.
Definition PRICE_PRECISION : Z := 8.

(** [BigInt(10 ** FACTOR_PRECISION)]: 10^18 is exact as a double. *)
Definition FACTOR_SCALE : Z := 10 ^ 18.

(** ** Data *)

Module AToken.
Record t : Type := mk {
  address : string;
  aTokenAddress : string;
  aTokenSymbol : string;
  decimals : Z;
  symbol : string
}.
End AToken.

(** [TokenWithAccountState] of the Comet extension: a collateral asset of
    the target protocol. *)
Module Asset.
Record t : Type := mk {
  address : string;
  balance : Z;
  collateralFactor : Z;
  decimals : Z;
  liquidateCollateralFactor : Z;
  price : Z;
  supplyCap : Z;
  symbol : string;
  totalSupply : Z
}.
End Asset.

(** [BaseAssetWithState]. *)
Module BaseAsset.
Record t : Type := mk {
  balance : Z;
  balanceOfComet : Z;
  decimals : Z;
  price : Z;
  symbol : string
}.
End BaseAsset.

Record CometData : Type := mkCometData {
  baseAsset : BaseAsset.t;
  collateralAssets : list Asset.t
}.

(** [interface Collateral]: what the form hands to [migrate]. *)
Module Collateral.
Record t : Type := mk {
  aToken : string;
  amount : Z
}.
End Collateral.

Section State.
(** A route of the Uniswap router; the component never looks inside. *)
Context {SwapRoute : Type}.

Inductive SwapRouteState : Type :=
| RouteUndefined
| RouteLoading
| RouteHydrated (route : SwapRoute).

(** [interface ATokenState]. *)
Record ATokenState : Type := mkATokenState {
  aToken : AToken.t;
  allowance : Z;
  allowanceStableDebtToken : Z;
  allowanceVariableDebtToken : Z;
  balance : Z;
  borrowBalanceStable : Z;
  borrowBalanceVariable : Z;
  collateralFactor : Z;
  price : Z;
  repayAmountStable : string;
  repayAmountVariable : string;
  transfer : string;
  swapRoute : SwapRouteState
}.

(** The object behind an [ATokenState] at run time.  The reducer builds
    objects by spreading, so a property may be absent ([None]), and one
    property, [repayAmount], is written although the interface does not
    declare it.  A [swapRoute] that is present may hold [undefined]. *)
Record TokenObject : Type := mkTokenObject {
  o_aToken : option AToken.t;
  o_allowance : option Z;
  o_allowanceStableDebtToken : option Z;
  o_allowanceVariableDebtToken : option Z;
  o_balance : option Z;
  o_borrowBalanceStable : option Z;
  o_borrowBalanceVariable : option Z;
  o_collateralFactor : option Z;
  o_price : option Z;
  o_repayAmountStable : option string;
  o_repayAmountVariable : option string;
  o_transfer : option string;
  o_swapRoute : option SwapRouteState;
  o_repayAmount : option string
}.

(** [{}], which is also what spreading [undefined] yields. *)
Definition emptyObject : TokenObject :=
  mkTokenObject None None None None None None None None None None None None
                None None.

(** [{...o}] for a possibly undefined [o]. *)
Definition spread (o : option TokenObject) : TokenObject :=
  match o with
  | Some x => x
  | None => emptyObject
  end.

(** [{...o, repayAmountStable: v}] and its like. *)
Definition withRepayAmountStable (v : string) (o : TokenObject) : TokenObject :=
  mkTokenObject (o_aToken o) (o_allowance o) (o_allowanceStableDebtToken o)
    (o_allowanceVariableDebtToken o) (o_balance o) (o_borrowBalanceStable o)
    (o_borrowBalanceVariable o) (o_collateralFactor o) (o_price o)
    (Some v) (o_repayAmountVariable o) (o_transfer o) (o_swapRoute o)
    (o_repayAmount o).

Definition withRepayAmountVariable (v : string) (o : TokenObject)
  : TokenObject :=
  mkTokenObject (o_aToken o) (o_allowance o) (o_allowanceStableDebtToken o)
    (o_allowanceVariableDebtToken o) (o_balance o) (o_borrowBalanceStable o)
    (o_borrowBalanceVariable o) (o_collateralFactor o) (o_price o)
    (o_repayAmountStable o) (Some v) (o_transfer o) (o_swapRoute o)
    (o_repayAmount o).

Definition withTransfer (v : string) (o : TokenObject) : TokenObject :=
  mkTokenObject (o_aToken o) (o_allowance o) (o_allowanceStableDebtToken o)
    (o_allowanceVariableDebtToken o) (o_balance o) (o_borrowBalanceStable o)
    (o_borrowBalanceVariable o) (o_collateralFactor o) (o_price o)
    (o_repayAmountStable o) (o_repayAmountVariable o) (Some v) (o_swapRoute o)
    (o_repayAmount o).

Definition withSwapRoute (v : SwapRouteState) (o : TokenObject) : TokenObject :=
  mkTokenObject (o_aToken o) (o_allowance o) (o_allowanceStableDebtToken o)
    (o_allowanceVariableDebtToken o) (o_balance o) (o_borrowBalanceStable o)
    (o_borrowBalanceVariable o) (o_collateralFactor o) (o_price o)
    (o_repayAmountStable o) (o_repayAmountVariable o) (o_transfer o) (Some v)
    (o_repayAmount o).

Definition withRepayAmount (v : string) (o : TokenObject) : TokenObject :=
  mkTokenObject (o_aToken o) (o_allowance o) (o_allowanceStableDebtToken o)
    (o_allowanceVariableDebtToken o) (o_balance o) (o_borrowBalanceStable o)
    (o_borrowBalanceVariable o) (o_collateralFactor o) (o_price o)
    (o_repayAmountStable o) (o_repayAmountVariable o) (o_transfer o)
    (o_swapRoute o) (Some v).

(** [{...o, repayAmount: '', transfer: ''}]; the empty string is
    [EmptyString]. *)
Definition clearedObject (o : TokenObject) : TokenObject :=
  withTransfer EmptyString (withRepayAmount EmptyString o).

(** The object of a well-typed [ATokenState]. *)
Definition objectOf (s : ATokenState) : TokenObject :=
  mkTokenObject (Some (aToken s)) (Some (allowance s))
    (Some (allowanceStableDebtToken s)) (Some (allowanceVariableDebtToken s))
    (Some (balance s)) (Some (borrowBalanceStable s))
    (Some (borrowBalanceVariable s)) (Some (collateralFactor s))
    (Some (price s)) (Some (repayAmountStable s))
    (Some (repayAmountVariable s)) (Some (transfer s)) (Some (swapRoute s))
    None.

(** An object read at the type the interface declares: every property
    must be there, except [swapRoute], whose type allows [undefined]. *)
Definition typed (o : TokenObject) : option ATokenState :=
  match o_aToken o, o_allowance o, o_allowanceStableDebtToken o,
        o_allowanceVariableDebtToken o, o_balance o, o_borrowBalanceStable o,
        o_borrowBalanceVariable o, o_collateralFactor o, o_price o,
        o_repayAmountStable o, o_repayAmountVariable o, o_transfer o with
  | Some a, Some b, Some c, Some d, Some e, Some f, Some g, Some h, Some i,
    Some j, Some k, Some l =>
      Some (mkATokenState a b c d e f g h i j k l
              match o_swapRoute o with
              | Some route => route
              | None => RouteUndefined
              end)
  | _, _, _, _, _, _, _, _, _, _, _, _ => None
  end.

(** ** The reducer *)

(** [MigratorState]: [{ type, data }]. *)
Inductive MigratorState : Type :=
| StateLoading (error : option string)
| StateHydrated (error : option string) (migratorEnabled : bool)
                (aTokens : JsMap TokenObject).

Inductive RepayType : Type := stable | variable.

Inductive Action : Type :=
| ClearRepayAndTransferAmounts
| SetAccountState (migratorEnabled : bool) (aTokens : JsMap TokenObject)
| SetError (error : string)
| SetRepayAmount (symbol : string) (type : RepayType) (repayAmount : string)
| SetSwapRoute (symbol : string) (swapRoute : SwapRouteState)
| SetTransferForAToken (symbol : string) (transfer : string).

(** The reducer answers a new state.  For [SetError] the new state shares
    its [data] object with the old one and the error is written into that
    object; the old state is not read again, so only the state returned is
    modelled. *)
Definition reducer (state : MigratorState) (action : Action) : MigratorState :=
  match action with
  | ClearRepayAndTransferAmounts =>
      match state with
      | StateHydrated _ enabled aTokens =>
          let aTokenCopy :=
            mapFromEntries
              (map (fun entry => (fst entry, clearedObject (snd entry)))
                   (mapEntries aTokens)) in
          StateHydrated None enabled aTokenCopy
      | _ => state
      end
  | SetAccountState enabled aTokens => StateHydrated None enabled aTokens
  | SetError error =>
      match state with
      | StateLoading _ => StateLoading (Some error)
      | StateHydrated _ enabled aTokens =>
          StateHydrated (Some error) enabled aTokens
      end
  | SetRepayAmount symbol type repayAmount =>
      match state with
      | StateHydrated _ enabled aTokens =>
          let aTokenCopy := mapFromEntries (mapEntries aTokens) in
          let current := spread (mapGet symbol aTokens) in
          StateHydrated None enabled
            (mapSet symbol
               match type with
               | stable => withRepayAmountStable repayAmount current
               | variable => withRepayAmountVariable repayAmount current
               end
               aTokenCopy)
      | _ => state
      end
  | SetSwapRoute symbol route =>
      match state with
      | StateHydrated _ enabled aTokens =>
          let aTokenCopy := mapFromEntries (mapEntries aTokens) in
          StateHydrated None enabled
            (mapSet symbol
               (withSwapRoute route (spread (mapGet symbol aTokens)))
               aTokenCopy)
      | _ => state
      end
  | SetTransferForAToken symbol transfer_ =>
      match state with
      | StateHydrated _ enabled aTokens =>
          let aTokenCopy := mapFromEntries (mapEntries aTokens) in
          StateHydrated None enabled
            (mapSet symbol
               (withTransfer transfer_ (spread (mapGet symbol aTokens)))
               aTokenCopy)
      | _ => state
      end
  end.

Definition initialState : MigratorState := StateLoading None.

(** ** Refreshing the account state

    The polling effect reads the chain through a multicall, rebuilds the
    map and dispatches [SetAccountState].  The answers, converted to
    BigInt, come as parallel arrays, one slot per configured aToken. *)
Record Fetched : Type := mkFetched {
  balances : list Z;
  allowances : list Z;
  allowancesStableDebtToken : list Z;
  allowancesVariableDebtToken : list Z;
  collateralFactors : list Z;
  borrowBalancesStableDebtToken : list Z;
  borrowBalancesVariableDebtToken : list Z;
  prices : list Z
}.

(** [maybeTokenState]: the entry the state holds for a symbol so far. *)
Definition maybeTokenState (state : MigratorState) (symbol : string)
  : option TokenObject :=
  match state with
  | StateLoading _ => None
  | StateHydrated _ _ aTokens => mapGet symbol aTokens
  end.

(** [maybeTokenState?.field ?? '']. *)
Definition textOr (o : option TokenObject)
    (field : TokenObject -> option string) : string :=
  match o with
  | Some x => match field x with Some v => v | None => EmptyString end
  | None => EmptyString
  end.

(** The entry built for the aToken in slot [index]; an array read past its
    end is [undefined]. *)
Definition tokenStateAt (state : MigratorState) (fetched : Fetched)
    (index : nat) (aToken_ : AToken.t) : string * TokenObject :=
  let previous := maybeTokenState state (AToken.aTokenSymbol aToken_) in
  (AToken.aTokenSymbol aToken_,
   mkTokenObject
     (Some aToken_)
     (nth_error (allowances fetched) index)
     (nth_error (allowancesStableDebtToken fetched) index)
     (nth_error (allowancesVariableDebtToken fetched) index)
     (nth_error (balances fetched) index)
     (nth_error (borrowBalancesStableDebtToken fetched) index)
     (nth_error (borrowBalancesVariableDebtToken fetched) index)
     (nth_error (collateralFactors fetched) index)
     (nth_error (prices fetched) index)
     (Some (textOr previous o_repayAmountStable))
     (Some (textOr previous o_repayAmountVariable))
     (Some (textOr previous o_transfer))
     (Some match previous with
           | Some x => match o_swapRoute x with
                       | Some route => route
                       | None => RouteUndefined
                       end
           | None => RouteUndefined
           end)
     None).

(** [networkConfig.aTokens.map((aToken, index) => ...)]. *)
Fixpoint mapWithIndex {X Y : Type} (f : nat -> X -> Y) (index : nat)
    (xs : list X) : list Y :=
  match xs with
  | [] => []
  | x :: rest => f index x :: mapWithIndex f (S index) rest
  end.

Definition tokenStates (state : MigratorState) (configured : list AToken.t)
    (fetched : Fetched) : JsMap TokenObject :=
  mapFromEntries (mapWithIndex (tokenStateAt state fetched) 0 configured).

(** The dispatch that ends the effect. *)
Definition refresh (state : MigratorState) (configured : list AToken.t)
    (migratorEnabled : bool) (fetched : Fetched) : MigratorState :=
  reducer state
    (SetAccountState migratorEnabled (tokenStates state configured fetched)).


(** ** The figures of a render

    Everything below is computed in the body of the component from the
    entries of [state.data.aTokens], read at their declared type, and from
    the state of the target protocol. *)

(** The entries of the map at their declared type, if every object has
    every declared property. *)
Fixpoint typedEntries (m : JsMap TokenObject)
  : option (list (string * ATokenState)) :=
  match m with
  | [] => Some []
  | (sym, o) :: rest =>
      match typed o, typedEntries rest with
      | Some s, Some rest' => Some ((sym, s) :: rest')
      | _, _ => None
      end
  end.

Section Render.
Variable h : Helpers.
Variable cometData : CometData.
Variable aTokens : list (string * ATokenState).

(** What the user entered for an amount of which [whole] is there:
    [text === 'max' ? whole : maybeBigIntFromString(text, decimals)]. *)
Definition entered (text : string) (whole decimals : Z) : option Z :=
  if String.eqb text "max" then Some whole
  else maybeBigIntFromString h text decimals.

(** [maybe === undefined ? 0n : maybe > whole ? whole : maybe]. *)
Definition capped (maybe : option Z) (whole : Z) : Z :=
  match maybe with
  | None => 0
  | Some v => if v >? whole then whole else v
  end.

Definition scale (s : ATokenState) : Z :=
  bigIntPow10 h (AToken.decimals (aToken s)).

Definition repayAmountStableBigInt (s : ATokenState) : Z :=
  capped (entered (repayAmountStable s) (borrowBalanceStable s)
                  (AToken.decimals (aToken s)))
         (borrowBalanceStable s).

Definition repayAmountVariableBigInt (s : ATokenState) : Z :=
  capped (entered (repayAmountVariable s) (borrowBalanceVariable s)
                  (AToken.decimals (aToken s)))
         (borrowBalanceVariable s).

Definition transferBigInt (s : ATokenState) : Z :=
  capped (entered (transfer s) (balance s) (AToken.decimals (aToken s)))
         (balance s).

(** [aTokens.reduce((acc, [, s]) => acc + f(s), BigInt(0))]. *)
Definition sumOver {X : Type} (f : X -> Z) (xs : list X) : Z :=
  fold_left (fun acc x => acc + f x) xs 0.

Definition v2BorrowValue : Z :=
  sumOver (fun e => let s := snd e in
     bigDiv ((borrowBalanceStable s + borrowBalanceVariable s
              - repayAmountStableBigInt s - repayAmountVariableBigInt s)
             * price s)
            (scale s)) aTokens.

Definition v2CollateralValue : Z :=
  sumOver (fun e => let s := snd e in
     bigDiv ((balance s - transferBigInt s) * price s) (scale s)) aTokens.

Definition v3Asset (s : ATokenState) : option Asset.t :=
  find (fun asset => String.eqb (Asset.address asset)
                                (AToken.address (aToken s)))
       (collateralAssets cometData).

Definition v2UnsupportedCollateralValue : Z :=
  sumOver (fun e => let s := snd e in
     let collateralBalance :=
       match v3Asset s with None => balance s | Some _ => 0 end in
     bigDiv (collateralBalance * price s) (scale s)) aTokens.

Definition v2BorrowCapacity : Z :=
  sumOver (fun e => let s := snd e in
     let dollarValue :=
       bigDiv ((balance s - transferBigInt s) * price s) (scale s) in
     bigDiv (dollarValue * collateralFactor s) FACTOR_SCALE) aTokens.

Definition v2AvailableToBorrow : Z := v2BorrowCapacity - v2BorrowValue.

Definition v2ToV3MigrateBorrowValue : Z :=
  sumOver (fun e => let s := snd e in
     let newBorrowAmount :=
       repayAmountStableBigInt s + repayAmountVariableBigInt s in
     bigDiv (newBorrowAmount * price s) (scale s)) aTokens.

Definition existinBorrowBalance : Z :=
  if BaseAsset.balance (baseAsset cometData) <? 0
  then - BaseAsset.balance (baseAsset cometData) else 0.

Definition existingBorrowValue : Z :=
  bigDiv (existinBorrowBalance * BaseAsset.price (baseAsset cometData))
         (bigIntPow10 h (BaseAsset.decimals (baseAsset cometData))).

Definition v3BorrowValue : Z := existingBorrowValue + v2ToV3MigrateBorrowValue.

Definition v2ToV3MigrateCollateralValue : Z :=
  sumOver (fun e => let s := snd e in
     bigDiv (transferBigInt s * price s) (scale s)) aTokens.

Definition v3CollateralValuePreMigrate : Z :=
  sumOver (fun a =>
     bigDiv (Asset.balance a * Asset.price a)
            (bigIntPow10 h (Asset.decimals a)))
    (collateralAssets cometData).

Definition v3CollateralValue : Z :=
  v2ToV3MigrateCollateralValue + v3CollateralValuePreMigrate.

(** The transfer entered for the aToken of a collateral asset of the
    target protocol, if the user has that aToken. *)
Definition transferInto (a : Asset.t) : Z :=
  match find (fun e => String.eqb (AToken.address (aToken (snd e)))
                                  (Asset.address a)) aTokens with
  | None => 0
  | Some e => transferBigInt (snd e)
  end.

Definition v3BorrowCapacityValue : Z :=
  sumOver (fun a =>
     let dollarValue :=
       bigDiv ((Asset.balance a + transferInto a) * Asset.price a)
              (bigIntPow10 h (Asset.decimals a)) in
     bigDiv (dollarValue * Asset.collateralFactor a) FACTOR_SCALE)
    (collateralAssets cometData).

Definition v3LiquidationCapacityValue : Z :=
  sumOver (fun a =>
     let dollarValue :=
       bigDiv ((Asset.balance a + transferInto a) * Asset.price a)
              (bigIntPow10 h (Asset.decimals a)) in
     bigDiv (dollarValue * Asset.liquidateCollateralFactor a) FACTOR_SCALE)
    (collateralAssets cometData).

Definition v3AvailableToBorrow : Z := v3BorrowCapacityValue - v3BorrowValue.

Definition hasMigratePosition : bool :=
  (v2ToV3MigrateBorrowValue >? 0) || (v2ToV3MigrateCollateralValue >? 0).

(** ** The collateral rows *)

(** The entries that get an input row under "Supplying". *)
Definition collateralWithBalances : list (string * ATokenState) :=
  filter (fun e => match v3Asset (snd e) with
                   | Some _ => balance (snd e) >? 0
                   | None => false
                   end) aTokens.

Definition supplyCapError (token : Asset.t) : string * string :=
  ("Supply cap exceeded.",
   "There is "
   ++ formatTokenBalance h (Asset.decimals token)
        (Asset.supplyCap token - Asset.totalSupply token) (Some false) None
   ++ " of " ++ Asset.symbol token ++ " capacity remaining.")%string.

(** The asset a row is checked against; the row looks it up by symbol. *)
Definition rowAsset (s : ATokenState) : option Asset.t :=
  find (fun asset => String.eqb (Asset.symbol asset)
                                (AToken.symbol (aToken s)))
       (collateralAssets cometData).

(** [errorTitle] and [errorDescription] of a collateral row, if the row
    shows an error. *)
Definition collateralRowError (s : ATokenState) : option (string * string) :=
  let collateralAsset := rowAsset s in
  if String.eqb (transfer s) "max"
  then
    match collateralAsset with
    | Some asset =>
        if balance s + Asset.totalSupply asset >? Asset.supplyCap asset
        then Some (supplyCapError asset) else None
    | None => None
    end
  else
    match maybeBigIntFromString h (transfer s) (AToken.decimals (aToken s)) with
    | None => None
    | Some maybeTransfer =>
        if maybeTransfer >? balance s
        then Some ("Amount Exceeds Balance.",
                   "Value must be less than or equal to "
                   ++ formatTokenBalance h (AToken.decimals (aToken s))
                        (balance s) (Some false) None)%string
        else
          match collateralAsset with
          | Some asset =>
              if maybeTransfer + Asset.totalSupply asset
                 >? Asset.supplyCap asset
              then Some (supplyCapError asset) else None
          | None => None
          end
    end.

(** ** Form validation *)

(** What [validateForm] answers: the arguments for [migrate], a message for
    the button, or [undefined]. *)
Inductive FormResult : Type :=
| FormParams (borrowAmount : Z) (collateral : list Collateral.t)
| FormMessage (message : string)
| FormUndefined.

(** The loop of [validateForm] over the entries of the map; [None] is the
    [return undefined] inside the loop. *)
Fixpoint collectCollateral (entries : list (string * ATokenState))
    (collateral : list Collateral.t) : option (list Collateral.t) :=
  match entries with
  | [] => Some collateral
  | (_, s) :: rest =>
      match v3Asset s with
      | None => collectCollateral rest collateral
      | Some collateralAsset =>
          if String.eqb (transfer s) "max"
          then
            if Asset.totalSupply collateralAsset + balance s
               >? Asset.supplyCap collateralAsset
            then None
            else collectCollateral rest
                   (collateral
                    ++ [Collateral.mk (AToken.aTokenAddress (aToken s))
                                      (balance s)])
          else
            match maybeBigIntFromString h (transfer s)
                                        (AToken.decimals (aToken s)) with
            | Some maybeTransfer =>
                if maybeTransfer >? balance s then None
                else if Asset.totalSupply collateralAsset + maybeTransfer
                        >? Asset.supplyCap collateralAsset
                then None
                else if maybeTransfer >? 0
                then collectCollateral rest
                       (collateral
                        ++ [Collateral.mk (AToken.aTokenAddress (aToken s))
                                          maybeTransfer])
                else collectCollateral rest collateral
            | None => None
            end
      end
  end.

Definition validateForm (migratorEnabled : bool) : FormResult :=
  if negb migratorEnabled then FormUndefined else
  match mapGet "aUSDC" aTokens with
  | None => FormUndefined
  | Some aUSDC =>
      let borrowAmount := borrowBalanceStable aUSDC in
      if borrowAmount =? 0 then FormUndefined else
      match parseNumber h (repayAmountStable aUSDC)
                        (fun n => amountToWei h n
                                    (AToken.decimals (aToken aUSDC))) with
      | None => FormUndefined
      | Some repayAmount =>
          let balanceOfComet :=
            BaseAsset.balanceOfComet (baseAsset cometData) in
          if (negb (repayAmount =? MAX_UINT256)
              && (repayAmount >? borrowAmount))
             || (negb (repayAmount =? MAX_UINT256)
                 && (repayAmount >? balanceOfComet))
             || ((repayAmount =? MAX_UINT256)
                 && (borrowAmount >? balanceOfComet))
          then FormUndefined else
          match collectCollateral aTokens [] with
          | None => FormUndefined
          | Some collateral =>
              if (v2BorrowValue >? v2BorrowCapacity)
                 || (v3BorrowValue >? v3BorrowCapacityValue)
              then FormMessage "Insufficient Collateral"
              else if negb hasMigratePosition then FormUndefined
              else FormParams repayAmount collateral
          end
      end
  end.

End Render.

(** [state.data.error ?? validateForm()], for a state the component renders
    in full: it is hydrated, its entries have their declared type, and the
    state of the target protocol is known. *)
Definition migrateParams (h : Helpers) (cometData : CometData)
    (state : MigratorState) : option FormResult :=
  match state with
  | StateLoading _ => None
  | StateHydrated error enabled m =>
      match typedEntries m with
      | None => None
      | Some aTokens =>
          Some match error with
               | Some message => FormMessage message
               | None => validateForm h cometData aTokens enabled
               end
      end
  end.

(** What the component's [migrate] passes to the contract binding, if it
    calls it at all. *)
Definition migrateCall (params : option FormResult)
  : option (list Collateral.t * Z) :=
  match params with
  | Some (FormParams borrowAmount collateral) => Some (collateral, borrowAmount)
  | _ => None
  end.

(** ** What the lemmas on the front end speak of *)

(** The symbol and the property that an input action writes. *)
Definition inputUpdate (a : Action)
  : option (string * (TokenObject -> TokenObject)) :=
  match a with
  | SetRepayAmount symbol stable v => Some (symbol, withRepayAmountStable v)
  | SetRepayAmount symbol variable v =>
      Some (symbol, withRepayAmountVariable v)
  | SetSwapRoute symbol route => Some (symbol, withSwapRoute route)
  | SetTransferForAToken symbol v => Some (symbol, withTransfer v)
  | _ => None
  end.

(** A map as [Map] keeps it, every object at its declared type. *)
Definition WellTyped (m : JsMap TokenObject) : Prop :=
  NoDup (mapKeys m) /\ typedEntries m <> None.

(** A state the component can render. *)
Definition Renderable (state : MigratorState) : Prop :=
  match state with
  | StateLoading _ => True
  | StateHydrated _ _ m => WellTyped m
  end.

(** An action as the component dispatches it: an input names a symbol
    taken from the map, and a refresh carries a well-typed map. *)
Definition Dispatchable (state : MigratorState) (a : Action) : Prop :=
  match a with
  | SetAccountState _ m => WellTyped m
  | SetRepayAmount symbol _ _ | SetSwapRoute symbol _
  | SetTransferForAToken symbol _ =>
      match state with
      | StateLoading _ => True
      | StateHydrated _ _ m => In symbol (mapKeys m)
      end
  | ClearRepayAndTransferAmounts | SetError _ => True
  end.

(** The value of all collateral and of all debt on the source protocol,
    whatever part of them the form moves. *)
Definition v2CollateralTotal (h : Helpers)
    (aTokens : list (string * ATokenState)) : Z :=
  sumOver (fun e => bigDiv (balance (snd e) * price (snd e))
                           (scale h (snd e))) aTokens.

Definition v2BorrowTotal (h : Helpers)
    (aTokens : list (string * ATokenState)) : Z :=
  sumOver (fun e => bigDiv ((borrowBalanceStable (snd e)
                             + borrowBalanceVariable (snd e))
                            * price (snd e))
                           (scale h (snd e))) aTokens.

(** Balances, debts and prices are not negative, amounts the helper reads
    from the inputs are not negative, and the scale of every token is
    positive. *)
Definition Sane (h : Helpers) (s : ATokenState) : Prop :=
  0 <= balance s /\ 0 <= borrowBalanceStable s /\
  0 <= borrowBalanceVariable s /\ 0 <= price s /\ 0 < scale h s /\
  forall text v,
    maybeBigIntFromString h text (AToken.decimals (aToken s)) = Some v ->
    0 <= v.

(** What one item of the collateral list owes to the entry [s] it was made
    from and to the asset [asset] of the target protocol. *)
Definition ItemWithin (h : Helpers) (s : ATokenState) (asset : Asset.t)
    (item : Collateral.t) : Prop :=
  Collateral.aToken item = AToken.aTokenAddress (aToken s) /\
  Collateral.amount item <= balance s /\
  Asset.totalSupply asset + Collateral.amount item <= Asset.supplyCap asset /\
  (transfer s = "max"%string /\ Collateral.amount item = balance s \/
   transfer s <> "max"%string /\ 0 < Collateral.amount item /\
   maybeBigIntFromString h (transfer s) (AToken.decimals (aToken s))
   = Some (Collateral.amount item)).

End State.

Arguments SwapRouteState : clear implicits.
Arguments ATokenState : clear implicits.
Arguments TokenObject : clear implicits.
Arguments MigratorState : clear implicits.
Arguments Action : clear implicits.

End Web.

(** ** A concrete form *)

(** Stand-ins for the helpers: they read a few inputs only. *)
Definition demoHelpers : Web.Helpers :=
  Web.mkHelpers Z
    (fun text d =>
       if String.eqb text "2" then Some (2 * 10 ^ d)
       else if String.eqb text "7" then Some (7 * 10 ^ d)
       else if String.eqb text "100" then Some (100 * 10 ^ d)
       else None)
    (fun text f =>
       if String.eqb text "max" then Some MAX_UINT256
       else if String.eqb text "100" then Some (f 100)
       else if String.eqb text "2" then Some (f 2)
       else None)
    (fun n d => n * 10 ^ d)
    (fun _ _ _ _ => EmptyString)
    (fun d => 10 ^ d).

Definition tokenUSDC : Web.AToken.t :=
  Web.AToken.mk "0xusdc" "0xausdc" "aUSDC" 6 "USDC".
Definition tokenWETH : Web.AToken.t :=
  Web.AToken.mk "0xweth" "0xaweth" "aWETH" 18 "WETH".

(** The user owes 100 USDC at the stable rate and enters [repay]. *)
Definition stateRepaying (repay : string) : Web.ATokenState unit :=
  Web.mkATokenState tokenUSDC 0 0 0 0 (100 * 10 ^ 6) 0 (8 * 10 ^ 17) (10 ^ 8)
    repay EmptyString EmptyString Web.RouteUndefined.

(** The user wants to repay it all. *)
Definition stateUSDC : Web.ATokenState unit := stateRepaying "100".

(** The user holds 5 WETH and moves what [transfer] says. *)
Definition stateWETH (transfer : string) : Web.ATokenState unit :=
  Web.mkATokenState tokenWETH 1 0 0 (5 * 10 ^ 18) 0 0 (8 * 10 ^ 17)
    (2000 * 10 ^ 8) EmptyString EmptyString transfer Web.RouteUndefined.

Definition demoMap (transfer : string) : Web.JsMap (Web.TokenObject unit) :=
  [("aUSDC"%string, Web.objectOf stateUSDC);
   ("aWETH"%string, Web.objectOf (stateWETH transfer))].

Definition demoState (transfer : string) : Web.MigratorState unit :=
  Web.StateHydrated None true (demoMap transfer).

Definition demoComet : Web.CometData :=
  Web.mkCometData
    (Web.BaseAsset.mk 0 (10 ^ 12) 6 (10 ^ 8) "USDC")
    [Web.Asset.mk "0xweth" 0 (8 * 10 ^ 17) 18 (85 * 10 ^ 16) (2000 * 10 ^ 8)
                  (10 ^ 21) "WETH" (10 ^ 20)].

Definition demoFetched : Web.Fetched :=
  Web.mkFetched [0; 5 * 10 ^ 18] [0; 1] [0; 0] [0; 0]
                [8 * 10 ^ 17; 8 * 10 ^ 17] [100 * 10 ^ 6; 0] [0; 0]
                [10 ^ 8; 2000 * 10 ^ 8].

(** * Reasoning about runs *)

(** [wp m Q w]: the run of [m] from [w] ends with a log and a result that
    satisfy [Q]. *)
Definition wp {A : Type} (m : M A)
    (Q : Trace -> Result (A * World) -> Prop) (w : World) : Prop :=
  Q (fst (m w)) (snd (m w)).

Section WpRules.
Context {A B : Type}.

Lemma wp_ret (a : A) Q w : Q [] (Ok (a, w)) -> wp (ret a) Q w.
Proof. exact (fun H => H). Qed.

Lemma wp_revert (e : Error) (Q : Trace -> Result (A * World) -> Prop) w :
  Q [] (Revert e) -> wp (revert e) Q w.
Proof. exact (fun H => H). Qed.

Lemma wp_bind (m : M A) (k : A -> M B) Q w :
  wp m (fun t1 r =>
          match r with
          | Ok (a, w1) => wp (k a) (fun t2 r2 => Q (t1 ++ t2) r2) w1
          | Revert e => Q t1 (Revert e)
          end) w ->
  wp (bind m k) Q w.
Proof.
  unfold wp, bind. destruct (m w) as [t1 [[a w1]|e]]; simpl; auto.
  destruct (k a w1) as [t2 r2]; simpl; auto.
Qed.

Lemma wp_call (ev : Event) (op : Ext A) Q w :
  match op (ledger w) with
  | Ok (a, l') => Q [ev] (Ok (a, mkWorld (inMigration w) l'))
  | Revert e => Q [ev] (Revert e)
  end ->
  wp (call ev op) Q w.
Proof. unfold wp, call; simpl. destruct (op (ledger w)) as [[a l']|e]; auto. Qed.

Lemma wp_view (f : Ledger -> A) Q w :
  Q [] (Ok (f (ledger w), w)) -> wp (view f) Q w.
Proof. exact (fun H => H). Qed.

Lemma wp_mono (m : M A) (Q Q' : Trace -> Result (A * World) -> Prop) w :
  wp m Q w -> (forall t r, Q t r -> Q' t r) -> wp m Q' w.
Proof. unfold wp; auto. Qed.

Lemma wp_index (xs : list A) (i : Z) Q w :
  (forall x, lookup xs i = Some x -> Q [] (Ok (x, w))) ->
  (lookup xs i = None -> Q [] (Revert (Panic PANIC_INDEX))) ->
  wp (index xs i) Q w.
Proof.
  unfold wp, index. destruct (lookup xs i); simpl; auto.
Qed.
End WpRules.

Lemma wp_emit (ev : Event) Q w : Q [ev] (Ok (tt, w)) -> wp (emit ev) Q w.
Proof. exact (fun H => H). Qed.

Lemma wp_read Q w : Q [] (Ok (inMigration w, w)) -> wp readInMigration Q w.
Proof. exact (fun H => H). Qed.

Lemma wp_write v Q w :
  Q [] (Ok (tt, mkWorld v (ledger w))) -> wp (writeInMigration v) Q w.
Proof. exact (fun H => H). Qed.

Lemma wp_checked_add bound a b Q w :
  (a + b <= bound -> Q [] (Ok (a + b, w))) ->
  (bound < a + b -> Q [] (Revert (Panic PANIC_ARITHMETIC))) ->
  wp (checked_add bound a b) Q w.
Proof.
  unfold wp, checked_add. destruct (Z.leb_spec (a + b) bound); simpl; auto.
Qed.

Lemma wp_checked_sub a b Q w :
  (b <= a -> Q [] (Ok (a - b, w))) ->
  (a < b -> Q [] (Revert (Panic PANIC_ARITHMETIC))) ->
  wp (checked_sub a b) Q w.
Proof.
  unfold wp, checked_sub. destruct (Z.leb_spec b a); simpl; auto.
Qed.

Lemma wp_checked_neg a Q w :
  (a <> MIN_INT256 -> Q [] (Ok (- a, w))) ->
  (a = MIN_INT256 -> Q [] (Revert (Panic PANIC_ARITHMETIC))) ->
  wp (checked_neg a) Q w.
Proof.
  unfold wp, checked_neg. destruct (Z.eqb_spec a MIN_INT256); simpl; auto.
Qed.

(** One step of symbolic execution. *)
Ltac wp_prim :=
  first [ apply wp_ret | apply wp_revert | apply wp_view | apply wp_emit
        | apply wp_read | apply wp_write ].

Ltac steppable m :=
  lazymatch m with
  | bind _ _ => idtac
  | (if _ then _ else _) => idtac
  | call _ _ => idtac
  | checked_add _ _ _ => idtac
  | checked_sub _ _ => idtac
  | checked_neg _ => idtac
  | index _ _ => idtac
  | ret _ => idtac
  | revert _ => idtac
  | view _ => idtac
  | emit _ => idtac
  | readInMigration => idtac
  | writeInMigration _ => idtac
  end.

Ltac wp_step :=
  lazymatch goal with
  | |- wp (bind ?m _) _ _ => steppable m; apply wp_bind
  | |- wp (if ?c then _ else _) _ _ => destruct c eqn:?
  | |- wp (call _ _) _ _ => apply wp_call
  | |- wp (checked_add _ _ _) _ _ => apply wp_checked_add; intros
  | |- wp (checked_sub _ _) _ _ => apply wp_checked_sub; intros
  | |- wp (checked_neg _) _ _ => apply wp_checked_neg; intros
  | |- wp (index _ _) _ _ => apply wp_index; intros
  | |- wp _ _ _ => wp_prim
  end.

(** ** Logs *)

Lemma collect_app {X : Type} (f : Event -> option X) (t1 t2 : Trace) :
  collect f (t1 ++ t2) = collect f t1 ++ collect f t2.
Proof.
  induction t1 as [|ev t1 IH]; simpl; [reflexivity|].
  destruct (f ev); simpl; now rewrite IH.
Qed.

Lemma scan_app bs account k t1 t2 :
  scan bs account k (t1 ++ t2) =
  match scan bs account k t1 with
  | Some j => scan bs account j t2
  | None => None
  end.
Proof.
  revert k. induction t1 as [|ev t1 IH]; intros k; simpl; [reflexivity|].
  destruct (scanEvent bs account k ev); auto.
Qed.

Arguments wp : simpl never.
Arguments flashLoanOrSwap : simpl never.

(** Boolean tests in the context, as propositions. *)
Ltac bools :=
  repeat match goal with
  | H : negb _ = true |- _ => apply negb_true_iff in H
  | H : negb _ = false |- _ => apply negb_false_iff in H
  | H : (_ =? _) = true |- _ => apply Z.eqb_eq in H
  | H : (_ =? _) = false |- _ => apply Z.eqb_neq in H
  | H : (_ <=? _) = true |- _ => apply Z.leb_le in H
  | H : (_ <=? _) = false |- _ => apply Z.leb_gt in H
  | H : (_ <? _) = true |- _ => apply Z.ltb_lt in H
  | H : (_ <? _) = false |- _ => apply Z.ltb_ge in H
  end.

(** Symbolic execution up to the first computation that is not primitive. *)
Ltac wp_go :=
  repeat (cbv beta iota; cbn [ledger inMigration fst snd];
    lazymatch goal with
    | |- wp _ _ _ => wp_step
    | |- match ?op with Ok _ => _ | Revert _ => _ end =>
        let E := fresh "E" in destruct op as [[? ?]|?] eqn:E
    end).

(** ** What the collaborators leave alone *)

Section Frames.
Variable env : Env.

Lemma ctoken_transferFrom_debt c s d a l r l' :
  ctoken_transferFrom env c s d a l = Ok (r, l') -> sameDebt l l'.
Proof.
  unfold ctoken_transferFrom.
  destruct (_ && _); intros H; inversion H; reflexivity.
Qed.

Lemma ctoken_redeem_debt c a l r l' :
  ctoken_redeem env c a l = Ok (r, l') -> sameDebt l l'.
Proof.
  unfold ctoken_redeem.
  destruct (negb _); [intros H; inversion H; reflexivity|].
  destruct (_ <? _); [discriminate|].
  destruct (c =? cETH env); intros H; inversion H; reflexivity.
Qed.

Lemma weth_deposit_debt v l r l' :
  weth_deposit env v l = Ok (r, l') -> sameDebt l l'.
Proof.
  unfold weth_deposit. destruct (_ <? _); intros H; inversion H; reflexivity.
Qed.

Lemma comet_supplyTo_debt d x a l r l' :
  comet_supplyTo env d x a l = Ok (r, l') -> sameDebt l l'.
Proof.
  unfold comet_supplyTo. destruct (_ <? _); intros H; inversion H; reflexivity.
Qed.

Lemma erc20_approve_same t s a l r l' :
  erc20_approve t s a l = Ok (r, l') -> l' = l.
Proof. unfold erc20_approve. intros H; inversion H; reflexivity. Qed.

End Frames.

(** Turn what is known of the collaborators' answers into what it says
    about the debts. *)
Ltac frame_facts :=
  repeat match goal with
  | E : ctoken_transferFrom _ _ _ _ _ _ = Ok _ |- _ =>
      apply ctoken_transferFrom_debt in E
  | E : ctoken_redeem _ _ _ _ = Ok _ |- _ => apply ctoken_redeem_debt in E
  | E : weth_deposit _ _ _ = Ok _ |- _ => apply weth_deposit_debt in E
  | E : comet_supplyTo _ _ _ _ _ = Ok _ |- _ => apply comet_supplyTo_debt in E
  | E : erc20_approve _ _ _ _ = Ok _ |- _ =>
      apply erc20_approve_same in E; subst
  end.

(** Case analysis on a collaborator's answer [E]. *)
Ltac op_unfold E :=
  unfold erc20_transfer, erc20_approve, native_send,
    ctoken_borrowBalanceCurrent, ctoken_repayBorrowBehalf,
    ctoken_transferFrom, ctoken_redeem, weth_deposit, comet_supplyTo,
    comet_withdrawFrom, pool_lend, pool_swap_out in E;
  repeat match type of E with
         | context [if ?c then _ else _] => destruct c eqn:?
         end;
  try discriminate E; inversion E; subst.

(** No collaborator raises [CallDepthExceeded]. *)
Ltac not_depth :=
  cbn [failure];
  match goal with
  | |- Some ?e <> Some CallDepthExceeded =>
      first [ discriminate
            | match goal with
              | E : _ = Revert e |- _ => op_unfold E; discriminate
              end ]
  | |- None <> _ => discriminate
  end.

Ltac norm_trace :=
  cbn [app collect selRepay selWithdraw selTransferFrom selSupply selTransfer
       selStep selRead map].

(** ** The settlement *)

Section Settlement.
Variable env : Env.

Lemma migrateOne_wp account c i w :
  wp (migrateOne env account c i) (OnePost env account c i w) w.
Proof.
  unfold migrateOne. wp_go.
  all: unfold OnePost, liveAmount; norm_trace;
    repeat match goal with
           | H : (amount _ =? MAX_UINT256) = _ |- _ => rewrite H
           end;
    (split; [|split; [|split; [|split]]]);
    try solve [repeat constructor | reflexivity | not_depth
              | eexists; reflexivity | intros ? ? ?; discriminate].
  all: intros i' w' Hw'; inversion Hw'; subst; clear Hw';
    cbn [inMigration ledger] in *; frame_facts; unfold sameDebt in *;
    repeat split; congruence.
Qed.

Lemma migrateCollateral_wp account cs : forall i w,
  wp (migrateCollateral env account cs i) (McPost env account cs w) w.
Proof.
  induction cs as [|c rest IH]; intros i w; cbn [migrateCollateral].
  - wp_go. unfold McPost, sameDebt; cbn.
    split; [constructor|split; [reflexivity|split; [discriminate|]]].
    intros w' H; inversion H; auto.
  - apply wp_bind. eapply wp_mono; [apply migrateOne_wp|].
    intros t [[i' w1]|e] (HF & HW & HD & _ & HS).
    + destruct (HS i' w1 eq_refl) as (_ & Hg & Hd & Ht & Hs).
      eapply wp_mono; [apply IH|].
      intros t2 r (HF2 & HW2 & HD2 & HS2). unfold McPost.
      rewrite !collect_app, HW, HW2, Ht, Hs.
      split; [apply Forall_app; auto|]. split; [reflexivity|].
      split; [assumption|].
      intros w' Hw'. destruct (HS2 w' Hw') as (Hg2 & Hd2 & Ht2 & Hs2).
      rewrite Ht2, Hs2. unfold sameDebt in *. cbn [map app].
      repeat split; congruence.
    + unfold McPost. split; [assumption|]. split; [assumption|].
      split; [assumption|]. intros ? ?; discriminate.
Qed.

Lemma comet_withdrawFrom_debt s d x a l r l' :
  comet_withdrawFrom env s d x a l = Ok (r, l') -> sameDebt l l'.
Proof.
  unfold comet_withdrawFrom. destruct (_ || _); intros H; inversion H; reflexivity.
Qed.

Lemma migrateCollateralAndBorrow_wp data total w :
  wp (migrateCollateralAndBorrow env data total) (SettlePost env data total w) w.
Proof.
  unfold migrateCollateralAndBorrow.
  apply wp_bind. eapply wp_mono; [apply migrateCollateral_wp|].
  intros t [[[] w1]|e] (HF & HW & HD & HS).
  - destruct (HS w1 eq_refl) as (Hg & Hd & Ht & Hs).
    wp_go; unfold SettlePost; (split; [|split]);
      try solve [ not_depth | intros ? ?; discriminate
                | apply Forall_app; split; [assumption|repeat constructor] ].
    intros w' Hw'; inversion Hw'; subst; clear Hw'.
    apply comet_withdrawFrom_debt in E.
    rewrite !collect_app, Ht, Hs, HW. cbn [inMigration ledger] in *.
    norm_trace. unfold sameDebt in *. rewrite !app_nil_r.
    repeat split; congruence.
  - unfold SettlePost. split; [assumption|split; [assumption|]].
    intros ? ?; discriminate.
Qed.
End Settlement.

(** ** The target protocol's books *)

Lemma cometDelta_app x y t1 t2 :
  cometDelta x y (t1 ++ t2) = cometDelta x y t1 + cometDelta x y t2.
Proof. induction t1 as [|ev t1 IH]; cbn [app cometDelta]; lia. Qed.

Lemma tracks_bind {A B} (m : M A) (k : A -> M B) :
  Tracks m -> (forall a, Tracks (k a)) -> Tracks (bind m k).
Proof.
  intros Hm Hk w t b w' H. unfold bind in H.
  destruct (m w) as [t1 [[a w1]|e]] eqn:E1; [|discriminate].
  destruct (k a w1) as [t2 r] eqn:E2. inversion H; subst.
  intros x y. rewrite cometDelta_app, (Hk _ _ _ _ _ E2), (Hm _ _ _ _ E1). lia.
Qed.

Lemma tracks_pure {A} (m : M A) :
  (forall w t a w', m w = (t, Ok (a, w')) -> t = [] /\ ledger w' = ledger w) ->
  Tracks m.
Proof.
  intros H w t a w' E. destruct (H _ _ _ _ E) as [-> Hl].
  intros x y. rewrite Hl. cbn. lia.
Qed.

Lemma tracks_ret {A} (a : A) : Tracks (ret a).
Proof. apply tracks_pure. intros w t a' w' H. inversion H; auto. Qed.

Lemma tracks_revert {A} e : Tracks (@revert A e).
Proof. intros w t a w' H. discriminate. Qed.

Lemma tracks_view {A} (f : Ledger -> A) : Tracks (view f).
Proof. apply tracks_pure. intros w t a' w' H. inversion H; auto. Qed.

Lemma tracks_read : Tracks readInMigration.
Proof. apply tracks_pure. intros w t a' w' H. inversion H; auto. Qed.

Lemma tracks_write v : Tracks (writeInMigration v).
Proof. apply tracks_pure. intros w t a' w' H. inversion H; auto. Qed.

Lemma tracks_checked_add bound a b : Tracks (checked_add bound a b).
Proof.
  unfold checked_add. destruct (_ <=? _); [apply tracks_ret|apply tracks_revert].
Qed.

Lemma tracks_checked_sub a b : Tracks (checked_sub a b).
Proof.
  unfold checked_sub. destruct (_ <=? _); [apply tracks_ret|apply tracks_revert].
Qed.

Lemma tracks_checked_neg a : Tracks (checked_neg a).
Proof.
  unfold checked_neg. destruct (_ =? _); [apply tracks_revert|apply tracks_ret].
Qed.

Lemma tracks_index {A} (xs : list A) i : Tracks (index xs i).
Proof.
  unfold index. destruct (lookup xs i); [apply tracks_ret|apply tracks_revert].
Qed.

Lemma tracks_emit ev :
  (forall x y, cometEffect x y ev = 0) -> Tracks (emit ev).
Proof.
  intros Hev w t a w' H. inversion H; subst. intros x y.
  cbn [cometDelta]. rewrite Hev. lia.
Qed.

Lemma tracks_call {A} ev (op : Ext A) :
  (forall l a l', op l = Ok (a, l') -> CometFollows [ev] l l') ->
  Tracks (call ev op).
Proof.
  intros Hop w t a w' H. unfold call in H.
  destruct (op (ledger w)) as [[a' l']|e] eqn:E; inversion H; subst.
  apply (Hop _ _ _ E).
Qed.

Lemma follows_quiet ev l l' :
  cometBalance l' = cometBalance l ->
  (forall x y, cometEffect x y ev = 0) ->
  CometFollows [ev] l l'.
Proof.
  intros Hl Hev x y. cbn [cometDelta]. rewrite Hl, Hev. lia.
Qed.

Section Books.
Variable env : Env.

Lemma comet_supplyTo_follows d x a l r l' :
  comet_supplyTo env d x a l = Ok (r, l') ->
  CometFollows [CallSupplyTo d x a] l l'.
Proof.
  unfold comet_supplyTo. destruct (_ <? _); [discriminate|].
  intros H; inversion H; subst. intros x' y'.
  cbn [cometBalance creditComet move credit debit setBalances cometDelta
       cometEffect]. unfold upd2.
  destruct (Z.eqb_spec x' d); destruct (Z.eqb_spec y' x); subst; cbn [andb]; lia.
Qed.

Lemma comet_withdrawFrom_follows s d x a l r l' :
  comet_withdrawFrom env s d x a l = Ok (r, l') ->
  CometFollows [CallWithdrawFrom s d x a] l l'.
Proof.
  unfold comet_withdrawFrom. destruct (_ || _); [discriminate|].
  intros H; inversion H; subst. intros x' y'.
  cbn [cometBalance creditComet move credit debit setBalances cometDelta
       cometEffect]. unfold upd2.
  destruct (Z.eqb_spec x' s); destruct (Z.eqb_spec y' x); subst; cbn [andb]; lia.
Qed.

Ltac tracks_step :=
  lazymatch goal with
  | |- Tracks (bind ?m _) => steppable m; apply tracks_bind; [|intros]
  | |- Tracks (if ?c then _ else _) => destruct c
  | |- Tracks (ret _) => apply tracks_ret
  | |- Tracks (revert _) => apply tracks_revert
  | |- Tracks (view _) => apply tracks_view
  | |- Tracks readInMigration => apply tracks_read
  | |- Tracks (writeInMigration _) => apply tracks_write
  | |- Tracks (checked_add _ _ _) => apply tracks_checked_add
  | |- Tracks (checked_sub _ _) => apply tracks_checked_sub
  | |- Tracks (checked_neg _) => apply tracks_checked_neg
  | |- Tracks (index _ _) => apply tracks_index
  | |- Tracks (emit _) => apply tracks_emit; reflexivity
  | |- Tracks (call _ (comet_supplyTo _ _ _ _)) =>
      apply tracks_call; intros ? ? ?; apply comet_supplyTo_follows
  | |- Tracks (call _ (comet_withdrawFrom _ _ _ _ _)) =>
      apply tracks_call; intros ? ? ?; apply comet_withdrawFrom_follows
  | |- Tracks (call _ _) =>
      let E := fresh "E" in
      apply tracks_call; intros ? ? ? E;
      apply follows_quiet; [op_unfold E; reflexivity|reflexivity]
  end.

Ltac tracks := cbv zeta; repeat (tracks_step; cbv zeta).

Lemma migrateOne_tracks account c i : Tracks (migrateOne env account c i).
Proof. unfold migrateOne. tracks. Qed.

Lemma migrateCollateral_tracks account cs :
  forall i, Tracks (migrateCollateral env account cs i).
Proof.
  induction cs as [|c rest IH]; intros i; cbn [migrateCollateral].
  - apply tracks_ret.
  - apply tracks_bind; [apply migrateOne_tracks|intros; apply IH].
Qed.

Lemma migrateCollateralAndBorrow_tracks data total :
  Tracks (migrateCollateralAndBorrow env data total).
Proof.
  unfold migrateCollateralAndBorrow.
  apply tracks_bind; [apply migrateCollateral_tracks|intros]. tracks.
Qed.

Lemma repayAndContinue_tracks (acquire : Acquire) data b total :
  (forall bs k d, Tracks (acquire bs k d)) ->
  Tracks (repayAndContinue env acquire data b total).
Proof.
  intros Hacq. unfold repayAndContinue. tracks.
  - apply migrateCollateralAndBorrow_tracks.
  - apply Hacq.
Qed.

Lemma flashCallback_tracks (acquire : Acquire) sender f0 f1 data :
  (forall bs k d, Tracks (acquire bs k d)) ->
  Tracks (uniswapV3FlashCallback env acquire sender f0 f1 data).
Proof.
  intros Hacq. unfold uniswapV3FlashCallback. tracks.
  apply tracks_bind; [now apply repayAndContinue_tracks|intros]. tracks.
Qed.

Lemma swapCallback_tracks (acquire : Acquire) sender d0 d1 data :
  (forall bs k d, Tracks (acquire bs k d)) ->
  Tracks (uniswapV3SwapCallback env acquire sender d0 d1 data).
Proof.
  intros Hacq. unfold uniswapV3SwapCallback. tracks.
  apply tracks_bind; [now apply repayAndContinue_tracks|intros]. tracks.
Qed.

Lemma flashLoanOrSwap_tracks depth :
  forall bs k d, Tracks (flashLoanOrSwap env depth bs k d).
Proof.
  induction depth as [|depth IH]; intros bs k d.
  - apply tracks_revert.
  - change (Tracks (flashLoanOrSwapVia env
                      (uniswapV3FlashCallback env (flashLoanOrSwap env depth))
                      (uniswapV3SwapCallback env (flashLoanOrSwap env depth))
                      bs k d)).
    unfold flashLoanOrSwapVia. tracks.
    + unfold pool_flash. tracks.
      apply tracks_bind; [now apply flashCallback_tracks|intros]. tracks.
    + unfold pool_swap. tracks.
      apply tracks_bind; [now apply swapCallback_tracks|intros]. tracks.
Qed.

Lemma resolveBorrowAmounts_tracks account bs :
  Tracks (resolveBorrowAmounts account bs).
Proof.
  induction bs as [|b rest IH]; cbn [resolveBorrowAmounts]; [apply tracks_ret|].
  tracks. apply tracks_bind; [apply IH|intros; apply tracks_ret].
Qed.

Lemma migrate_tracks sender coll plan base :
  Tracks (migrate env sender coll plan base).
Proof.
  unfold migrate. tracks.
  apply tracks_bind; [apply resolveBorrowAmounts_tracks|intros].
  apply tracks_bind; [apply flashLoanOrSwap_tracks|intros]. tracks.
Qed.
End Books.

Lemma cometDelta_withdrawn x y t :
  ~ In (x, y) (collect selSupply t) ->
  cometDelta x y t = - withdrawn x y (collect selWithdraw t).
Proof.
  induction t as [|ev t IH]; intros Hno; [reflexivity|].
  cbn [cometDelta].
  destruct ev; cbn [collect selSupply selWithdraw cometEffect withdrawn] in *;
    try (rewrite IH by assumption; lia).
  - (* a supply *)
    destruct (Z.eqb_spec x dst); destruct (Z.eqb_spec y asset); subst;
      cbn [andb]; try (rewrite IH by (intros H; apply Hno; now right); lia).
    exfalso. apply Hno. now left.
  - (* a withdrawal *)
    rewrite IH by assumption.
    destruct ((x =? src) && (y =? asset)); lia.
Qed.

(** ** The step chain *)

Lemma lookup_range {A} (xs : list A) k x :
  lookup xs k = Some x -> 0 <= k < lengthOf xs.
Proof.
  unfold lookup, lengthOf. destruct (Z.ltb_spec k 0) as [Hk|Hk]; [discriminate|].
  intros Hx. assert (Hn : nth_error xs (Z.to_nat k) <> None) by congruence.
  apply nth_error_Some in Hn. lia.
Qed.

Lemma lookup_none {A} (xs : list A) k :
  0 <= k -> lookup xs k = None -> lengthOf xs <= k.
Proof.
  unfold lookup, lengthOf. destruct (Z.ltb_spec k 0) as [Hk|Hk]; [lia|].
  intros _ Hx. apply nth_error_None in Hx. lia.
Qed.

Lemma lookup_skipn {A} (xs : list A) k x :
  lookup xs k = Some x ->
  skipn (Z.to_nat k) xs = x :: skipn (Z.to_nat (k + 1)) xs.
Proof.
  intros H. pose proof (lookup_range _ _ _ H) as Hr.
  unfold lookup in H. destruct (Z.ltb_spec k 0) as [Hk|Hk]; [lia|].
  replace (Z.to_nat (k + 1)) with (S (Z.to_nat k)) by lia.
  revert H. generalize (Z.to_nat k) as n. clear.
  induction xs as [|y ys IH]; intros [|n] H; simpl in *; try discriminate.
  - congruence.
  - now rewrite IH.
Qed.

Lemma skipn_past {A} (xs : list A) k :
  lengthOf xs <= k -> skipn (Z.to_nat k) xs = [].
Proof. unfold lengthOf. intros H. apply skipn_all2. lia. Qed.

Lemma after_ok {A} (op : Ext A) l a l' : op l = Ok (a, l') -> after op l = l'.
Proof. unfold after. now intros ->. Qed.

Lemma replay_app env t1 t2 l :
  replay env (t1 ++ t2) l = replay env t2 (replay env t1 l).
Proof. apply fold_left_app. Qed.

(** Settle a goal on the ledgers that the first calls of a leg leave, from
    the answers these calls gave. *)
Ltac replay_now :=
  cbn [ledger]; rewrite ?app_nil_r;
  unfold replay, repayEvents; cbn [fold_left effect app];
  unfold erc20_approve; cbv beta iota delta [after];
  repeat match goal with
         | E : ?op = Ok _ |- context [?op] => rewrite E
         end;
  reflexivity.

Section Chain.
Variable env : Env.
Variables (usr : address) (bs : list BorrowData) (coll : list Collateral)
          (base : address).

(** The outcome predicates at this user and plan. *)
Local Abbreviation dataHere := (dataAt usr bs coll base).
Local Abbreviation legsFrom := (restFrom bs).
Local Abbreviation repayOf := (repayEvents env usr).
Local Abbreviation common := (Common env usr bs).
Local Abbreviation settled := (Settled env usr coll base).
Local Abbreviation chainPost := (ChainPost env usr bs coll base).
Local Abbreviation continuePost := (RacPost env usr bs coll base).
Local Abbreviation handlerPost := (HandlerPost env usr bs coll base).

Lemma scan_settle t :
  Forall (fun ev => settleOnly ev = true) t ->
  scan bs usr (lengthOf bs) t = Some (lengthOf bs).
Proof.
  induction 1 as [|ev t Hev _ IH]; [reflexivity|].
  cbn [scan]. destruct ev; try discriminate; cbn [scanEvent];
    rewrite ?Z.eqb_refl; assumption.
Qed.

Lemma settle_no_repay t :
  Forall (fun ev => settleOnly ev = true) t -> collect selRepay t = [].
Proof.
  induction 1 as [|ev t Hev _ IH]; [reflexivity|].
  destruct ev; try discriminate; cbn [collect selRepay]; assumption.
Qed.

Lemma settle_no_read t :
  Forall (fun ev => settleOnly ev = true) t -> collect selRead t = [].
Proof.
  induction 1 as [|ev t Hev _ IH]; [reflexivity|].
  destruct ev; try discriminate; cbn [collect selRead]; assumption.
Qed.

Lemma scan_repay k b t :
  lookup bs k = Some b ->
  scan bs usr (k + 1)
       (CallRepayBorrowBehalf (borrowCToken b) usr (borrowAmount b) :: t)
  = scan bs usr (k + 1) t.
Proof.
  intros H. cbn [scan scanEvent].
  replace (k + 1 - 1) with k by lia. rewrite H, !Z.eqb_refl. reflexivity.
Qed.

Lemma scan_request k b data t :
  lookup bs k = Some b -> step data = k ->
  scan bs usr k (requestEvent env b data :: t) = scan bs usr (k + 1) t.
Proof.
  intros H Hs. unfold requestEvent.
  destruct (isFlashLoan b); cbn [scan scanEvent];
    rewrite H, Hs, !Z.eqb_refl; reflexivity.
Qed.

Lemma ctoken_repay_inv c u a l z l' :
  ctoken_repayBorrowBehalf env c u a l = Ok (z, l') ->
  z = repayCode env c u a /\
  (z = 0 -> forall c' a', borrowBalance l' c' a'
             = borrowBalance l c' a'
               - (if (c =? c') && (u =? a') then a else 0)).
Proof.
  unfold ctoken_repayBorrowBehalf.
  destruct (Z.eqb_spec (repayCode env c u a) 0) as [Hz|Hz]; cbn [negb].
  - destruct (_ || _); [discriminate|]. intros H; inversion H; subst.
    split; [congruence|]. intros _ c' a'. cbn [borrowBalance creditDebt].
    unfold upd2. rewrite (Z.eqb_sym c' c), (Z.eqb_sym a' u).
    destruct ((c =? c') && (u =? a')) eqn:E.
    + apply andb_prop in E. destruct E as [E1 E2].
      apply Z.eqb_eq in E1, E2. subst. cbn. lia.
    + cbn. lia.
  - intros H; inversion H; subst. split; [reflexivity|]. intros; contradiction.
Qed.

Lemma ctoken_repay_revert c u a l e :
  ctoken_repayBorrowBehalf env c u a l = Revert e -> repayCode env c u a = 0.
Proof.
  unfold ctoken_repayBorrowBehalf.
  destruct (Z.eqb_spec (repayCode env c u a) 0) as [Hz|Hz]; cbn [negb];
    [auto|discriminate].
Qed.

Lemma scan_approve k tk sp a t :
  scan bs usr k (CallApprove tk sp a :: t) = scan bs usr k t.
Proof. reflexivity. Qed.

Lemma scan_transfer tk d a t :
  scan bs usr (lengthOf bs) (CallTransfer tk d a :: t)
  = scan bs usr (lengthOf bs) t.
Proof. cbn [scan scanEvent]. now rewrite Z.eqb_refl. Qed.

Lemma wp_mono_eq {A} (m : M A) (Q Q' : Trace -> Result (A * World) -> Prop) w :
  wp m Q w -> (forall t r, m w = (t, r) -> Q t r -> Q' t r) -> wp m Q' w.
Proof. unfold wp. intros H HQ. apply HQ; [now destruct (m w)|exact H]. Qed.

(** The four facts every outcome satisfies, for a run that got as far as
    the repayment of leg [b] and stopped there. *)
Ltac common_stop Hb :=
  unfold Common; cbn [app];
  split; [eexists; split;
          [rewrite ?scan_approve, ?(scan_repay _ _ _ Hb); reflexivity
          |intros ? ?; discriminate]|];
  split; [not_depth|];
  split; [|reflexivity].

Lemma repayAndContinue_wp (acquire : Acquire) k b total totalNew w :
  lookup bs k = Some b ->
  (forall w1, k + 1 < lengthOf bs ->
     wp (acquire bs (k + 1) (dataHere totalNew (k + 1)))
        (chainPost (k + 1) totalNew w1) w1) ->
  wp (repayAndContinue env acquire (dataHere total k) b totalNew)
     (continuePost k b totalNew w) w.
Proof.
  intros Hb Hacq. pose proof (lookup_range _ _ _ Hb) as Hk.
  unfold repayAndContinue. cbn [user borrowData step collateral baseToken dataAt].
  wp_go; bools;
    try match goal with
        | E : erc20_approve _ _ _ _ = Ok _ |- _ =>
            apply erc20_approve_same in E; subst
        end;
    try match goal with
        | E : ctoken_repayBorrowBehalf _ _ _ _ _ = Ok _ |- _ =>
            destruct (ctoken_repay_inv _ _ _ _ _ _ E) as [Hz Hdebt]
        | E : ctoken_repayBorrowBehalf _ _ _ _ _ = Revert _ |- _ =>
            pose proof (ctoken_repay_revert _ _ _ _ _ E) as Hz
        end.
  - (* the source market refused *)
    split; [|intros ? ?; discriminate]. common_stop Hb.
    intros c u a [Heq|[]] Hne. inversion Heq; subst. reflexivity.
  - (* last leg: settle *)
    eapply wp_mono_eq; [apply migrateCollateralAndBorrow_wp|].
    intros t r Hrun (HF & HD & HS).
    assert (Hn : k + 1 = lengthOf bs) by lia.
    assert (Hrest : legsFrom (k + 1) = [])
      by (apply skipn_past; lia).
    split.
    + unfold Common; cbn [app]. rewrite scan_approve, (scan_repay _ _ _ Hb), Hn.
      split; [eexists; split; [apply scan_settle; assumption|reflexivity]|].
      split; [assumption|]. cbn [collect selRepay selRead].
      rewrite (settle_no_repay _ HF), (settle_no_read _ HF).
      split; [|reflexivity].
      intros c u a [Heq|[]] Hne. inversion Heq; subst. congruence.
    + intros w' Hw'. destruct (HS w' Hw') as (Hg & Hsame & _).
      cbn [inMigration ledger] in *. split; [assumption|].
      rewrite Hrest. cbn [owedSum opening unwinding].
      split.
      * intros c a. unfold sameDebt in Hsame. rewrite Hsame, Hdebt by congruence.
        cbn [repaidTo]. lia.
      * eexists (dataHere total k), _, w', t.
        rewrite Z.add_0_r, !app_nil_r. subst r.
        repeat split; eauto; replay_now.
  - (* more legs: open the next one *)
    eapply wp_mono; [apply Hacq; lia|].
    intros t r (HC & HS).
    destruct HC as ((j & Hj & Hjn) & HD & HR & HRd).
    split.
    + unfold Common; cbn [app]. rewrite scan_approve, (scan_repay _ _ _ Hb).
      split; [exists j; auto|]. split; [assumption|].
      cbn [collect selRepay selRead]. split; [|assumption].
      intros c u a [Heq|Hin] Hne; [inversion Heq; subst; congruence|auto].
    + intros w' Hw'. destruct (HS w' Hw') as (Hg1 & Hg2 & Hdebt' & Hex).
      cbn [inMigration ledger] in *. split; [congruence|].
      split.
      * intros c a. rewrite Hdebt', Hdebt by congruence. cbn [repaidTo]. lia.
      * destruct Hex as (dl & wm & wm' & ts & H1 & H2 & H3 & H4 & H5 & H6 & H7).
        exists dl, wm, wm', ts. repeat split; auto.
        -- rewrite H5. cbn [repayEvents app]. reflexivity.
        -- rewrite H6, replay_app. f_equal. replay_now.
  - (* step + 1 overflows *)
    split; [|intros ? ?; discriminate]. common_stop Hb.
    intros c u a [Heq|[]] Hne. inversion Heq; subst. congruence.
  - (* length - 1 underflows *)
    split; [|intros ? ?; discriminate]. common_stop Hb.
    intros c u a [Heq|[]] Hne. inversion Heq; subst. congruence.
  - (* the source market reverted *)
    split; [|intros ? ?; discriminate]. common_stop Hb.
    intros c u a [Heq|[]] Hne. inversion Heq; subst. congruence.
  - match goal with E : erc20_approve _ _ _ _ = Revert _ |- _ => discriminate E end.
Qed.

Lemma erc20_transfer_debt tk d a l r l' :
  erc20_transfer env tk d a l = Ok (r, l') -> sameDebt l l'.
Proof.
  unfold erc20_transfer. destruct (negb _); [intros H; inversion H; reflexivity|].
  destruct (_ <? _); intros H; inversion H; reflexivity.
Qed.

(** What is left of a callback once the leg's amount is known. *)
Lemma settle_leg_wp (acquire : Acquire) k b total owed tk w :
  lookup bs k = Some b ->
  owed = legOwed env b -> tk = legToken env b ->
  inMigration w = 1 ->
  (forall totalNew w1, k + 1 < lengthOf bs ->
     wp (acquire bs (k + 1) (dataHere totalNew (k + 1)))
        (chainPost (k + 1) totalNew w1) w1) ->
  wp (repayAndContinue env acquire (dataHere total k) b (total + owed) ;;
      call (CallTransfer tk (pool b) owed)
           (erc20_transfer env tk (pool b) owed) ;;
      ret tt)
     (handlerPost k b total w) w.
Proof.
  intros Hb -> -> Hg Hacq.
  apply wp_bind. eapply wp_mono; [apply repayAndContinue_wp; eauto|].
  intros t [[[] w1]|e] (HC & HS).
  - destruct (HS w1 eq_refl) as (Hg1 & Hdebt & Hex).
    destruct HC as ((j & Hj & Hjn) & HD & HR & HRd).
    specialize (Hjn w1 eq_refl). subst j.
    assert (HCt : forall r', failure r' <> Some CallDepthExceeded ->
              common (k + 1)
                (t ++ [CallTransfer (legToken env b) (pool b) (legOwed env b)]) r').
    { intros r' Hr'. unfold Common.
      rewrite scan_app, Hj, scan_transfer, !collect_app, HRd.
      split; [eexists; split; [reflexivity|reflexivity]|].
      split; [assumption|]. split; [|reflexivity].
      intros c u a Hin Hne. cbn [collect selRepay] in Hin.
      rewrite app_nil_r in Hin. specialize (HR c u a Hin Hne). discriminate. }
    wp_go; rewrite ?app_nil_r.
    + split; [apply HCt; discriminate|].
      intros w' Hw'; inversion Hw'; subst w'; clear Hw'.
      cbn [inMigration ledger]. split; [assumption|]. split; [congruence|].
      match goal with
      | E : erc20_transfer _ _ _ _ _ = Ok _ |- _ =>
          pose proof (after_ok _ _ _ _ E) as Hpaid;
          apply erc20_transfer_debt in E; unfold sameDebt in E
      end.
      split.
      * intros c a. cbn [ledger]. rewrite E. apply Hdebt.
      * destruct Hex as (dl & wm & wm' & ts & H1 & H2 & H3 & H4 & H5 & H6 & H7).
        exists dl, wm, wm', ts. repeat split; auto.
        -- rewrite H5, <- !app_assoc. reflexivity.
        -- cbn [ledger]. rewrite replay_app, <- H7. symmetry. exact Hpaid.
    + split; [apply HCt; not_depth|intros ? ?; discriminate].
  - split; [assumption|intros ? ?; discriminate].
Qed.

Lemma common_nothing k e :
  e <> CallDepthExceeded -> common k [] (Revert e).
Proof.
  intros He. unfold Common. cbn.
  split; [eexists; split; [reflexivity|intros ? ?; discriminate]|].
  split; [congruence|]. split; [intros ? ? ? []|reflexivity].
Qed.

Lemma flashCallback_wp (acquire : Acquire) k b total fee0 fee1 w :
  lookup bs k = Some b -> isFlashLoan b = true ->
  (if isPoolToken0 env b then fee0 else fee1) = legFee env b ->
  (forall totalNew w1, k + 1 < lengthOf bs ->
     wp (acquire bs (k + 1) (dataHere totalNew (k + 1)))
        (chainPost (k + 1) totalNew w1) w1) ->
  wp (uniswapV3FlashCallback env acquire (pool b) fee0 fee1 (dataHere total k))
     (handlerPost k b total w) w.
Proof.
  intros Hb Hfl Hfee Hacq.
  unfold uniswapV3FlashCallback. cbn [borrowData step dataAt totalBaseToBorrow].
  wp_go; bools;
    try match goal with
        | H : lookup bs k = Some ?x |- _ =>
            lazymatch x with
            | b => fail
            | _ => rewrite Hb in H; inversion H; subst x; clear H
            end
        end;
    try congruence;
    try solve [split; [apply common_nothing; discriminate
                      |intros ? ?; discriminate]].
  eapply settle_leg_wp; eauto.
  - unfold legOwed. rewrite Hfl, <- Hfee. reflexivity.
  - unfold legToken. now rewrite Hfl.
Qed.

Lemma swapCallback_wp (acquire : Acquire) k b total d0 d1 w :
  lookup bs k = Some b -> isFlashLoan b = false ->
  toUint256 (if isPoolToken0 env b then d1 else d0) = legQuote env b ->
  (forall totalNew w1, k + 1 < lengthOf bs ->
     wp (acquire bs (k + 1) (dataHere totalNew (k + 1)))
        (chainPost (k + 1) totalNew w1) w1) ->
  wp (uniswapV3SwapCallback env acquire (pool b) d0 d1 (dataHere total k))
     (handlerPost k b total w) w.
Proof.
  intros Hb Hfl Hq Hacq.
  unfold uniswapV3SwapCallback. cbn [borrowData step dataAt totalBaseToBorrow].
  wp_go; bools;
    try match goal with
        | H : lookup bs k = Some ?x |- _ =>
            lazymatch x with
            | b => fail
            | _ => rewrite Hb in H; inversion H; subst x; clear H
            end
        end;
    try congruence;
    try solve [split; [apply common_nothing; discriminate
                      |intros ? ?; discriminate]].
  eapply settle_leg_wp; eauto.
  - unfold legOwed. rewrite Hfl, <- Hq. reflexivity.
  - unfold legToken. now rewrite Hfl.
Qed.

Lemma pool_lend_debt pl rc a0 a1 l r l' :
  pool_lend env pl rc a0 a1 l = Ok (r, l') -> sameDebt l l'.
Proof.
  unfold pool_lend. destruct (_ || _); intros H; inversion H; reflexivity.
Qed.

Lemma pool_swap_out_debt pl rc z a0 a1 l r l' :
  pool_swap_out env pl rc z a0 a1 l = Ok (r, l') -> sameDebt l l'.
Proof.
  unfold pool_swap_out. destruct (_ <? _); intros H; inversion H; reflexivity.
Qed.

Lemma scan_flash k b rc a0 a1 data t :
  lookup bs k = Some b -> step data = k ->
  scan bs usr k (CallFlash (pool b) rc a0 a1 data :: t) = scan bs usr (k + 1) t.
Proof.
  intros H Hs. cbn [scan scanEvent]. now rewrite H, Hs, !Z.eqb_refl.
Qed.

Lemma scan_swap k b rc z a lim data t :
  lookup bs k = Some b -> step data = k ->
  scan bs usr k (CallSwap (pool b) rc z a lim data :: t) = scan bs usr (k + 1) t.
Proof.
  intros H Hs. cbn [scan scanEvent]. now rewrite H, Hs, !Z.eqb_refl.
Qed.

Lemma common_request k b total t r :
  lookup bs k = Some b ->
  common (k + 1) t r ->
  common k (requestEvent env b (dataHere total k) :: t) r.
Proof.
  intros Hb (Hs & HD & HR & HRd). unfold Common.
  rewrite (scan_request _ _ _ _ Hb) by reflexivity.
  assert (Hreq : forall X (f : Event -> option X),
            (forall pl rc a0 a1 d, f (CallFlash pl rc a0 a1 d) = None) ->
            (forall pl rc z a lim d, f (CallSwap pl rc z a lim d) = None) ->
            collect f (requestEvent env b (dataHere total k) :: t) = collect f t).
  { intros X f H1 H2. unfold requestEvent. cbn [collect].
    destruct (isFlashLoan b); [now rewrite H1|now rewrite H2]. }
  rewrite !Hreq by reflexivity. auto.
Qed.

Lemma common_fails_later k t w2 e :
  common k t (Ok (tt, w2)) -> e <> CallDepthExceeded ->
  common k t (Revert e).
Proof.
  intros ((j & Hj & _) & _ & HR & HRd) He. unfold Common.
  split; [exists j; split; [assumption|intros ? ?; discriminate]|].
  split; [cbn; congruence|]. split; [|assumption].
  intros c u a Hin Hne. specialize (HR c u a Hin Hne). discriminate.
Qed.

(** From the callback's outcome to the outcome of the liquidity request
    that triggered it. *)
Lemma request_done k b total w l1 t w2 :
  lookup bs k = Some b ->
  sameDebt (ledger w) l1 ->
  l1 = effect env (requestEvent env b (dataHere total k)) (ledger w) ->
  handlerPost k b total (mkWorld (inMigration w) l1) t (Ok (tt, w2)) ->
  chainPost k total w (requestEvent env b (dataHere total k) :: t) (Ok (tt, w2)).
Proof.
  intros Hb Hl Hreq (HC & HS). split; [now apply common_request|].
  intros w' Hw'; inversion Hw'; subst w'; clear Hw'.
  destruct (HS w2 eq_refl) as (Hg1 & Hg2 & Hdebt & Hex).
  cbn [inMigration ledger] in *.
  split; [assumption|]. split; [assumption|].
  assert (Hrest : legsFrom k = b :: legsFrom (k + 1))
    by (apply lookup_skipn; assumption).
  rewrite Hrest. cbn [owedSum opening unwinding].
  split.
  - intros c a. rewrite Hdebt. now rewrite Hl.
  - destruct Hex as (dl & wm & wm' & ts & H1 & H2 & H3 & H4 & H5 & H6 & H7).
    exists dl, wm, wm', ts.
    replace (total + (legOwed env b + owedSum env (legsFrom (k + 1))))
      with (total + legOwed env b + owedSum env (legsFrom (k + 1)))
      by lia.
    repeat split; auto.
    + rewrite H5. cbn [repayEvents app dataAt]. reflexivity.
    + rewrite H6, Hreq. reflexivity.
Qed.

Lemma requestEvent_flash b data :
  isFlashLoan b = true ->
  CallFlash (pool b) (this env)
    (if token0 env (pool b) =? underlying env (borrowCToken b)
     then borrowAmount b else 0)
    (if token0 env (pool b) =? underlying env (borrowCToken b)
     then 0 else borrowAmount b) data
  = requestEvent env b data.
Proof. intros H. unfold requestEvent, isPoolToken0. now rewrite H. Qed.

Lemma requestEvent_swap b data :
  isFlashLoan b = false ->
  CallSwap (pool b) (this env)
    (negb (token0 env (pool b) =? underlying env (borrowCToken b)))
    (- toInt256 (borrowAmount b))
    (if negb (token0 env (pool b) =? underlying env (borrowCToken b))
     then MIN_SQRT_RATIO + 1 else MAX_SQRT_RATIO - 1) data
  = requestEvent env b data.
Proof. intros H. unfold requestEvent, isPoolToken0. now rewrite H. Qed.

Lemma via_wp (acquire : Acquire) k total w :
  (forall totalNew w1, k + 1 < lengthOf bs ->
     wp (acquire bs (k + 1) (dataHere totalNew (k + 1)))
        (chainPost (k + 1) totalNew w1) w1) ->
  wp (flashLoanOrSwapVia env (uniswapV3FlashCallback env acquire)
                         (uniswapV3SwapCallback env acquire)
                         bs k (dataHere total k))
     (chainPost k total w) w.
Proof.
  intros Hacq. unfold flashLoanOrSwapVia.
  wp_go.
  - (* a loan *)
    rename x into b. unfold pool_flash. wp_go.
    + apply wp_bind. eapply wp_mono.
      { apply flashCallback_wp with (b := b); eauto.
        unfold legFee, isPoolToken0.
        destruct (token0 env (pool b) =? underlying env (borrowCToken b));
          reflexivity. }
      match goal with
      | E : pool_lend _ _ _ _ _ _ = Ok _ |- _ =>
          pose proof (after_ok _ _ _ _ E) as Hpaid; apply pool_lend_debt in E
      end.
      intros t [[[] w2]|e] HP.
      * wp_go; cbn [app]; rewrite ?app_nil_r, requestEvent_flash by assumption.
        -- apply request_done with (l1 := l); auto.
           rewrite <- (requestEvent_flash b) by assumption.
           symmetry. exact Hpaid.
        -- split; [|intros ? ?; discriminate].
           apply common_request; [assumption|].
           apply common_fails_later with (w2 := w2); [apply HP|discriminate].
      * cbn [app]. rewrite requestEvent_flash by assumption.
        split; [|intros ? ?; discriminate].
        apply common_request; [assumption|apply HP].
    + rewrite requestEvent_flash by assumption.
      split; [|intros ? ?; discriminate].
      apply common_request; [assumption|].
      unfold Common; cbn.
      split; [eexists; split; [reflexivity|intros ? ?; discriminate]|].
      split; [not_depth|]. split; [intros ? ? ? []|reflexivity].
  - (* a swap *)
    rename x into b. unfold pool_swap. wp_go.
    + apply wp_bind. eapply wp_mono.
      { apply swapCallback_wp with (b := b); eauto. }
      match goal with
      | E : pool_swap_out _ _ _ _ _ _ _ = Ok _ |- _ =>
          pose proof (after_ok _ _ _ _ E) as Hpaid;
          apply pool_swap_out_debt in E
      end.
      intros t [[[] w2]|e] HP.
      * wp_go; cbn [app]; rewrite ?app_nil_r, requestEvent_swap by assumption.
        -- apply request_done with (l1 := l); auto.
           rewrite <- (requestEvent_swap b) by assumption.
           symmetry. exact Hpaid.
        -- split; [|intros ? ?; discriminate].
           apply common_request; [assumption|].
           apply common_fails_later with (w2 := w2); [apply HP|discriminate].
      * cbn [app]. rewrite requestEvent_swap by assumption.
        split; [|intros ? ?; discriminate].
        apply common_request; [assumption|apply HP].
    + cbn [app]. rewrite requestEvent_swap by assumption.
      split; [|intros ? ?; discriminate].
      apply common_request; [assumption|].
      unfold Common; cbn.
      split; [eexists; split; [reflexivity|intros ? ?; discriminate]|].
      split; [not_depth|]. split; [intros ? ? ? []|reflexivity].
  - split; [apply common_nothing; discriminate|intros ? ?; discriminate].
  - split; [apply common_nothing; discriminate|intros ? ?; discriminate].
Qed.

Lemma chain_wp d : forall k total w,
  0 <= k -> (length bs <= Z.to_nat k + d)%nat ->
  wp (flashLoanOrSwap env (S d) bs k (dataHere total k)) (chainPost k total w) w.
Proof.
  induction d as [|d IH]; intros k total w Hk Hd;
    cbn [flashLoanOrSwap]; apply via_wp; intros totalNew w1 Hlt;
    unfold lengthOf in Hlt.
  - lia.
  - apply IH; lia.
Qed.
End Chain.

(** ** The entry point [migrate] *)

Section Migrate.
Variable env : Env.

Lemma world_eta w : mkWorld (inMigration w) (ledger w) = w.
Proof. now destruct w. Qed.

Lemma resolve_run account bd w :
  resolveBorrowAmounts account bd w
  = (sentinelReads account bd, Ok (resolveAt (ledger w) account bd, w)).
Proof.
  induction bd as [|b rest IH]; [reflexivity|].
  cbn [resolveBorrowAmounts sentinelReads resolveAt map].
  unfold bind. destruct (borrowAmount b =? MAX_UINT256).
  - unfold call, ctoken_borrowBalanceCurrent. rewrite world_eta, IH.
    cbn. now rewrite app_nil_r.
  - unfold ret at 1. rewrite IH. cbn. now rewrite app_nil_r.
Qed.

Lemma migrate_engaged sender coll plan base w :
  inMigration w <> 0 ->
  migrate env sender coll plan base w = ([], Revert (Reentrancy 0)).
Proof.
  intros H. unfold migrate, bind, readInMigration.
  apply Z.eqb_neq in H. now rewrite H.
Qed.

Lemma migrate_idle sender coll plan base w :
  inMigration w = 0 ->
  migrate env sender coll plan base w
  = (sentinelReads sender plan ++ fst (chainOf env sender coll plan base w),
     match snd (chainOf env sender coll plan base w) with
     | Ok (_, w') =>
         if 1 <=? inMigration w'
         then Ok (tt, mkWorld (inMigration w' - 1) (ledger w'))
         else Revert (Panic PANIC_ARITHMETIC)
     | Revert e => Revert e
     end).
Proof.
  intros H. unfold migrate, chainOf.
  unfold bind at 1. unfold readInMigration at 1. rewrite H. cbn [Z.eqb negb].
  unfold bind at 1. unfold readInMigration at 1. rewrite H.
  unfold bind at 1. unfold checked_add.
  change (0 + 1 <=? MAX_UINT256) with true. cbn iota. unfold ret at 1.
  unfold bind at 1. unfold writeInMigration at 1.
  unfold bind at 1. rewrite resolve_run. cbn [ledger].
  unfold bind at 1.
  destruct (flashLoanOrSwap _ _ _ _ _ _) as [t [[[] w']|e]]; cbn [fst snd].
  - unfold bind, readInMigration, checked_sub, writeInMigration, ret, revert.
    destruct (1 <=? inMigration w'); cbn [app]; now rewrite ?app_nil_r.
  - reflexivity.
Qed.

(** ** Logs of a successful chain *)

Lemma collect_request {X} (f : Event -> option X) b data t :
  (forall pl rc a0 a1 d, f (CallFlash pl rc a0 a1 d) = None) ->
  (forall pl rc z a lim d, f (CallSwap pl rc z a lim d) = None) ->
  collect f (requestEvent env b data :: t) = collect f t.
Proof.
  intros H1 H2. unfold requestEvent. cbn [collect].
  destruct (isFlashLoan b); [now rewrite H1|now rewrite H2].
Qed.

Lemma opening_repays account plan coll base rest : forall k total,
  collect selRepay (opening env account plan coll base rest k total)
  = map (fun b => (borrowCToken b, account, borrowAmount b)) rest.
Proof.
  induction rest as [|b rest IH]; intros k total; [reflexivity|].
  cbn [opening map]. rewrite collect_request by reflexivity.
  cbn [collect selRepay]. now rewrite IH.
Qed.

Lemma opening_steps account plan coll base rest : forall k total,
  collect selStep (opening env account plan coll base rest k total)
  = upFrom k (length rest).
Proof.
  induction rest as [|b rest IH]; intros k total; [reflexivity|].
  cbn [opening length upFrom]. unfold requestEvent.
  destruct (isFlashLoan b); cbn [collect selStep step]; now rewrite IH.
Qed.

Lemma opening_none {X} (f : Event -> option X) account plan coll base rest :
  (forall pl rc a0 a1 d, f (CallFlash pl rc a0 a1 d) = None) ->
  (forall pl rc z a lim d, f (CallSwap pl rc z a lim d) = None) ->
  (forall tk sp a, f (CallApprove tk sp a) = None) ->
  (forall c u a, f (CallRepayBorrowBehalf c u a) = None) ->
  forall k total,
  collect f (opening env account plan coll base rest k total) = [].
Proof.
  intros H1 H2 H3 H4.
  induction rest as [|b rest IH]; intros k total; [reflexivity|].
  cbn [opening]. rewrite collect_request by assumption.
  cbn [collect]. now rewrite H3, H4, IH.
Qed.

Lemma unwinding_none {X} (f : Event -> option X) rest :
  (forall tk d a, f (CallTransfer tk d a) = None) ->
  collect f (unwinding env rest) = [].
Proof.
  intros H. induction rest as [|b rest IH]; [reflexivity|].
  cbn [unwinding]. rewrite collect_app, IH. cbn [collect]. now rewrite H.
Qed.

Lemma unwinding_transfers rest :
  collect selTransfer (unwinding env rest)
  = rev (map (fun b => (legToken env b, pool b, legOwed env b)) rest).
Proof.
  induction rest as [|b rest IH]; [reflexivity|].
  cbn [unwinding map rev]. rewrite collect_app, IH. reflexivity.
Qed.

Lemma reads_none {X} (f : Event -> option X) account plan :
  (forall c u, f (CallBorrowBalanceCurrent c u) = None) ->
  collect f (sentinelReads account plan) = [].
Proof.
  intros H. induction plan as [|b rest IH]; [reflexivity|].
  cbn [sentinelReads]. rewrite collect_app, IH.
  destruct (_ =? _); cbn [collect]; now rewrite ?H.
Qed.

Lemma settle_none {X} (f : Event -> option X) t :
  (forall ev, settleOnly ev = true -> f ev = None) ->
  Forall (fun ev => settleOnly ev = true) t -> collect f t = [].
Proof.
  intros H. induction 1 as [|ev t Hev _ IH]; [reflexivity|].
  cbn [collect]. now rewrite (H ev Hev).
Qed.

Lemma resolveAt_length l account plan :
  length (resolveAt l account plan) = length plan.
Proof. apply length_map. Qed.

(** Everything the chain lemma says about [migrate]'s own chain. *)
Lemma chainOf_post sender coll plan base w :
  ChainPost env sender (resolveAt (ledger w) sender plan) coll base 0 0
            (mkWorld 1 (ledger w))
            (fst (chainOf env sender coll plan base w))
            (snd (chainOf env sender coll plan base w)).
Proof.
  unfold chainOf.
  apply (chain_wp env sender (resolveAt (ledger w) sender plan) coll base
                  (length (resolveAt (ledger w) sender plan)) 0 0
                  (mkWorld 1 (ledger w))); [lia|].
  cbn. lia.
Qed.
End Migrate.

Section MigrateClaims.
Variable env : Env.

(** What a successful [migrate] did, in full. *)
Lemma migrate_success sender coll plan base w w' :
  snd (migrate env sender coll plan base w) = Ok (tt, w') ->
  let resolved := resolveAt (ledger w) sender plan in
  inMigration w = 0 /\ inMigration w' = 0 /\
  (forall c a, borrowBalance (ledger w') c a
               = borrowBalance (ledger w) c a - repaidTo sender resolved c a) /\
  exists dataLast wm wm' ts,
    user dataLast = sender /\ collateral dataLast = coll /\
    baseToken dataLast = base /\
    migrateCollateralAndBorrow env dataLast (owedSum env resolved) wm
      = (ts, Ok (tt, wm')) /\
    fst (migrate env sender coll plan base w)
      = sentinelReads sender plan
        ++ opening env sender resolved coll base resolved 0 0
        ++ ts ++ unwinding env resolved.
Proof.
  intros H resolved.
  destruct (Z.eq_dec (inMigration w) 0) as [Hg|Hg];
    [|rewrite (migrate_engaged env _ _ _ _ _ Hg) in H; discriminate].
  rewrite (migrate_idle env _ _ _ _ _ Hg) in H |- *. cbn [fst snd] in *.
  pose proof (chainOf_post env sender coll plan base w) as [_ HS].
  destruct (snd (chainOf env sender coll plan base w)) as [[[] w1]|e];
    [|discriminate].
  destruct (HS w1 eq_refl) as (_ & Hg1 & Hdebt & Hex).
  rewrite Hg1 in H. cbn in H. inversion H; subst w'; clear H.
  unfold restFrom in *. cbn [Z.to_nat skipn ledger inMigration] in *.
  fold resolved in Hdebt, Hex.
  split; [assumption|]. split; [reflexivity|]. split; [assumption|].
  destruct Hex as (dl & wm & wm' & ts & H1 & H2 & H3 & H4 & H5 & _).
  exists dl, wm, wm', ts. rewrite H5. cbn [Z.add] in H4. auto 10.
Qed.

(** Where the settlement of a successful [migrate] starts and what follows
    it: the calls that open the legs make its ledgers, and the transfers
    back to the venues make the final ledgers of the ones it leaves. *)
Lemma migrate_settlement sender coll plan base w w' :
  snd (migrate env sender coll plan base w) = Ok (tt, w') ->
  let resolved := resolveAt (ledger w) sender plan in
  exists dataLast wm wm' ts,
    user dataLast = sender /\ collateral dataLast = coll /\
    baseToken dataLast = base /\
    migrateCollateralAndBorrow env dataLast (owedSum env resolved) wm
      = (ts, Ok (tt, wm')) /\
    fst (migrate env sender coll plan base w)
      = sentinelReads sender plan
        ++ opening env sender resolved coll base resolved 0 0
        ++ ts ++ unwinding env resolved /\
    ledger wm
      = replay env (opening env sender resolved coll base resolved 0 0)
               (ledger w) /\
    ledger w' = replay env (unwinding env resolved) (ledger wm').
Proof.
  intros H resolved.
  destruct (Z.eq_dec (inMigration w) 0) as [Hg|Hg];
    [|rewrite (migrate_engaged env _ _ _ _ _ Hg) in H; discriminate].
  rewrite (migrate_idle env _ _ _ _ _ Hg) in H |- *. cbn [fst snd] in *.
  pose proof (chainOf_post env sender coll plan base w) as [_ HS].
  destruct (snd (chainOf env sender coll plan base w)) as [[[] w1]|e];
    [|discriminate].
  destruct (HS w1 eq_refl) as (_ & Hg1 & _ & Hex).
  rewrite Hg1 in H. cbn in H. inversion H; subst w'; clear H.
  unfold restFrom in *. cbn [Z.to_nat skipn ledger inMigration] in *.
  fold resolved in Hex.
  destruct Hex as (dl & wm & wm' & ts & H1 & H2 & H3 & H4 & H5 & H6 & H7).
  exists dl, wm, wm', ts. rewrite H5. cbn [Z.add] in H4. auto 10.
Qed.

(** The bound on nested callbacks that [migrate] sets is never the reason
    for a failure. *)
Lemma migrate_depth_suffices sender coll plan base w :
  failure (snd (migrate env sender coll plan base w))
  <> Some CallDepthExceeded.
Proof.
  destruct (Z.eq_dec (inMigration w) 0) as [Hg|Hg];
    [|rewrite (migrate_engaged env _ _ _ _ _ Hg); discriminate].
  rewrite (migrate_idle env _ _ _ _ _ Hg). cbn [snd].
  pose proof (chainOf_post env sender coll plan base w) as [(_ & HD & _) _].
  destruct (snd (chainOf env sender coll plan base w)) as [[[] w1]|e];
    [|exact HD].
  destruct (1 <=? inMigration w1); discriminate.
Qed.

(** ** Guard discipline (C2) *)

Lemma flashCallback_idle (acquire : Acquire) sender fee0 fee1 data w :
  inMigration w <> 1 ->
  uniswapV3FlashCallback env acquire sender fee0 fee1 data w
  = ([], Revert (Reentrancy 1)).
Proof.
  intros H. unfold uniswapV3FlashCallback, bind, readInMigration.
  apply Z.eqb_neq in H. now rewrite H.
Qed.

Lemma swapCallback_idle (acquire : Acquire) sender d0 d1 data w :
  inMigration w <> 1 ->
  uniswapV3SwapCallback env acquire sender d0 d1 data w
  = ([], Revert (Reentrancy 1)).
Proof.
  intros H. unfold uniswapV3SwapCallback, bind, readInMigration.
  apply Z.eqb_neq in H. now rewrite H.
Qed.

Lemma migrate_keeps_idle sender coll plan base w :
  inMigration w = 0 ->
  inMigration (commit (migrate env sender coll plan base) w) = 0.
Proof.
  intros Hg. unfold commit.
  destruct (snd (migrate env sender coll plan base w)) as [[[] w']|e] eqn:Hrun;
    [|assumption].
  now destruct (migrate_success _ _ _ _ _ _ Hrun) as (_ & H & _).
Qed.

Lemma sweep_keeps_guard token w :
  inMigration (commit (sweep env token) w) = inMigration w.
Proof.
  unfold commit, sweep, bind, readInMigration, view, call, ret, revert.
  destruct (negb (inMigration w =? 0)); [reflexivity|].
  destruct (token =? 0); cbn [fst snd].
  - destruct (native_send _ _ _ _) as [[[] l]|e]; reflexivity.
  - destruct (erc20_transfer _ _ _ _ _) as [[[] l]|e]; reflexivity.
Qed.

Lemma reachable_idle w : Reachable env w -> inMigration w = 0.
Proof.
  induction 1 as [l|w tx _ IH|w l _ IH]; [reflexivity| |assumption].
  destruct tx as [sender coll plan base|sender f0 f1 data|sender d0 d1 data|tk];
    cbn [runTx].
  - now apply migrate_keeps_idle.
  - unfold commit. rewrite flashCallback_idle by lia. assumption.
  - unfold commit. rewrite swapCallback_idle by lia. assumption.
  - now rewrite sweep_keeps_guard.
Qed.

(** C2 (guard discipline).  Between transactions the guard is zero; a call
    to [migrate] that finds it zero leaves it zero, whether it succeeds or
    reverts; a call that finds it nonzero reverts with [Reentrancy(0)]
    before it makes any external call, and changes nothing. *)
Theorem guard_discipline sender coll plan base w :
  (Reachable env w -> inMigration w = 0) /\
  (inMigration w = 0 ->
     inMigration (commit (migrate env sender coll plan base) w) = 0) /\
  (inMigration w <> 0 ->
     migrate env sender coll plan base w = ([], Revert (Reentrancy 0)) /\
     commit (migrate env sender coll plan base) w = w).
Proof.
  split; [apply reachable_idle|]. split; [apply migrate_keeps_idle|].
  intros H. split; [now apply migrate_engaged|].
  unfold commit. now rewrite migrate_engaged.
Qed.

(** ** Settlement total (C3) *)

Lemma loans_owed bs :
  Forall (fun b => isFlashLoan b = true) bs ->
  owedSum env bs = feeInclusiveSum env bs.
Proof.
  induction 1 as [|b rest Hb _ IH]; [reflexivity|].
  cbn [owedSum feeInclusiveSum]. unfold legOwed. now rewrite Hb, IH.
Qed.

(** C3, as amended (settlement total).  After a successful migration the
    one amount borrowed from the target protocol is the sum, over the borrow
    steps, of what each step's venue is owed: for a loan step the resolved
    repay amount plus the venue's fee on it, for a swap step the input
    amount the venue quotes.  For a plan of loans only this is the sum of
    (resolved repay amount + fee). *)
Theorem settlement_total sender coll plan base w w' :
  snd (migrate env sender coll plan base w) = Ok (tt, w') ->
  let resolved := resolveAt (ledger w) sender plan in
  collect selWithdraw (fst (migrate env sender coll plan base w))
    = [(sender, this env, base, owedSum env resolved)] /\
  (forall b, legOwed env b
             = if isFlashLoan b
               then borrowAmount b + flashFee env (pool b) (borrowAmount b)
               else legQuote env b) /\
  (Forall (fun b => isFlashLoan b = true) resolved ->
   owedSum env resolved = feeInclusiveSum env resolved).
Proof.
  intros Hrun resolved. split; [|split].
  - pose proof (migrate_success _ _ _ _ _ _ Hrun)
      as (_ & _ & _ & dl & wm & wm' & ts & H1 & H2 & H3 & H4 & H5).
    fold resolved in H4, H5.
    pose proof (migrateCollateralAndBorrow_wp env dl (owedSum env resolved) wm)
      as HP. unfold wp in HP. rewrite H4 in HP. cbn [fst snd] in HP.
    destruct HP as (_ & _ & HS).
    destruct (HS wm' eq_refl) as (_ & _ & _ & _ & Hw).
    rewrite H1, H3 in Hw. rewrite H5, !collect_app, Hw.
    rewrite reads_none, opening_none, unwinding_none by reflexivity.
    reflexivity.
  - reflexivity.
  - apply loans_owed.
Qed.

(** ** Refusal by a source market (C7) *)

(** C7, as amended (source-market refusal).  If, anywhere in the step
    chain of a [migrate], the source market answers a repayment with a
    nonzero code, the whole call reverts with [CompoundV2Error(0, code)]:
    the location is 0 whatever the step. *)
Theorem source_market_refusal sender coll plan base w c u a :
  In (c, u, a)
     (collect selRepay (fst (migrate env sender coll plan base w))) ->
  repayCode env c u a <> 0 ->
  snd (migrate env sender coll plan base w)
  = Revert (CompoundV2Error 0 (repayCode env c u a)).
Proof.
  intros Hin Hne.
  destruct (Z.eq_dec (inMigration w) 0) as [Hg|Hg];
    [|rewrite (migrate_engaged env _ _ _ _ _ Hg) in Hin; destruct Hin].
  rewrite (migrate_idle env _ _ _ _ _ Hg) in Hin |- *. cbn [fst snd] in *.
  rewrite collect_app, reads_none in Hin by reflexivity. cbn [app] in Hin.
  pose proof (chainOf_post env sender coll plan base w)
    as [(_ & _ & HR & _) _].
  specialize (HR c u a Hin Hne).
  destruct (snd (chainOf env sender coll plan base w)) as [[[] w1]|e];
    [discriminate|].
  cbn in HR. congruence.
Qed.

(** ** The empty plan (C10) *)

(** C10 (empty plan).  A [migrate] whose plan has no borrow step always
    reverts, and before it makes any external call: on the guard if that is
    engaged, else on the out-of-bounds read of step 0. *)
Theorem empty_plan_fails sender coll base w :
  migrate env sender coll [] base w
  = ([], Revert (if inMigration w =? 0
                 then Panic PANIC_INDEX else Reentrancy 0)).
Proof.
  destruct (Z.eqb_spec (inMigration w) 0) as [Hg|Hg].
  - rewrite (migrate_idle env _ _ _ _ _ Hg). reflexivity.
  - now apply migrate_engaged.
Qed.

(** ** Plan order (C8) *)

Lemma upFrom_app k m1 m2 :
  upFrom k (m1 + m2) = upFrom k m1 ++ upFrom (k + Z.of_nat m1) m2.
Proof.
  revert k. induction m1 as [|m1 IH]; intros k.
  - cbn. now rewrite Z.add_0_r.
  - cbn [Nat.add upFrom app]. rewrite IH. do 3 f_equal. lia.
Qed.

Lemma scanEvent_step bs account k ev j :
  scanEvent bs account k ev = Some j ->
  (j = k /\ selStep ev = None) \/
  (j = k + 1 /\ selStep ev = Some k /\ 0 <= k < lengthOf bs).
Proof.
  intros H.
  destruct ev; cbn [scanEvent selStep] in *;
    repeat match type of H with
           | context [match ?x with _ => _ end] => destruct x eqn:?
           end;
    try discriminate; inversion H; subst; clear H;
    try (left; split; reflexivity).
  all: right;
    match goal with
    | Hb : lookup _ _ = Some _, Hc : (_ && _) = true |- _ =>
        apply andb_prop in Hc; destruct Hc as [Hc _];
        apply Z.eqb_eq in Hc; pose proof (lookup_range _ _ _ Hb)
    end; repeat split; try congruence; lia.
Qed.

Lemma scan_steps bs account t : forall k j,
  scan bs account k t = Some j ->
  exists m, j = k + Z.of_nat m /\ collect selStep t = upFrom k m /\
            (0 <= k <= lengthOf bs -> j <= lengthOf bs).
Proof.
  induction t as [|ev t IH]; intros k j H; cbn [scan] in H.
  - inversion H; subst. exists O. cbn. repeat split; lia.
  - destruct (scanEvent bs account k ev) as [k'|] eqn:He; [|discriminate].
    destruct (IH _ _ H) as (m & Hj & Hs & Hb).
    destruct (scanEvent_step _ _ _ _ _ He) as [[-> Hn]|(-> & Hst & Hk)].
    + exists m. cbn [collect]. rewrite Hn. auto.
    + exists (S m). cbn [collect upFrom]. rewrite Hst, Hs.
      repeat split; lia.
Qed.

Lemma scan_settlement bs account k t1 ev t2 j :
  scan bs account k (t1 ++ ev :: t2) = Some j ->
  isSettlement ev = true ->
  scan bs account k t1 = Some (lengthOf bs).
Proof.
  rewrite scan_app. destruct (scan bs account k t1) as [j1|]; [|discriminate].
  cbn [scan]. intros H Hev.
  destruct ev; try discriminate; cbn [scanEvent] in H;
    destruct (Z.eqb_spec j1 (lengthOf bs)); (discriminate || congruence).
Qed.

Lemma reads_not_settlement account plan ev :
  In ev (sentinelReads account plan) -> isSettlement ev = false.
Proof.
  induction plan as [|b rest IH]; [intros []|].
  cbn [sentinelReads]. rewrite in_app_iff. intros [H|H]; [|auto].
  destruct (_ =? _); [|destruct H].
  destruct H as [<-|[]]. reflexivity.
Qed.

(** C8 (plan order).  In every run of [migrate], successful or not, the
    liquidity requests carry the step indices 0, 1, 2, ... in this order,
    none beyond the plan's last; a successful run requests every step; and
    no call of the settlement is made before the last step was requested.
    A successful run is, in full: the debt reads, then for each step in plan
    order its liquidity request and its repayment, then the settlement,
    then the transfers back to the venues, last venue first. *)
Theorem steps_in_plan_order sender coll plan base w :
  let t := fst (migrate env sender coll plan base w) in
  let resolved := resolveAt (ledger w) sender plan in
  (exists m, (m <= length plan)%nat /\
             collect selStep t = upFrom 0 m /\
             (forall w', snd (migrate env sender coll plan base w)
                         = Ok (tt, w') -> m = length plan)) /\
  (forall t1 ev t2, t = t1 ++ ev :: t2 -> isSettlement ev = true ->
                    collect selStep t1 = upFrom 0 (length plan)) /\
  (forall w', snd (migrate env sender coll plan base w) = Ok (tt, w') ->
     exists ts,
       Forall (fun ev => settleOnly ev = true) ts /\
       t = sentinelReads sender plan
           ++ opening env sender resolved coll base resolved 0 0
           ++ ts ++ unwinding env resolved).
Proof.
  intros t resolved0. subst t.
  assert (Hfull : forall w',
            snd (migrate env sender coll plan base w) = Ok (tt, w') ->
            exists ts,
              Forall (fun ev => settleOnly ev = true) ts /\
              fst (migrate env sender coll plan base w)
              = sentinelReads sender plan
                ++ opening env sender resolved0 coll base resolved0 0 0
                ++ ts ++ unwinding env resolved0).
  { intros w' Hrun.
    destruct (migrate_success _ _ _ _ _ _ Hrun)
      as (_ & _ & _ & dl & wm & wm' & ts & _ & _ & _ & H4 & H5).
    exists ts. split; [|exact H5].
    pose proof (migrateCollateralAndBorrow_wp env dl
                  (owedSum env (resolveAt (ledger w) sender plan)) wm) as HP.
    unfold wp in HP. rewrite H4 in HP. apply HP. }
  cut ((exists m, (m <= length plan)%nat /\
          collect selStep (fst (migrate env sender coll plan base w))
          = upFrom 0 m /\
          (forall w', snd (migrate env sender coll plan base w)
                      = Ok (tt, w') -> m = length plan)) /\
       (forall t1 ev t2,
          fst (migrate env sender coll plan base w) = t1 ++ ev :: t2 ->
          isSettlement ev = true ->
          collect selStep t1 = upFrom 0 (length plan)));
    [intros [H1 H2]; auto|].
  clear Hfull resolved0.
  destruct (Z.eq_dec (inMigration w) 0) as [Hg|Hg].
  2:{ rewrite (migrate_engaged env _ _ _ _ _ Hg). cbn [fst snd]. split.
      - exists O. repeat split; [lia|]. intros ? ?; discriminate.
      - intros [|? ?] ? ? ?; discriminate. }
  rewrite (migrate_idle env _ _ _ _ _ Hg). cbn [fst snd].
  pose proof (chainOf_post env sender coll plan base w)
    as [((j & Hj & Hjn) & _) _].
  set (resolved := resolveAt (ledger w) sender plan) in *.
  assert (Hlen : lengthOf resolved = Z.of_nat (length plan))
    by (unfold lengthOf, resolved; now rewrite resolveAt_length).
  destruct (scan_steps _ _ _ _ _ Hj) as (m & Hm & Hs & Hb).
  split.
  - exists m. rewrite collect_app, reads_none, Hs by reflexivity.
    split; [lia|]. split; [reflexivity|].
    intros w' Hw'.
    destruct (snd (chainOf env sender coll plan base w)) as [[[] w1]|e];
      [|discriminate].
    specialize (Hjn w1 eq_refl). lia.
  - intros t1 ev t2 Heq Hev.
    symmetry in Heq. apply app_eq_app in Heq.
    destruct Heq as (l & [[Ht1 Hc]|[Hr Hc]]).
    + (* the call lies in the chain's log *)
      subst t1. rewrite !collect_app, reads_none by reflexivity. cbn [app].
      rewrite Hc in Hj.
      pose proof (scan_settlement _ _ _ _ _ _ _ Hj Hev) as Hpre.
      destruct (scan_steps _ _ _ _ _ Hpre) as (m1 & Hm1 & Hs1 & _).
      rewrite Hs1. f_equal. lia.
    + destruct l as [|ev' l].
      * (* it is the chain's first call *)
        cbn [app] in Hc. rewrite app_nil_r in Hr. subst t1.
        rewrite reads_none by reflexivity.
        rewrite <- Hc in Hj.
        pose proof (scan_settlement _ _ _ [] _ _ _ Hj Hev) as Hpre.
        cbn [scan] in Hpre. inversion Hpre as [Hn].
        assert (Hz : length plan = O) by lia. now rewrite Hz.
      * (* it cannot be one of the debt reads *)
        exfalso. cbn [app] in Hc. inversion Hc; subst ev'.
        assert (Hin : In ev (sentinelReads sender plan))
          by (rewrite Hr; apply in_or_app; right; now left).
        rewrite (reads_not_settlement _ _ _ Hin) in Hev. discriminate.
Qed.
End MigrateClaims.

Lemma wp_any {A} (m : M A) (Q : Trace -> Result (A * World) -> Prop) w :
  (forall t r, Q t r) -> wp m Q w.
Proof. unfold wp; auto. Qed.

Section EntryPoints.
Variable env : Env.

(** ** The caller check of the callbacks *)

(** What the caller check does: it compares the caller with the venue
    named, for the current step, in the data that this same caller hands
    in.  A caller that differs from it is turned away before any external
    call, with the check's error when the guard is engaged and with
    [Reentrancy(1)], raised first, when it is not.  The contract itself
    keeps no record of the venue it asked. *)
Lemma callback_authorization (acquire : Acquire) sender x y data b w :
  lookup (borrowData data) (step data) = Some b ->
  sender <> pool b ->
  let e := if inMigration w =? 1 then UnauthorizedCallback else Reentrancy 1 in
  uniswapV3FlashCallback env acquire sender x y data w = ([], Revert e) /\
  uniswapV3SwapCallback env acquire sender x y data w = ([], Revert e) /\
  commit (uniswapV3FlashCallback env acquire sender x y data) w = w /\
  commit (uniswapV3SwapCallback env acquire sender x y data) w = w.
Proof.
  intros Hb Hs e.
  assert (Hf : uniswapV3FlashCallback env acquire sender x y data w
               = ([], Revert e)).
  { unfold uniswapV3FlashCallback, bind, readInMigration, index, e.
    destruct (inMigration w =? 1); [|reflexivity]. cbn [negb].
    rewrite Hb. unfold ret at 1. apply Z.eqb_neq in Hs. now rewrite Hs. }
  assert (Hw : uniswapV3SwapCallback env acquire sender x y data w
               = ([], Revert e)).
  { unfold uniswapV3SwapCallback, bind, readInMigration, index, e.
    destruct (inMigration w =? 1); [|reflexivity]. cbn [negb].
    rewrite Hb. unfold ret at 1. apply Z.eqb_neq in Hs. now rewrite Hs. }
  unfold commit. rewrite Hf, Hw. auto.
Qed.

(** ** What a venue is paid (C6) *)

Lemma pay_back_wp (m : M unit) sender data b tokenOf owedOf w :
  lookup (borrowData data) (step data) = Some b ->
  sender = pool b ->
  wp (m ;;
      call (CallTransfer (tokenOf b) (pool b) (owedOf b))
           (erc20_transfer env (tokenOf b) (pool b) (owedOf b)) ;;
      ret tt)
     (PaidBack env sender data tokenOf owedOf) w.
Proof.
  intros Hb ->. apply wp_bind. apply wp_any. intros t [[[] w1]|e];
    [|intros ? ?; discriminate].
  wp_go; intros w' Hw'; inversion Hw'; subst w'; clear Hw'.
  exists b, t. rewrite app_nil_r. repeat split; auto.
  intros Hok. cbn [ledger].
  match goal with
  | E : erc20_transfer _ _ _ _ _ = Ok _ |- _ =>
      unfold erc20_transfer in E; rewrite Hok in E; cbn [negb] in E;
      destruct (_ <? _); [discriminate|]; inversion E; eauto
  end.
Qed.

(** C6, as amended (what a venue is paid).  Whenever a callback returns,
    whether it settled or opened a further leg, its last external call is
    the transfer to the calling venue of this leg's amount alone: for the
    loan callback the step's resolved repay amount plus the fee for the
    borrowed token, for the swap callback the amount the venue asked for in
    the pair's other token.  The running total does not enter. *)
Theorem venue_is_paid_its_leg (acquire : Acquire) sender x y data w w' :
  (snd (uniswapV3FlashCallback env acquire sender x y data w) = Ok (tt, w') ->
   exists b pre,
     lookup (borrowData data) (step data) = Some b /\ sender = pool b /\
     fst (uniswapV3FlashCallback env acquire sender x y data w)
     = pre ++ [CallTransfer (underlying env (borrowCToken b)) sender
                 (borrowAmount b + (if isPoolToken0 env b then x else y))] /\
     (transferSucceeds env (underlying env (borrowCToken b)) sender
        (borrowAmount b + (if isPoolToken0 env b then x else y)) = true ->
      exists l, ledger w'
                = move (underlying env (borrowCToken b)) (this env) sender
                       (borrowAmount b + (if isPoolToken0 env b then x else y))
                       l)) /\
  (snd (uniswapV3SwapCallback env acquire sender x y data w) = Ok (tt, w') ->
   exists b pre,
     lookup (borrowData data) (step data) = Some b /\ sender = pool b /\
     fst (uniswapV3SwapCallback env acquire sender x y data w)
     = pre ++ [CallTransfer (if isPoolToken0 env b then token1 env (pool b)
                             else token0 env (pool b)) sender
                 (toUint256 (if isPoolToken0 env b then y else x))] /\
     (transferSucceeds env (if isPoolToken0 env b then token1 env (pool b)
                            else token0 env (pool b)) sender
        (toUint256 (if isPoolToken0 env b then y else x)) = true ->
      exists l, ledger w'
                = move (if isPoolToken0 env b then token1 env (pool b)
                        else token0 env (pool b)) (this env) sender
                       (toUint256 (if isPoolToken0 env b then y else x)) l)).
Proof.
  split.
  - assert (H : wp (uniswapV3FlashCallback env acquire sender x y data)
                   (PaidBack env sender data
                      (fun b => underlying env (borrowCToken b))
                      (fun b => borrowAmount b
                                + (if isPoolToken0 env b then x else y))) w).
    { unfold uniswapV3FlashCallback. wp_go; bools;
        try (intros ? ?; discriminate).
      apply (pay_back_wp _ sender data x0
               (fun b => underlying env (borrowCToken b))
               (fun b => borrowAmount b
                         + (if isPoolToken0 env b then x else y)));
        assumption. }
    intros Hrun. exact (H w' Hrun).
  - assert (H : wp (uniswapV3SwapCallback env acquire sender x y data)
                   (PaidBack env sender data
                      (fun b => if isPoolToken0 env b
                                then token1 env (pool b)
                                else token0 env (pool b))
                      (fun b => toUint256
                                  (if isPoolToken0 env b then y else x))) w).
    { unfold uniswapV3SwapCallback. wp_go; bools;
        try (intros ? ?; discriminate).
      apply (pay_back_wp _ sender data x0
               (fun b => if isPoolToken0 env b
                         then token1 env (pool b) else token0 env (pool b))
               (fun b => toUint256 (if isPoolToken0 env b then y else x)));
        assumption. }
    intros Hrun. exact (H w' Hrun).
Qed.

(** ** Sweep (C9) *)

Lemma move_out tk src dst amt l :
  src <> dst ->
  balanceOf (move tk src dst amt l) tk src = balanceOf l tk src - amt /\
  balanceOf (move tk src dst amt l) tk dst = balanceOf l tk dst + amt.
Proof.
  intros H. unfold move, debit, credit, setBalances, upd2. cbn [balanceOf].
  rewrite !Z.eqb_refl. cbn [andb].
  destruct (Z.eqb_spec src dst); [contradiction|].
  destruct (Z.eqb_spec dst src); [congruence|]. lia.
Qed.

(** C9 (sweep).  While the guard is engaged [sweep] reverts with
    [Reentrancy(2)] before any external call and changes nothing.  While it
    is idle [sweep] makes one call: it sends the contract's whole balance of
    the token (its whole native balance for the zero address) to the
    [sweepee] fixed at construction, and reverts with [SweepFailure] if
    that call answers [false]. *)
Theorem sweep_discipline token w :
  (inMigration w <> 0 ->
     sweep env token w = ([], Revert (Reentrancy 2)) /\
     commit (sweep env token) w = w) /\
  (inMigration w = 0 ->
     let held := if token =? 0 then nativeBalance (ledger w) (this env)
                 else balanceOf (ledger w) token (this env) in
     sweep env token w =
       if token =? 0
       then ([CallSend (sweepee env) held],
             if acceptsEther env (sweepee env)
             then Ok (tt, mkWorld (inMigration w)
                            (creditNative (sweepee env) held
                               (creditNative (this env) (- held) (ledger w))))
             else Revert (SweepFailure 0))
       else ([CallTransfer token (sweepee env) held],
             if transferSucceeds env token (sweepee env) held
             then Ok (tt, mkWorld (inMigration w)
                            (move token (this env) (sweepee env) held
                                  (ledger w)))
             else Revert (SweepFailure 1))) /\
  (forall w', snd (sweep env token w) = Ok (tt, w') ->
     sweepee env <> this env ->
     if token =? 0
     then nativeBalance (ledger w') (this env) = 0 /\
          nativeBalance (ledger w') (sweepee env)
          = nativeBalance (ledger w) (sweepee env)
            + nativeBalance (ledger w) (this env)
     else balanceOf (ledger w') token (this env) = 0 /\
          balanceOf (ledger w') token (sweepee env)
          = balanceOf (ledger w) token (sweepee env)
            + balanceOf (ledger w) token (this env)).
Proof.
  assert (Hidle : inMigration w = 0 ->
     sweep env token w =
       if token =? 0
       then ([CallSend (sweepee env) (nativeBalance (ledger w) (this env))],
             if acceptsEther env (sweepee env)
             then Ok (tt, mkWorld (inMigration w)
                            (creditNative (sweepee env)
                               (nativeBalance (ledger w) (this env))
                               (creditNative (this env)
                                  (- nativeBalance (ledger w) (this env))
                                  (ledger w))))
             else Revert (SweepFailure 0))
       else ([CallTransfer token (sweepee env)
                (balanceOf (ledger w) token (this env))],
             if transferSucceeds env token (sweepee env)
                  (balanceOf (ledger w) token (this env))
             then Ok (tt, mkWorld (inMigration w)
                            (move token (this env) (sweepee env)
                                  (balanceOf (ledger w) token (this env))
                                  (ledger w)))
             else Revert (SweepFailure 1))).
  { intros Hg. unfold sweep, bind, readInMigration. rewrite Hg. cbn [Z.eqb negb].
    destruct (token =? 0); unfold view, call; cbn [ledger].
    - unfold native_send. destruct (acceptsEther env (sweepee env));
        cbn [negb]; unfold ret, revert; rewrite ?Hg; reflexivity.
    - unfold erc20_transfer.
      destruct (transferSucceeds env token (sweepee env) _);
        cbn [negb]; unfold ret, revert; rewrite ?Z.ltb_irrefl, ?Hg; reflexivity. }
  split; [|split].
  - intros Hg.
    assert (H : sweep env token w = ([], Revert (Reentrancy 2))).
    { unfold sweep, bind, readInMigration. apply Z.eqb_neq in Hg.
      now rewrite Hg. }
    unfold commit. now rewrite H.
  - intros Hg held. subst held. rewrite (Hidle Hg).
    destruct (token =? 0); reflexivity.
  - intros w' Hrun Hne.
    destruct (Z.eq_dec (inMigration w) 0) as [Hg|Hg].
    2:{ unfold sweep, bind, readInMigration in Hrun. apply Z.eqb_neq in Hg.
        rewrite Hg in Hrun. discriminate. }
    rewrite (Hidle Hg) in Hrun.
    destruct (token =? 0); cbn [snd] in Hrun.
    + destruct (acceptsEther env (sweepee env)); [|discriminate].
      inversion Hrun; subst w'; clear Hrun.
      cbn [ledger nativeBalance creditNative]. unfold upd1.
      rewrite !Z.eqb_refl.
      destruct (Z.eqb_spec (this env) (sweepee env)); [congruence|].
      destruct (Z.eqb_spec (sweepee env) (this env)); [congruence|].
      split; lia.
    + destruct (transferSucceeds env token (sweepee env) _); [|discriminate].
      inversion Hrun; subst w'; clear Hrun. cbn [ledger].
      destruct (move_out token (this env) (sweepee env)
                  (balanceOf (ledger w) token (this env)) (ledger w))
        as [H1 H2]; [congruence|].
      rewrite H1, H2. split; lia.
Qed.

(** ** Sentinel resolution (C4) *)

Lemma migrateCollateral_app account post pre : forall i w t1 w1,
  migrateCollateral env account pre i w = (t1, Ok (tt, w1)) ->
  migrateCollateral env account (pre ++ post) i w
  = (t1 ++ fst (migrateCollateral env account post (i + lengthOf pre) w1),
     snd (migrateCollateral env account post (i + lengthOf pre) w1)).
Proof.
  induction pre as [|p pre IH]; intros i w t1 w1 H.
  - cbn in H. inversion H; subst. cbn [app lengthOf length Z.of_nat].
    rewrite Z.add_0_r. now destruct (migrateCollateral _ _ _ _ _).
  - cbn [migrateCollateral app] in *. unfold bind in *.
    pose proof (migrateOne_wp env account p i w) as HP. unfold wp in HP.
    destruct (migrateOne env account p i w) as [ta [[i' wa]|e]];
      [|discriminate].
    destruct HP as (_ & _ & _ & _ & HS).
    destruct (HS i' wa eq_refl) as (-> & _).
    destruct (migrateCollateral env account pre (i + 1) wa)
      as [tb rb] eqn:Hpre.
    inversion H; subst. rewrite (IH _ _ _ _ Hpre).
    replace (i + 1 + lengthOf pre) with (i + lengthOf (p :: pre))
      by (unfold lengthOf; cbn [length]; lia).
    now rewrite app_assoc.
Qed.

Lemma migrateCollateral_head account c rest i w :
  exists t2,
    fst (migrateCollateral env account (c :: rest) i w)
    = CallTransferFrom (cToken c) account (this env)
                       (liveAmount (ledger w) account c) :: t2.
Proof.
  cbn [migrateCollateral]. unfold bind.
  pose proof (migrateOne_wp env account c i w) as HP. unfold wp in HP.
  destruct (migrateOne env account c i w) as [ta [[i' wa]|e]];
    cbn [fst snd] in HP; destruct HP as (_ & _ & _ & (t2 & Ht) & _);
    subst ta; cbn [fst].
  - destruct (migrateCollateral _ _ _ _ _) as [tb rb]. cbn [fst app].
    eexists; reflexivity.
  - eexists; reflexivity.
Qed.

Lemma scan_repays bs account t : forall k j,
  scan bs account k t = Some j ->
  forall c u a, In (c, u, a) (collect selRepay t) ->
    exists b, In b bs /\ c = borrowCToken b /\ u = account /\
              a = borrowAmount b.
Proof.
  induction t as [|ev t IH]; intros k j H c u a Hin; [destruct Hin|].
  cbn [scan] in H.
  destruct (scanEvent bs account k ev) as [k'|] eqn:He; [|discriminate].
  destruct ev; cbn [collect selRepay] in Hin; try (eapply IH; eassumption).
  destruct Hin as [Heq|Hin]; [|eapply IH; eassumption].
  inversion Heq; subst. cbn [scanEvent] in He.
  destruct (lookup bs (k - 1)) as [b|] eqn:Hb; [|discriminate].
  destruct ((c =? borrowCToken b) && (u =? account) && (a =? borrowAmount b))
    eqn:Hc; [|discriminate].
  apply andb_prop in Hc. destruct Hc as [Hc Ha].
  apply andb_prop in Hc. destruct Hc as [Hc Hu].
  apply Z.eqb_eq in Hc, Hu, Ha. exists b. repeat split; auto.
  unfold lookup in Hb. destruct (k - 1 <? 0); [discriminate|].
  eapply nth_error_In; eassumption.
Qed.

(** C4, as amended (sentinel resolution).  A borrow source's sentinel is
    resolved once, by the debt read that [migrate] makes on entry, before
    any step runs: every repayment of the run, at whichever step, is of the
    amount the plan gives or, for a sentinel, of the debt the ledger showed
    when [migrate] was entered; the chain never reads a debt again.  A
    collateral item's sentinel is resolved when the settlement reaches the
    item, against the ledger as the items before it left it. *)
Theorem sentinel_resolution sender coll plan base w :
  (inMigration w = 0 ->
     fst (migrate env sender coll plan base w)
     = sentinelReads sender plan ++ fst (chainOf env sender coll plan base w) /\
     collect selRead (fst (chainOf env sender coll plan base w)) = [] /\
     forall c u a,
       In (c, u, a)
          (collect selRepay (fst (migrate env sender coll plan base w))) ->
       exists b, In b plan /\ c = borrowCToken b /\ u = sender /\
                 a = if borrowAmount b =? MAX_UINT256
                     then borrowBalance (ledger w) (borrowCToken b) sender
                     else borrowAmount b) /\
  (forall pre c rest w0 t1 w1,
     migrateCollateral env sender pre 0 w0 = (t1, Ok (tt, w1)) ->
     exists t2,
       fst (migrateCollateral env sender (pre ++ c :: rest) 0 w0)
       = t1 ++ CallTransferFrom (cToken c) sender (this env)
                                (liveAmount (ledger w1) sender c) :: t2).
Proof.
  split.
  - intros Hg. rewrite (migrate_idle env _ _ _ _ _ Hg). cbn [fst].
    pose proof (chainOf_post env sender coll plan base w)
      as [((j & Hj & _) & _ & _ & HRd) _].
    split; [reflexivity|]. split; [assumption|].
    intros c u a Hin.
    rewrite collect_app, reads_none in Hin by reflexivity. cbn [app] in Hin.
    destruct (scan_repays _ _ _ _ _ Hj c u a Hin) as (b' & Hb' & -> & -> & ->).
    unfold resolveAt in Hb'. apply in_map_iff in Hb'.
    destruct Hb' as (b & <- & Hb). exists b. repeat split; auto.
  - intros pre c rest w0 t1 w1 Hpre.
    rewrite (migrateCollateral_app sender (c :: rest) pre 0 w0 t1 w1 Hpre).
    cbn [fst].
    destruct (migrateCollateral_head sender c rest (0 + lengthOf pre) w1)
      as (t2 & ->). eauto.
Qed.
End EntryPoints.

(** * More on the contract *)

(** ** Runs that end well, taken apart *)

Section Inversion.
Context {A B : Type}.

Lemma bind_ok (m : M A) (k : A -> M B) w t b w' :
  bind m k w = (t, Ok (b, w')) ->
  exists t1 a w1 t2,
    m w = (t1, Ok (a, w1)) /\ k a w1 = (t2, Ok (b, w')) /\ t = t1 ++ t2.
Proof.
  unfold bind. destruct (m w) as [t1 [[a w1]|e]]; [|discriminate].
  destruct (k a w1) as [t2 r] eqn:E. intros H; inversion H; subst.
  eauto 10.
Qed.

Lemma bind_revert (m : M A) (k : A -> M B) w t e :
  m w = (t, Revert e) -> bind m k w = (t, Revert e).
Proof. unfold bind. now intros ->. Qed.
End Inversion.

(** ** The collateral loop *)

Section Passes.
Variable env : Env.

Lemma migrateOne_counter account c i w :
  wp (migrateOne env account c i)
     (fun _ r => forall i' w', r = Ok (i', w') ->
                               i' = i + 1 /\ i + 1 <= MAX_UINT8) w.
Proof.
  unfold migrateOne. wp_go; intros;
    match goal with
    | Hr : Revert _ = Ok _ |- _ => discriminate Hr
    | Hr : Ok _ = Ok _ |- _ => inversion Hr; subst; lia
    end.
Qed.

Lemma migrateCollateral_counter account cs : forall i w t w',
  migrateCollateral env account cs i w = (t, Ok (tt, w')) ->
  cs <> [] -> i + lengthOf cs <= MAX_UINT8.
Proof.
  induction cs as [|c rest IH]; intros i w t w' H Hne; [congruence|].
  cbn [migrateCollateral] in H.
  apply bind_ok in H as (t1 & i' & w1 & t2 & H1 & H2 & _).
  pose proof (migrateOne_counter account c i w) as HP. unfold wp in HP.
  rewrite H1 in HP. destruct (HP i' w1 eq_refl) as [-> Hi].
  unfold lengthOf in *. cbn [length]. destruct rest as [|c2 rest].
  - cbn. lia.
  - specialize (IH _ _ _ _ H2 ltac:(discriminate)). cbn [length] in *. lia.
Qed.

(** X1 (at most 255 collateral items).  The collateral loop counts with a
    [uint8] that is incremented after every pass, the last one included, so
    a migration that succeeds carried at most 255 collateral items; with
    more the increment after pass 255 panics and the whole call reverts. *)
Theorem collateral_items_bounded sender coll plan base w w' :
  snd (migrate env sender coll plan base w) = Ok (tt, w') ->
  (length coll <= 255)%nat.
Proof.
  intros H.
  destruct (migrate_success env _ _ _ _ _ _ H)
    as (_ & _ & _ & dl & wm & wm' & ts & _ & Hc & _ & Hrun & _).
  unfold migrateCollateralAndBorrow in Hrun.
  apply bind_ok in Hrun as (t1 & [] & w1 & t2 & H1 & _ & _).
  rewrite Hc in H1. destruct coll as [|c rest]; [cbn; lia|].
  apply migrateCollateral_counter in H1; [|discriminate].
  unfold lengthOf, MAX_UINT8 in H1. lia.
Qed.


(** A pass whose cToken transfer is refused. *)
Lemma migrateOne_transfer_refused account c i w :
  let amt := liveAmount (ledger w) account c in
  cTokenTransferAllowed env (cToken c) account (this env) amt = false \/
  balanceOf (ledger w) (cToken c) account < amt ->
  migrateOne env account c i w
  = ([CallTransferFrom (cToken c) account (this env) amt],
     Revert CTokenTransferFailure).
Proof.
  intros amt H.
  assert (Hop : ctoken_transferFrom env (cToken c) account (this env) amt
                                    (ledger w) = Ok (false, ledger w)).
  { unfold ctoken_transferFrom.
    destruct H as [-> | H]; [reflexivity|].
    apply Z.leb_gt in H. rewrite H. now rewrite andb_false_r. }
  unfold migrateOne. subst amt. unfold liveAmount in *.
  destruct (amount c =? MAX_UINT256);
    unfold bind, view, ret, call; cbn [ledger fst snd]; rewrite Hop;
    reflexivity.
Qed.

(** A pass whose redemption is refused. *)
Lemma migrateOne_redeem_refused account c i w l2 :
  let amt := liveAmount (ledger w) account c in
  ctoken_transferFrom env (cToken c) account (this env) amt (ledger w)
  = Ok (true, l2) ->
  let held := balanceOf l2 (cToken c) (this env) in
  redeemCode env (cToken c) held <> 0 ->
  migrateOne env account c i w
  = ([CallTransferFrom (cToken c) account (this env) amt;
      CallRedeem (cToken c) held],
     Revert (if 1 + i <=? MAX_UINT8
             then CompoundV2Error (1 + i) (redeemCode env (cToken c) held)
             else Panic PANIC_ARITHMETIC)).
Proof.
  intros amt Hop held Hcode.
  assert (Hred : ctoken_redeem env (cToken c) held l2
                 = Ok (redeemCode env (cToken c) held, l2)).
  { unfold ctoken_redeem. apply Z.eqb_neq in Hcode. now rewrite Hcode. }
  apply Z.eqb_neq in Hcode.
  unfold migrateOne. subst amt held. unfold liveAmount in *.
  destruct (amount c =? MAX_UINT256);
    unfold bind, view, ret, call, checked_add, revert;
    cbn [ledger fst snd]; rewrite Hop; cbn [negb ledger];
    rewrite Hred, Hcode; cbn [negb];
    destruct (1 + i <=? MAX_UINT8); reflexivity.
Qed.

Lemma migrateCollateral_stops account c rest i w t e :
  migrateOne env account c i w = (t, Revert e) ->
  migrateCollateral env account (c :: rest) i w = (t, Revert e).
Proof. intros H. cbn [migrateCollateral]. now apply bind_revert. Qed.

Lemma settle_stops data total w t e :
  migrateCollateral env (user data) (collateral data) 0 w = (t, Revert e) ->
  migrateCollateralAndBorrow env data total w = (t, Revert e).
Proof. intros H. unfold migrateCollateralAndBorrow. now apply bind_revert. Qed.

Lemma migrateCollateral_fails_at account pre c rest w0 t1 w1 t e :
  migrateCollateral env account pre 0 w0 = (t1, Ok (tt, w1)) ->
  migrateOne env account c (lengthOf pre) w1 = (t, Revert e) ->
  migrateCollateral env account (pre ++ c :: rest) 0 w0 = (t1 ++ t, Revert e).
Proof.
  intros Hpre Hone.
  rewrite (migrateCollateral_app env account (c :: rest) pre 0 w0 t1 w1 Hpre).
  rewrite Z.add_0_l.
  now rewrite (migrateCollateral_stops _ _ rest _ _ _ _ Hone).
Qed.

(** X2 (a refused redemption).  When the source market answers the
    redemption of collateral item [i] (counted from zero) with a nonzero
    code, the settlement stops right after that call and reverts with
    [CompoundV2Error(1 + i, code)]; for the item at index 255 the sum
    [1 + i] does not fit the counter and the revert is an arithmetic panic
    instead. *)
Theorem redeem_refusal_location data total pre c rest w0 t1 w1 l2 :
  collateral data = pre ++ c :: rest ->
  migrateCollateral env (user data) pre 0 w0 = (t1, Ok (tt, w1)) ->
  let amt := liveAmount (ledger w1) (user data) c in
  ctoken_transferFrom env (cToken c) (user data) (this env) amt (ledger w1)
  = Ok (true, l2) ->
  let held := balanceOf l2 (cToken c) (this env) in
  redeemCode env (cToken c) held <> 0 ->
  migrateCollateralAndBorrow env data total w0
  = (t1 ++ [CallTransferFrom (cToken c) (user data) (this env) amt;
            CallRedeem (cToken c) held],
     Revert (if lengthOf pre <? MAX_UINT8
             then CompoundV2Error (1 + lengthOf pre)
                                  (redeemCode env (cToken c) held)
             else Panic PANIC_ARITHMETIC)).
Proof.
  intros Hc Hpre amt Hop held Hcode.
  apply settle_stops. rewrite Hc.
  apply (migrateCollateral_fails_at _ _ _ _ _ _ _ _ _ Hpre).
  rewrite (migrateOne_redeem_refused _ _ _ _ _ Hop Hcode).
  fold amt held. unfold MAX_UINT8.
  destruct (Z.leb_spec (1 + lengthOf pre) 255), (Z.ltb_spec (lengthOf pre) 255);
    try lia; reflexivity.
Qed.

(** X3 (a refused cToken transfer).  When the user has not let the
    contract move the cTokens of a collateral item, or holds fewer than the
    item asks for, the pull of that item answers [false]; the settlement
    makes no further call and reverts with [CTokenTransferFailure]. *)
Theorem ctoken_transfer_refusal data total pre c rest w0 t1 w1 :
  collateral data = pre ++ c :: rest ->
  migrateCollateral env (user data) pre 0 w0 = (t1, Ok (tt, w1)) ->
  let amt := liveAmount (ledger w1) (user data) c in
  cTokenTransferAllowed env (cToken c) (user data) (this env) amt = false \/
  balanceOf (ledger w1) (cToken c) (user data) < amt ->
  migrateCollateralAndBorrow env data total w0
  = (t1 ++ [CallTransferFrom (cToken c) (user data) (this env) amt],
     Revert CTokenTransferFailure).
Proof.
  intros Hc Hpre amt H.
  apply settle_stops. rewrite Hc.
  apply (migrateCollateral_fails_at _ _ _ _ _ _ _ _ _ Hpre).
  now apply migrateOne_transfer_refused.
Qed.



(** *** What the contract holds after each call of a pass *)

Lemma transferFrom_held c src a l l' :
  ctoken_transferFrom env c src (this env) a l = Ok (true, l') ->
  (forall tk, tk <> c ->
              balanceOf l' tk (this env) = balanceOf l tk (this env)) /\
  nativeBalance l' = nativeBalance l /\ cometBalance l' = cometBalance l.
Proof.
  unfold ctoken_transferFrom. destruct (_ && _); [|discriminate].
  intros H; inversion H; subst; clear H. split; [|split; reflexivity].
  intros tk Htk. cbn. unfold upd2.
  destruct (Z.eqb_spec tk c); [contradiction|reflexivity].
Qed.

Lemma redeem_all c l l' :
  ctoken_redeem env c (balanceOf l c (this env)) l = Ok (0, l') ->
  let paid := redeemValue env c (balanceOf l c (this env)) in
  (forall tk, balanceOf l' tk (this env)
              = (if tk =? c then 0 else balanceOf l tk (this env))
                + (if negb (c =? cETH env) && (tk =? underlying env c)
                   then paid else 0)) /\
  nativeBalance l' (this env)
  = nativeBalance l (this env) + (if c =? cETH env then paid else 0) /\
  cometBalance l' = cometBalance l.
Proof.
  unfold ctoken_redeem. destruct (negb _) eqn:Hcode.
  - intros H; inversion H; subst. apply negb_true_iff, Z.eqb_neq in Hcode.
    congruence.
  - rewrite Z.ltb_irrefl. intros H; inversion H; subst; clear H.
    cbn zeta. destruct (c =? cETH env); cbn; unfold upd2, upd1;
      rewrite ?Z.eqb_refl; cbn [andb negb].
    + split; [|split; reflexivity]. intros tk.
      destruct (Z.eqb_spec tk c); subst; cbn; lia.
    + split; [|split; [lia|reflexivity]]. intros tk.
      destruct (Z.eqb_spec tk (underlying env c)), (Z.eqb_spec tk c);
        subst; cbn; rewrite ?Z.eqb_refl; cbn;
        repeat match goal with
               | |- context [?a =? ?b] => destruct (Z.eqb_spec a b)
               end; cbn; try congruence; lia.
Qed.

Lemma deposit_all l l' :
  this env <> weth env ->
  weth_deposit env (nativeBalance l (this env)) l = Ok (tt, l') ->
  nativeBalance l' (this env) = 0 /\
  (forall tk, balanceOf l' tk (this env)
              = balanceOf l tk (this env)
                + (if tk =? weth env then nativeBalance l (this env) else 0)) /\
  cometBalance l' = cometBalance l.
Proof.
  intros Hw. unfold weth_deposit. rewrite Z.ltb_irrefl.
  intros H; inversion H; subst; clear H. cbn. unfold upd2, upd1.
  rewrite Z.eqb_refl.
  destruct (Z.eqb_spec (this env) (weth env)); [contradiction|].
  split; [lia|]. split; [|reflexivity]. intros tk.
  destruct (Z.eqb_spec tk (weth env)); subst; cbn; lia.
Qed.

Lemma supply_all dst x l l' :
  this env <> comet env ->
  comet_supplyTo env dst x (balanceOf l x (this env)) l = Ok (tt, l') ->
  (forall tk, balanceOf l' tk (this env)
              = if tk =? x then 0 else balanceOf l tk (this env)) /\
  nativeBalance l' = nativeBalance l /\
  cometBalance l' dst x = cometBalance l dst x + balanceOf l x (this env).
Proof.
  intros Hc. unfold comet_supplyTo. rewrite Z.ltb_irrefl.
  intros H; inversion H; subst; clear H. cbn. unfold upd2.
  rewrite !Z.eqb_refl. cbn [andb].
  destruct (Z.eqb_spec (this env) (comet env)); [contradiction|].
  split; [|split; reflexivity]. intros tk.
  destruct (Z.eqb_spec tk x); subst; cbn; rewrite ?andb_false_r; lia.
Qed.

(** Turn the answers of the calls of a successful pass into what the
    contract holds afterwards. *)
Ltac pass_facts Hcomet Hweth :=
  bools; subst;
  repeat match goal with
  | E : erc20_approve _ _ _ _ = Ok _ |- _ =>
      apply erc20_approve_same in E; subst
  | E : ctoken_transferFrom _ _ _ _ _ _ = Ok (true, _) |- _ =>
      apply transferFrom_held in E; destruct E as (? & ? & ?)
  | E : ctoken_redeem _ _ _ _ = Ok (0, _) |- _ =>
      apply redeem_all in E; cbn zeta in E; destruct E as (? & ? & ?)
  | E : weth_deposit _ _ _ = Ok _ |- _ =>
      apply (deposit_all _ _ Hweth) in E; destruct E as (? & ? & ?)
  | E : comet_supplyTo _ _ _ _ _ = Ok _ |- _ =>
      apply (supply_all _ _ _ _ Hcomet) in E; destruct E as (? & ? & ?)
  end.

Lemma migrateOne_clears account c i w :
  this env <> comet env -> this env <> weth env ->
  wp (migrateOne env account c i)
     (fun _ r => forall i' w', r = Ok (i', w') -> ClearedBy env c w w') w.
Proof.
  intros Hcomet Hweth. unfold migrateOne. wp_go; intros;
    match goal with
    | Hr : Revert _ = Ok _ |- _ => discriminate Hr
    | Hr : Ok _ = Ok _ |- _ => inversion Hr; subst; clear Hr
    end.
  all: destruct u; cbn [ledger inMigration] in *.
  all: try match goal with u : unit |- _ => destruct u end.
  all: pass_facts Hcomet Hweth.
  all: unfold ClearedBy, suppliedAsset in *; cbn [ledger]; split;
    [intros tk Htk|intros Hn].
  all: repeat match goal with
         | H : forall tk, balanceOf ?l tk _ = _
           |- context [balanceOf ?l _ _] => rewrite H
         | H : nativeBalance ?l = _ |- context [nativeBalance ?l] => rewrite H
         | H : nativeBalance ?l _ = _
           |- context [nativeBalance ?l _] => rewrite H
         end.
  all: repeat match goal with
         | |- context [?a =? ?b] => destruct (Z.eqb_spec a b)
         end; cbn [andb negb]; subst; try congruence; try lia.
  all: repeat match goal with
         | H : forall tk, tk <> _ -> balanceOf ?l tk _ = _
           |- context [balanceOf ?l ?x _] => rewrite (H x) by congruence
         end.
  all: try (destruct Htk as [Htk|[Htk|Htk]]; try congruence; lia).
  all: try (destruct Hn as [Hn|Hn]; try congruence; lia).
Qed.

Lemma migrateCollateral_clears account cs :
  this env <> comet env -> this env <> weth env ->
  forall i w t w',
  migrateCollateral env account cs i w = (t, Ok (tt, w')) ->
  (forall tk, balanceOf (ledger w) tk (this env) = 0 \/
              In tk (map cToken cs) \/ In tk (map (suppliedAsset env) cs) ->
              balanceOf (ledger w') tk (this env) = 0) /\
  (nativeBalance (ledger w) (this env) = 0 \/ In (cETH env) (map cToken cs) ->
   nativeBalance (ledger w') (this env) = 0).
Proof.
  intros Hcomet Hweth.
  induction cs as [|c rest IH]; intros i w t w' H.
  - cbn in H. inversion H; subst. cbn [map In]. intuition.
  - cbn [migrateCollateral] in H.
    apply bind_ok in H as (t1 & i' & w1 & t2 & H1 & H2 & _).
    pose proof (migrateOne_clears account c i w Hcomet Hweth) as HP.
    unfold wp in HP. rewrite H1 in HP.
    destruct (HP i' w1 eq_refl) as [Hb Hn].
    destruct (IH _ _ _ _ H2) as [IHb IHn]. cbn [map In]. split.
    + intros tk Htk. apply IHb.
      destruct Htk as [Htk|[[Htk|Htk]|[Htk|Htk]]]; auto.
    + intros Hc. apply IHn.
      destruct Hc as [Hc|[Hc|Hc]]; auto.
Qed.


Lemma withdraw_gain src x a l l' :
  this env <> comet env ->
  comet_withdrawFrom env src (this env) x a l = Ok (tt, l') ->
  (forall tk, balanceOf l' tk (this env)
              = balanceOf l tk (this env) + (if tk =? x then a else 0)) /\
  nativeBalance l' = nativeBalance l.
Proof.
  intros Hc. unfold comet_withdrawFrom. destruct (_ || _); [discriminate|].
  intros H; inversion H; subst; clear H. cbn. unfold upd2.
  rewrite Z.eqb_refl. split; [|reflexivity]. intros tk.
  destruct (Z.eqb_spec (this env) (comet env)); [contradiction|].
  destruct (Z.eqb_spec tk x); subst; cbn; rewrite ?andb_false_r; lia.
Qed.

(** X4 (the settlement keeps nothing).  Every pass redeems all cTokens the
    contract holds and supplies its whole balance of the asset, so when
    [migrateCollateralAndBorrow] returns, the contract holds of every cToken
    and every asset it handled only what it has just borrowed, that is
    [total] if the token is the base token and nothing otherwise; after a
    cETH item it holds no native currency either. *)
Theorem settlement_keeps_nothing data total w t w' :
  this env <> comet env -> this env <> weth env ->
  migrateCollateralAndBorrow env data total w = (t, Ok (tt, w')) ->
  (forall c, In c (collateral data) ->
     balanceOf (ledger w') (cToken c) (this env)
     = (if cToken c =? baseToken data then total else 0) /\
     balanceOf (ledger w') (suppliedAsset env c) (this env)
     = (if suppliedAsset env c =? baseToken data then total else 0)) /\
  (In (cETH env) (map cToken (collateral data)) ->
   nativeBalance (ledger w') (this env) = 0).
Proof.
  intros Hcomet Hweth H. unfold migrateCollateralAndBorrow in H.
  apply bind_ok in H as (t1 & [] & w1 & t2 & H1 & H2 & _).
  apply bind_ok in H2 as (t3 & [] & w2 & t4 & H3 & H4 & _).
  cbv in H4. inversion H4; subst; clear H4.
  unfold call in H3. cbn [ledger] in H3.
  destruct (comet_withdrawFrom _ _ _ _ _ _) as [[[] l2]|e] eqn:E;
    [|discriminate].
  inversion H3; subst; clear H3. cbn [ledger].
  destruct (withdraw_gain _ _ _ _ _ Hcomet E) as [Hb Hn].
  destruct (migrateCollateral_clears _ _ Hcomet Hweth _ _ _ _ H1)
    as [Hzero Hnat].
  split.
  - intros c Hc. rewrite !Hb. split.
    + rewrite Hzero; [lia|]. right; left. now apply in_map.
    + rewrite Hzero; [lia|]. right; right. now apply in_map.
  - intros Hc. rewrite Hn. apply Hnat. now right.
Qed.

Lemma transferFrom_gain c src a l l' :
  src <> this env ->
  ctoken_transferFrom env c src (this env) a l = Ok (true, l') ->
  balanceOf l' c (this env) = balanceOf l c (this env) + a.
Proof.
  intros Hs. unfold ctoken_transferFrom. destruct (_ && _); [|discriminate].
  intros H; inversion H; subst; clear H. cbn. unfold upd2.
  rewrite !Z.eqb_refl. cbn [andb].
  destruct (Z.eqb_spec (this env) src); [congruence|lia].
Qed.

(** X5 (stray balances are supplied too).  A pass of the collateral loop
    supplies to the user's account everything the contract then holds of
    the asset: what it held of the asset before (and, for cETH, its native
    balance before), plus what the market pays for all the cTokens it holds,
    those it held before and those pulled from the user. *)
Theorem pass_supplies_whole_balance account c i w t i' w' :
  this env <> comet env -> this env <> weth env ->
  account <> this env -> suppliedAsset env c <> cToken c ->
  migrateOne env account c i w = (t, Ok (i', w')) ->
  In (CallSupplyTo account (suppliedAsset env c)
                   (wholeBalance env account c (ledger w))) t /\
  cometBalance (ledger w') account (suppliedAsset env c)
  = cometBalance (ledger w) account (suppliedAsset env c)
    + wholeBalance env account c (ledger w).
Proof.
  intros Hcomet Hweth Hacc Hne Hrun.
  assert (HP : wp (migrateOne env account c i)
    (fun t r => forall i' w', r = Ok (i', w') ->
       In (CallSupplyTo account (suppliedAsset env c)
                        (wholeBalance env account c (ledger w))) t /\
       cometBalance (ledger w') account (suppliedAsset env c)
       = cometBalance (ledger w) account (suppliedAsset env c)
         + wholeBalance env account c (ledger w)) w).
  2:{ unfold wp in HP. rewrite Hrun in HP. exact (HP i' w' eq_refl). }
  clear Hrun. unfold migrateOne. wp_go; intros;
    match goal with
    | Hr : Revert _ = Ok _ |- _ => discriminate Hr
    | Hr : Ok _ = Ok _ |- _ => inversion Hr; subst; clear Hr
    end.
  all: cbn [ledger inMigration] in *.
  all: repeat match goal with u : unit |- _ => destruct u end.
  all: match goal with
       | E : ctoken_transferFrom _ _ _ _ _ _ = Ok (?b, _),
         Hsrc : _ <> this _ |- _ =>
           destruct b; [|discriminate];
           pose proof (transferFrom_gain _ _ _ _ _ Hsrc E)
       end.
  all: pass_facts Hcomet Hweth.
  all: match goal with
       | H : cometBalance _ _ _ = cometBalance _ _ _ + ?amt
         |- In (CallSupplyTo _ _ ?whole) _ /\ _ =>
           assert (Hs : amt = whole);
           [|rewrite Hs in *; split;
             [cbn [app In]; auto 10
             |repeat match goal with
                     | H : cometBalance ?l = _
                       |- context [cometBalance ?l] => rewrite H
                     | H : cometBalance ?l _ _ = _
                       |- context [cometBalance ?l _ _] => rewrite H
                     end; reflexivity]]
       end.
  all: unfold wholeBalance, liveAmount, suppliedAsset in *.
  all: repeat match goal with
         | H : forall tk, balanceOf ?l tk _ = _
           |- context [balanceOf ?l _ _] => rewrite H
         | H : nativeBalance ?l = _ |- context [nativeBalance ?l] => rewrite H
         | H : nativeBalance ?l _ = _
           |- context [nativeBalance ?l _] => rewrite H
         | H : balanceOf ?l ?x ?y = _
           |- context [balanceOf ?l ?x ?y] => rewrite H
         end.
  all: repeat match goal with
         | |- context [?a =? ?b] => destruct (Z.eqb_spec a b)
         end; cbn [andb negb]; subst; try congruence; try lia.
  all: repeat match goal with
         | H : forall tk, tk <> _ -> balanceOf ?l tk _ = _
           |- context [balanceOf ?l ?x _] => rewrite (H x) by congruence
         end; try lia.
Qed.


(** What a pass supplies. *)
Lemma migrateOne_supplied account c i w t i' w' :
  this env <> comet env -> this env <> weth env ->
  account <> this env -> suppliedAsset env c <> cToken c ->
  migrateOne env account c i w = (t, Ok (i', w')) ->
  collect selSupplied t
  = [(account, suppliedAsset env c, wholeBalance env account c (ledger w))].
Proof.
  intros Hcomet Hweth Hacc Hne Hrun.
  assert (HP : wp (migrateOne env account c i)
    (fun t r => forall i' w', r = Ok (i', w') ->
       collect selSupplied t
       = [(account, suppliedAsset env c,
           wholeBalance env account c (ledger w))]) w).
  2:{ unfold wp in HP. rewrite Hrun in HP. exact (HP i' w' eq_refl). }
  clear Hrun. unfold migrateOne. wp_go; intros;
    match goal with
    | Hr : Revert _ = Ok _ |- _ => discriminate Hr
    | Hr : Ok _ = Ok _ |- _ => inversion Hr; subst; clear Hr
    end.
  all: cbn [ledger inMigration] in *.
  all: repeat match goal with u : unit |- _ => destruct u end.
  all: match goal with
       | E : ctoken_transferFrom _ _ _ _ _ _ = Ok (?b, _),
         Hsrc : _ <> this _ |- _ =>
           destruct b; [|discriminate];
           pose proof (transferFrom_gain _ _ _ _ _ Hsrc E)
       end.
  all: pass_facts Hcomet Hweth.
  all: cbn [collect selSupplied app]; f_equal; f_equal.
  all: unfold wholeBalance, liveAmount, suppliedAsset in *.
  all: repeat match goal with
         | H : forall tk, balanceOf ?l tk _ = _
           |- context [balanceOf ?l _ _] => rewrite H
         | H : nativeBalance ?l = _ |- context [nativeBalance ?l] => rewrite H
         | H : nativeBalance ?l _ = _
           |- context [nativeBalance ?l _] => rewrite H
         | H : balanceOf ?l ?x ?y = _
           |- context [balanceOf ?l ?x ?y] => rewrite H
         end.
  all: repeat match goal with
         | |- context [?a =? ?b] => destruct (Z.eqb_spec a b)
         end; cbn [andb negb]; subst; try congruence; try lia.
  all: repeat match goal with
         | H : forall tk, tk <> _ -> balanceOf ?l tk _ = _
           |- context [balanceOf ?l ?x _] => rewrite (H x) by congruence
         end; try lia.
Qed.

(** *** The order of a settlement *)

Lemma migrateOne_quiet account c i w :
  wp (migrateOne env account c i) (fun t _ => collect selMigrated t = []) w.
Proof. unfold migrateOne. wp_go; intros; reflexivity. Qed.

Lemma migrateCollateral_quiet account cs : forall i w,
  collect selMigrated (fst (migrateCollateral env account cs i w)) = [].
Proof.
  induction cs as [|c rest IH]; intros i w; [reflexivity|].
  cbn [migrateCollateral]. unfold bind.
  pose proof (migrateOne_quiet account c i w) as HP. unfold wp in HP.
  destruct (migrateOne env account c i w) as [t1 [[i' w1]|e]];
    cbn [fst snd] in *; [|assumption].
  specialize (IH i' w1).
  destruct (migrateCollateral env account rest i' w1) as [t2 r].
  cbn [fst] in *. now rewrite collect_app, HP, IH.
Qed.

Lemma settle_shape data total w ts w' :
  migrateCollateralAndBorrow env data total w = (ts, Ok (tt, w')) ->
  exists tc,
    ts = tc ++ [CallWithdrawFrom (user data) (this env) (baseToken data) total;
                EmitMigrated (user data) (collateral data) 0 total] /\
    collect selSupply tc
    = map (fun c => (user data, suppliedAsset env c)) (collateral data) /\
    collect selWithdraw tc = [] /\
    collect selMigrated tc = [].
Proof.
  intros H. unfold migrateCollateralAndBorrow in H.
  apply bind_ok in H as (tc & [] & w1 & t2 & H1 & H2 & ->).
  apply bind_ok in H2 as (t3 & [] & w2 & t4 & H3 & H4 & ->).
  cbv in H4. inversion H4; subst; clear H4.
  unfold call in H3. inversion H3; subst; clear H3.
  exists tc. split; [reflexivity|].
  pose proof (migrateCollateral_wp env (user data) (collateral data) 0 w) as HP.
  unfold wp in HP. rewrite H1 in HP. cbn [fst snd] in HP.
  destruct HP as (_ & HW & _ & HS).
  destruct (HS w1 eq_refl) as (_ & _ & _ & Hs).
  split; [assumption|]. split; [assumption|].
  pose proof (migrateCollateral_quiet (user data) (collateral data) 0 w) as Hq.
  now rewrite H1 in Hq.
Qed.

(** X7 (collateral first, then the borrow).  In a successful migration
    every collateral item is supplied to the target protocol before the one
    withdrawal from it; the withdrawal is followed at once by the single
    [Migrated] event, which carries the user, the collateral list as given,
    a repay amount of zero and the settlement total; after it only the
    venues are paid. *)
Theorem collateral_before_borrow sender coll plan base w w' :
  snd (migrate env sender coll plan base w) = Ok (tt, w') ->
  let resolved := resolveAt (ledger w) sender plan in
  let total := owedSum env resolved in
  (exists t1,
     fst (migrate env sender coll plan base w)
     = t1 ++ CallWithdrawFrom sender (this env) base total
          :: EmitMigrated sender coll 0 total
          :: unwinding env resolved /\
     collect selSupply t1 = map (fun c => (sender, suppliedAsset env c)) coll /\
     collect selWithdraw t1 = []) /\
  collect selSupply (unwinding env resolved) = [] /\
  collect selMigrated (fst (migrate env sender coll plan base w))
  = [(sender, coll, 0, total)].
Proof.
  intros H resolved total.
  destruct (migrate_success env _ _ _ _ _ _ H)
    as (_ & _ & _ & dl & wm & wm' & ts & Hu & Hc & Hb & Hrun & Ht).
  fold resolved in Hrun, Ht. fold total in Hrun.
  apply settle_shape in Hrun as (tc & -> & Hs & Hw & Hm).
  rewrite Hu, Hc, Hb in *. rewrite Ht. split; [|split].
  - exists (sentinelReads sender plan
            ++ opening env sender resolved coll base resolved 0 0 ++ tc).
    split; [now rewrite <- !app_assoc|].
    rewrite !collect_app, Hs, Hw.
    rewrite !reads_none, !opening_none by reflexivity. split; reflexivity.
  - now apply unwinding_none.
  - rewrite !collect_app, Hm.
    rewrite reads_none, opening_none, unwinding_none by reflexivity.
    reflexivity.
Qed.

(** *** Conversions on a swap leg *)


(** *** The callbacks between transactions *)

(** X8 (the callbacks between transactions).  In every world the contract
    can be in between transactions both callbacks revert with
    [Reentrancy(1)] before any call, whoever calls them and whatever the
    data; and during a migration a callback whose data names a step outside
    the plan fails with an index panic before the caller is even looked
    at. *)
Theorem callbacks_closed (acquire : Acquire) sender x y data w :
  (Reachable env w ->
   uniswapV3FlashCallback env acquire sender x y data w
   = ([], Revert (Reentrancy 1)) /\
   uniswapV3SwapCallback env acquire sender x y data w
   = ([], Revert (Reentrancy 1))) /\
  (inMigration w = 1 -> lookup (borrowData data) (step data) = None ->
   uniswapV3FlashCallback env acquire sender x y data w
   = ([], Revert (Panic PANIC_INDEX)) /\
   uniswapV3SwapCallback env acquire sender x y data w
   = ([], Revert (Panic PANIC_INDEX))).
Proof.
  split.
  - intros Hr. apply reachable_idle in Hr.
    split; [apply flashCallback_idle|apply swapCallback_idle]; lia.
  - intros Hg Hl.
    unfold uniswapV3FlashCallback, uniswapV3SwapCallback, bind,
      readInMigration, index.
    rewrite Hg, Hl. split; reflexivity.
Qed.


(** *** Paying the venues back *)

Lemma transfers_of_success sender coll plan base w w' :
  snd (migrate env sender coll plan base w) = Ok (tt, w') ->
  let resolved := resolveAt (ledger w) sender plan in
  collect selTransfer (fst (migrate env sender coll plan base w))
  = rev (map (fun b => (legToken env b, pool b, legOwed env b)) resolved) /\
  collect selWithdraw (fst (migrate env sender coll plan base w))
  = [(sender, this env, base, owedSum env resolved)].
Proof.
  intros H resolved.
  destruct (migrate_success env _ _ _ _ _ _ H)
    as (_ & _ & _ & dl & wm & wm' & ts & Hu & _ & Hb & Hrun & Ht).
  fold resolved in Hrun, Ht. rewrite Ht.
  pose proof (migrateCollateralAndBorrow_wp env dl (owedSum env resolved) wm)
    as HP.
  unfold wp in HP. rewrite Hrun in HP. cbn [fst snd] in HP.
  destruct HP as (HF & _ & HS).
  destruct (HS wm' eq_refl) as (_ & _ & _ & _ & Hw).
  rewrite !collect_app, Hw, Hu, Hb.
  rewrite !reads_none, !opening_none by reflexivity.
  rewrite (settle_none selTransfer ts); [|intros ev; destruct ev; cbn;
                                          congruence|assumption].
  rewrite unwinding_transfers.
  rewrite (unwinding_none env selWithdraw) by reflexivity.
  split; reflexivity.
Qed.

(** X9 (venues are paid in reverse).  The transfers of a successful
    migration are exactly one per leg, each to the leg's venue, in the leg's
    token and of the leg's amount, in the reverse of the plan's order: the
    venue asked last is paid first. *)
Theorem venues_repaid_in_reverse sender coll plan base w w' :
  snd (migrate env sender coll plan base w) = Ok (tt, w') ->
  let resolved := resolveAt (ledger w) sender plan in
  collect selTransfer (fst (migrate env sender coll plan base w))
  = rev (map (fun b => (legToken env b, pool b, legOwed env b)) resolved).
Proof. intros H. exact (proj1 (transfers_of_success _ _ _ _ _ _ H)). Qed.

Lemma paidIn_app tk xs ys :
  paidIn tk (xs ++ ys) = paidIn tk xs + paidIn tk ys.
Proof.
  induction xs as [|[[t dst] a] xs IH]; cbn [app paidIn]; [reflexivity|].
  rewrite IH. lia.
Qed.

Lemma legToken_resolved l account base plan :
  Forall (fun b => legToken env b = base) plan ->
  Forall (fun b => legToken env b = base) (resolveAt l account plan).
Proof.
  unfold resolveAt. induction 1 as [|b rest Hb _ IH]; cbn [map];
    constructor; auto.
Qed.

Lemma paidIn_owed base bs :
  Forall (fun b => legToken env b = base) bs ->
  let paid := rev (map (fun b => (legToken env b, pool b, legOwed env b)) bs) in
  Forall (fun tr => fst (fst tr) = base) paid /\
  paidIn base paid = owedSum env bs.
Proof.
  induction 1 as [|b rest Hb _ [IHf IHp]]; cbn zeta in *;
    [split; [constructor|reflexivity]|].
  cbn [map rev owedSum]. split.
  - apply Forall_app. split; [assumption|]. repeat constructor. exact Hb.
  - rewrite paidIn_app, IHp. cbn [paidIn]. rewrite Hb, Z.eqb_refl. lia.
Qed.

(** X21 (what is borrowed is what is paid).  In a successful migration
    whose legs are all paid back in the base token, every transfer to a
    venue is in the base token, and the amounts of these transfers add up to
    the amount withdrawn from the target protocol on the user's behalf. *)
Theorem borrowed_equals_paid sender coll plan base w w' :
  Forall (fun b => legToken env b = base) plan ->
  snd (migrate env sender coll plan base w) = Ok (tt, w') ->
  let paid := collect selTransfer (fst (migrate env sender coll plan base w)) in
  Forall (fun tr => fst (fst tr) = base) paid /\
  collect selWithdraw (fst (migrate env sender coll plan base w))
  = [(sender, this env, base, paidIn base paid)].
Proof.
  intros Hbase H paid. unfold paid.
  destruct (transfers_of_success _ _ _ _ _ _ H) as [Ht Hw].
  destruct (paidIn_owed base _ (legToken_resolved (ledger w) sender _ _ Hbase))
    as [Hf Hp].
  rewrite Ht, Hw. split; [exact Hf|]. now rewrite Hp.
Qed.

End Passes.

(** * What a migration moves *)

(** ** The user's tokens *)

Ltac split_eqbs :=
  repeat match goal with
         | |- context [?a =? ?b] =>
             destruct (Z.eqb_spec a b); subst; cbn [andb orb negb]
         end;
  try contradiction; try congruence; try lia.

Section UserTokens.
Variable env : Env.

Lemma transferFrom_user c account a l l' :
  account <> this env ->
  ctoken_transferFrom env c account (this env) a l = Ok (true, l') ->
  forall tk, balanceOf l' tk account
             = balanceOf l tk account - (if tk =? c then a else 0).
Proof.
  intros Hs. unfold ctoken_transferFrom. destruct (_ && _); [|discriminate].
  intros H; inversion H; subst; clear H. intros tk. cbn. unfold upd2.
  split_eqbs.
Qed.

Lemma redeem_user c a account l z l' :
  account <> this env ->
  ctoken_redeem env c a l = Ok (z, l') ->
  forall tk, balanceOf l' tk account = balanceOf l tk account.
Proof.
  intros Hs. unfold ctoken_redeem. destruct (negb _).
  - intros H; inversion H; reflexivity.
  - destruct (_ <? _); [discriminate|]. intros H; inversion H; subst; clear H.
    intros tk. destruct (c =? cETH env); cbn; unfold upd2; split_eqbs.
Qed.

Lemma deposit_user v account l l' :
  account <> this env ->
  weth_deposit env v l = Ok (tt, l') ->
  forall tk, balanceOf l' tk account = balanceOf l tk account.
Proof.
  intros Hs. unfold weth_deposit. destruct (_ <? _); [discriminate|].
  intros H; inversion H; subst; clear H. intros tk. cbn. unfold upd2.
  split_eqbs.
Qed.

Lemma supply_user d x a account l l' :
  account <> this env -> account <> comet env ->
  comet_supplyTo env d x a l = Ok (tt, l') ->
  forall tk, balanceOf l' tk account = balanceOf l tk account.
Proof.
  intros Hs Hc. unfold comet_supplyTo. destruct (_ <? _); [discriminate|].
  intros H; inversion H; subst; clear H. intros tk. cbn. unfold upd2.
  split_eqbs.
Qed.

Lemma withdraw_user s x a account l l' :
  account <> this env -> account <> comet env ->
  comet_withdrawFrom env s (this env) x a l = Ok (tt, l') ->
  forall tk, balanceOf l' tk account = balanceOf l tk account.
Proof.
  intros Hs Hc. unfold comet_withdrawFrom. destruct (_ || _); [discriminate|].
  intros H; inversion H; subst; clear H. intros tk. cbn. unfold upd2.
  split_eqbs.
Qed.

(** What a pass takes from the user. *)
Lemma migrateOne_pulls account c i w t i' w' :
  account <> this env -> account <> comet env ->
  migrateOne env account c i w = (t, Ok (i', w')) ->
  collect selPulled t
  = [(cToken c, account, this env, pullOf (heldBy (ledger w) account) c)] /\
  forall tk, balanceOf (ledger w') tk account
             = heldAfter (heldBy (ledger w) account) c tk.
Proof.
  intros Hacc Hcomet Hrun.
  assert (HP : wp (migrateOne env account c i)
    (fun t r => forall i' w', r = Ok (i', w') ->
       collect selPulled t
       = [(cToken c, account, this env, pullOf (heldBy (ledger w) account) c)] /\
       forall tk, balanceOf (ledger w') tk account
                  = heldAfter (heldBy (ledger w) account) c tk) w).
  2:{ unfold wp in HP. rewrite Hrun in HP. exact (HP i' w' eq_refl). }
  clear Hrun. unfold migrateOne. wp_go; intros;
    match goal with
    | Hr : Revert _ = Ok _ |- _ => discriminate Hr
    | Hr : Ok _ = Ok _ |- _ => inversion Hr; subst; clear Hr
    end.
  all: cbn [ledger inMigration] in *.
  all: repeat match goal with u : unit |- _ => destruct u end.
  all: match goal with
       | E : ctoken_transferFrom _ _ _ _ _ _ = Ok (?b, _) |- _ =>
           destruct b; [|discriminate];
           pose proof (transferFrom_user _ _ _ _ _ Hacc E)
       end.
  all: repeat match goal with
       | E : erc20_approve _ _ _ _ = Ok _ |- _ =>
           apply erc20_approve_same in E; subst
       | E : ctoken_redeem _ _ _ _ = Ok _ |- _ =>
           pose proof (redeem_user _ _ _ _ _ _ Hacc E); clear E
       | E : weth_deposit _ _ _ = Ok _ |- _ =>
           pose proof (deposit_user _ _ _ _ Hacc E); clear E
       | E : comet_supplyTo _ _ _ _ _ = Ok _ |- _ =>
           pose proof (supply_user _ _ _ _ _ _ Hacc Hcomet E); clear E
       end.
  all: split; [unfold pullOf, heldBy;
               repeat match goal with
                      | H : (_ =? _) = _ |- _ => rewrite H
                      end; reflexivity|].
  all: intros tk; unfold heldAfter, pullOf, heldBy, upd1;
       repeat match goal with
              | H : forall tk, balanceOf ?l tk _ = _
                |- context [balanceOf ?l _ _] => rewrite H
              | H : (_ =? _) = _ |- _ => rewrite H
              end;
       destruct (tk =? cToken c) eqn:Htk; [apply Z.eqb_eq in Htk; subst|]; lia.
Qed.

End UserTokens.

(** ** The collateral loop *)

Section CollateralLoop.
Variable env : Env.

Lemma pullOf_ext h1 h2 c :
  (forall tk, h1 tk = h2 tk) -> pullOf h1 c = pullOf h2 c.
Proof. intros H. unfold pullOf. now rewrite H. Qed.

Lemma heldAfter_ext h1 h2 c :
  (forall tk, h1 tk = h2 tk) ->
  forall tk, heldAfter h1 c tk = heldAfter h2 c tk.
Proof.
  intros H tk. unfold heldAfter, upd1.
  now rewrite (pullOf_ext _ _ _ H), !H.
Qed.

Lemma pulls_ext account cs : forall h1 h2,
  (forall tk, h1 tk = h2 tk) -> pulls env account h1 cs = pulls env account h2 cs.
Proof.
  induction cs as [|c rest IH]; intros h1 h2 H; [reflexivity|].
  cbn [pulls]. rewrite (pullOf_ext _ _ _ H).
  f_equal. apply IH. now apply heldAfter_ext.
Qed.

Lemma remaining_ext cs : forall h1 h2,
  (forall tk, h1 tk = h2 tk) -> forall tk, remaining h1 cs tk = remaining h2 cs tk.
Proof.
  induction cs as [|c rest IH]; intros h1 h2 H tk; cbn [remaining]; [apply H|].
  apply IH. now apply heldAfter_ext.
Qed.

Lemma supplies_ext account cs : forall h1 h2,
  (forall tk, h1 tk = h2 tk) ->
  supplies env account h1 cs = supplies env account h2 cs.
Proof.
  induction cs as [|c rest IH]; intros h1 h2 H; [reflexivity|].
  cbn [supplies]. rewrite (pullOf_ext _ _ _ H).
  f_equal. apply IH. now apply heldAfter_ext.
Qed.

(** What the loop takes from the user. *)
Lemma migrateCollateral_pulls account cs :
  account <> this env -> account <> comet env ->
  forall i w t w',
  migrateCollateral env account cs i w = (t, Ok (tt, w')) ->
  collect selPulled t = pulls env account (heldBy (ledger w) account) cs /\
  forall tk, balanceOf (ledger w') tk account
             = remaining (heldBy (ledger w) account) cs tk.
Proof.
  intros Hacc Hcomet.
  induction cs as [|c rest IH]; intros i w t w' H.
  - cbn in H. inversion H; subst. split; reflexivity.
  - cbn [migrateCollateral] in H.
    apply bind_ok in H as (t1 & i' & w1 & t2 & H1 & H2 & ->).
    destruct (migrateOne_pulls env _ _ _ _ _ _ _ Hacc Hcomet H1) as [Hp Hb].
    destruct (IH _ _ _ _ H2) as [IHp IHb].
    cbn [pulls remaining]. rewrite collect_app, Hp, IHp. split.
    + cbn [app]. f_equal. apply pulls_ext. exact Hb.
    + intros tk. rewrite IHb. apply remaining_ext. exact Hb.
Qed.

End CollateralLoop.

(** ** The settlement and the calls around it *)

Section SettlementMoves.
Variable env : Env.

Lemma migrateCollateral_supplies account cs :
  this env <> comet env -> this env <> weth env ->
  account <> this env -> account <> comet env ->
  forall i w t w',
  Unheld env cs (ledger w) ->
  migrateCollateral env account cs i w = (t, Ok (tt, w')) ->
  collect selSupplied t = supplies env account (heldBy (ledger w) account) cs.
Proof.
  intros Hcomet Hweth Hacc Hacc2.
  induction cs as [|c rest IH]; intros i w t w' Hun H.
  - cbn in H. inversion H; subst. reflexivity.
  - cbn [migrateCollateral] in H.
    apply bind_ok in H as (t1 & i' & w1 & t2 & H1 & H2 & ->).
    inversion Hun as [|c0 rest0 (Hne & Hc & Hx & Hn) Hrest]; subst.
    rewrite collect_app.
    rewrite (migrateOne_supplied env _ _ _ _ _ _ _ Hcomet Hweth Hacc Hne H1).
    destruct (migrateOne_pulls env _ _ _ _ _ _ _ Hacc Hacc2 H1) as [_ Hb].
    pose proof (migrateOne_clears env account c i w Hcomet Hweth) as HP.
    unfold wp in HP. rewrite H1 in HP.
    destruct (HP i' w1 eq_refl) as [Hzero Hnat].
    assert (Hun1 : Unheld env rest (ledger w1)).
    { unfold Unheld in *. rewrite Forall_forall in *.
      intros c' Hin. destruct (Hrest c' Hin) as (Hne' & Hc' & Hx' & Hn').
      repeat split; auto. }
    rewrite (IH _ _ _ _ Hun1 H2). cbn [supplies app]. f_equal.
    + f_equal. unfold wholeBalance, liveAmount, pullOf, heldBy.
      rewrite Hc, Hx.
      destruct (Z.eqb_spec (cToken c) (cETH env)) as [He|He];
        [rewrite (Hn He)|]; rewrite !Z.add_0_l; reflexivity.
    + apply supplies_ext. exact Hb.
Qed.

(** What a settlement moves: the user's cTokens go, item by item, and with
    nothing held by the contract beforehand each item's redemption value is
    what is supplied for it. *)
Lemma settle_moves data total w ts w' :
  user data <> this env -> user data <> comet env ->
  migrateCollateralAndBorrow env data total w = (ts, Ok (tt, w')) ->
  let held := heldBy (ledger w) (user data) in
  collect selPulled ts = pulls env (user data) held (collateral data) /\
  (forall tk, balanceOf (ledger w') tk (user data)
              = remaining held (collateral data) tk) /\
  (this env <> comet env -> this env <> weth env ->
   Unheld env (collateral data) (ledger w) ->
   collect selSupplied ts = supplies env (user data) held (collateral data)).
Proof.
  intros Hacc Hacc2 H held. unfold migrateCollateralAndBorrow in H.
  apply bind_ok in H as (t1 & [] & w1 & t2 & H1 & H2 & ->).
  apply bind_ok in H2 as (t3 & [] & w2 & t4 & H3 & H4 & ->).
  cbv in H4. inversion H4; subst; clear H4.
  unfold call in H3. cbn [ledger] in H3.
  destruct (comet_withdrawFrom _ _ _ _ _ _) as [[[] l2]|e] eqn:E;
    [|discriminate].
  inversion H3; subst; clear H3. cbn [ledger].
  destruct (migrateCollateral_pulls env _ _ Hacc Hacc2 _ _ _ _ H1) as [Hp Hb].
  rewrite !collect_app. cbn [collect selPulled selSupplied].
  rewrite !app_nil_r. split; [exact Hp|]. split.
  - intros tk. rewrite (withdraw_user env _ _ _ _ _ _ Hacc Hacc2 E). apply Hb.
  - intros Hcomet Hweth Hun.
    exact (migrateCollateral_supplies _ _ Hcomet Hweth Hacc Hacc2 _ _ _ _ Hun H1).
Qed.

(** *** What the other calls leave of the user's tokens *)

Lemma after_keeps {A} (op : Ext A) (P : Ledger -> Prop) l :
  P l -> (forall a l', op l = Ok (a, l') -> P l') -> P (after op l).
Proof.
  intros Hl Hop. unfold after. destruct (op l) as [[a l']|e] eqn:E; eauto.
Qed.

Lemma request_user sender b data l tk :
  sender <> this env -> sender <> pool b ->
  balanceOf (effect env (requestEvent env b data) l) tk sender
  = balanceOf l tk sender.
Proof.
  intros Hs Hp. unfold requestEvent.
  destruct (isFlashLoan b); cbn [effect]; apply after_keeps; try reflexivity;
    intros a l'.
  - unfold pool_lend. destruct (_ || _); [discriminate|].
    intros H; inversion H; subst; clear H. cbn. unfold upd2. split_eqbs.
  - unfold pool_swap_out. destruct (_ <? _); [discriminate|].
    intros H; inversion H; subst; clear H. cbn. unfold upd2. split_eqbs.
Qed.

Lemma repay_user sender c u a l tk :
  sender <> this env -> sender <> c ->
  balanceOf (effect env (CallRepayBorrowBehalf c u a) l) tk sender
  = balanceOf l tk sender.
Proof.
  intros Hs Hc. cbn [effect]. apply after_keeps; [reflexivity|].
  intros z l'. unfold ctoken_repayBorrowBehalf.
  destruct (negb _); [intros H; inversion H; reflexivity|].
  destruct (_ || _); [discriminate|].
  intros H; inversion H; subst; clear H. cbn. unfold upd2. split_eqbs.
Qed.

Lemma transfer_user sender tk' d a l tk :
  sender <> this env -> sender <> d ->
  balanceOf (effect env (CallTransfer tk' d a) l) tk sender
  = balanceOf l tk sender.
Proof.
  intros Hs Hd. cbn [effect]. apply after_keeps; [reflexivity|].
  intros z l'. unfold erc20_transfer.
  destruct (negb _); [intros H; inversion H; reflexivity|].
  destruct (_ <? _); [discriminate|].
  intros H; inversion H; subst; clear H. cbn. unfold upd2. split_eqbs.
Qed.

Lemma opening_user sender account plan coll base rest :
  sender <> this env ->
  Forall (fun b => sender <> pool b /\ sender <> borrowCToken b) rest ->
  forall k total l tk,
  balanceOf (replay env (opening env account plan coll base rest k total) l)
            tk sender
  = balanceOf l tk sender.
Proof.
  intros Hs. induction 1 as [|b rest [Hp Hc] _ IH]; intros k total l tk;
    [reflexivity|].
  cbn [opening]. unfold replay in *. cbn [fold_left].
  rewrite IH, repay_user by assumption.
  cbn [effect]. unfold after at 1, erc20_approve.
  now apply request_user.
Qed.

Lemma unwinding_user sender rest :
  sender <> this env ->
  Forall (fun b => sender <> pool b /\ sender <> borrowCToken b) rest ->
  forall l tk,
  balanceOf (replay env (unwinding env rest) l) tk sender
  = balanceOf l tk sender.
Proof.
  intros Hs. induction 1 as [|b rest [Hp Hc] _ IH]; intros l tk;
    [reflexivity|].
  cbn [unwinding]. rewrite replay_app. unfold replay at 1. cbn [fold_left].
  rewrite transfer_user by assumption. apply IH.
Qed.

Lemma resolveAt_outside sender account l plan :
  Forall (fun b => sender <> pool b /\ sender <> borrowCToken b) plan ->
  Forall (fun b => sender <> pool b /\ sender <> borrowCToken b)
         (resolveAt l account plan).
Proof.
  unfold resolveAt. induction 1 as [|b rest Hb _ IH]; cbn [map];
    constructor; auto.
Qed.

(** *** The user's position in the target protocol, from the log *)

Lemma cometDelta_lists x y t :
  cometDelta x y t
  = suppliedTo x y (collect selSupplied t)
    - withdrawn x y (collect selWithdraw t).
Proof.
  induction t as [|ev t IH]; [reflexivity|].
  cbn [cometDelta]. rewrite IH.
  destruct ev; cbn [collect selSupplied selWithdraw cometEffect suppliedTo
                    withdrawn];
    repeat match goal with
           | |- context [if ?b then _ else _] => destruct b
           end; lia.
Qed.

Lemma suppliedTo_reached account cs y : forall held,
  suppliedTo account y (supplies env account held cs) = reached env held cs y.
Proof.
  induction cs as [|c rest IH]; intros held; [reflexivity|].
  cbn [supplies suppliedTo reached]. rewrite IH, Z.eqb_refl.
  cbn [andb]. now rewrite (Z.eqb_sym y).
Qed.

End SettlementMoves.

(** ** Ledgers follow the log *)

Section Replaying.
Variable env : Env.

Lemma replays_bind {A B} (m : M A) (k : A -> M B) :
  Replays env m -> (forall a, Replays env (k a)) -> Replays env (bind m k).
Proof.
  intros Hm Hk w t b w' H.
  apply bind_ok in H as (t1 & a & w1 & t2 & H1 & H2 & ->).
  now rewrite replay_app, <- (Hm _ _ _ _ H1), <- (Hk _ _ _ _ _ H2).
Qed.

Lemma replays_pure {A} (m : M A) :
  (forall w t a w', m w = (t, Ok (a, w')) -> t = [] /\ ledger w' = ledger w) ->
  Replays env m.
Proof. intros H w t a w' E. now destruct (H _ _ _ _ E) as [-> ->]. Qed.

Lemma replays_ret {A} (a : A) : Replays env (ret a).
Proof. apply replays_pure. intros w t a' w' H. inversion H; auto. Qed.

Lemma replays_revert {A} e : Replays env (@revert A e).
Proof. intros w t a w' H. discriminate. Qed.

Lemma replays_view {A} (f : Ledger -> A) : Replays env (view f).
Proof. apply replays_pure. intros w t a' w' H. inversion H; auto. Qed.

Lemma replays_read : Replays env readInMigration.
Proof. apply replays_pure. intros w t a' w' H. inversion H; auto. Qed.

Lemma replays_write v : Replays env (writeInMigration v).
Proof. apply replays_pure. intros w t a' w' H. inversion H; auto. Qed.

Lemma replays_checked_add bound a b : Replays env (checked_add bound a b).
Proof.
  unfold checked_add.
  destruct (_ <=? _); [apply replays_ret|apply replays_revert].
Qed.

Lemma replays_checked_sub a b : Replays env (checked_sub a b).
Proof.
  unfold checked_sub.
  destruct (_ <=? _); [apply replays_ret|apply replays_revert].
Qed.

Lemma replays_checked_neg a : Replays env (checked_neg a).
Proof.
  unfold checked_neg.
  destruct (_ =? _); [apply replays_revert|apply replays_ret].
Qed.

Lemma replays_index {A} (xs : list A) i : Replays env (index xs i).
Proof.
  unfold index.
  destruct (lookup xs i); [apply replays_ret|apply replays_revert].
Qed.

Lemma replays_emit u c r b : Replays env (emit (EmitMigrated u c r b)).
Proof. intros w t a w' H. inversion H; subst. reflexivity. Qed.

(** A call replays when the collaborator that answers it is the one the
    log entry stands for. *)
Lemma replays_call {A} ev (op : Ext A) :
  (forall l, effect env ev l = after op l) -> Replays env (call ev op).
Proof.
  intros Hop w t a w' H. unfold call in H.
  destruct (op (ledger w)) as [[a' l']|e] eqn:E; inversion H; subst.
  cbn [ledger]. unfold replay. cbn [fold_left].
  rewrite Hop. symmetry. exact (after_ok _ _ _ _ E).
Qed.

Ltac replays_step :=
  lazymatch goal with
  | |- Replays _ (bind ?m _) => steppable m; apply replays_bind; [|intros]
  | |- Replays _ (if ?c then _ else _) => destruct c
  | |- Replays _ (ret _) => apply replays_ret
  | |- Replays _ (revert _) => apply replays_revert
  | |- Replays _ (view _) => apply replays_view
  | |- Replays _ readInMigration => apply replays_read
  | |- Replays _ (writeInMigration _) => apply replays_write
  | |- Replays _ (checked_add _ _ _) => apply replays_checked_add
  | |- Replays _ (checked_sub _ _) => apply replays_checked_sub
  | |- Replays _ (checked_neg _) => apply replays_checked_neg
  | |- Replays _ (index _ _) => apply replays_index
  | |- Replays _ (emit _) => apply replays_emit
  | |- Replays _ (call _ _) => apply replays_call; reflexivity
  end.

Ltac replays := cbv zeta; repeat (replays_step; cbv zeta).

Lemma migrateOne_replays account c i : Replays env (migrateOne env account c i).
Proof. unfold migrateOne. replays. Qed.

Lemma migrateCollateral_replays account cs :
  forall i, Replays env (migrateCollateral env account cs i).
Proof.
  induction cs as [|c rest IH]; intros i; cbn [migrateCollateral].
  - apply replays_ret.
  - apply replays_bind; [apply migrateOne_replays|intros; apply IH].
Qed.

Lemma migrateCollateralAndBorrow_replays data total :
  Replays env (migrateCollateralAndBorrow env data total).
Proof.
  unfold migrateCollateralAndBorrow.
  apply replays_bind; [apply migrateCollateral_replays|intros]. replays.
Qed.

Lemma repayAndContinue_replays (acquire : Acquire) data b total :
  (forall bs k d, Replays env (acquire bs k d)) ->
  Replays env (repayAndContinue env acquire data b total).
Proof.
  intros Hacq. unfold repayAndContinue. replays.
  - apply migrateCollateralAndBorrow_replays.
  - apply Hacq.
Qed.

Lemma flashCallback_replays (acquire : Acquire) sender f0 f1 data :
  (forall bs k d, Replays env (acquire bs k d)) ->
  Replays env (uniswapV3FlashCallback env acquire sender f0 f1 data).
Proof.
  intros Hacq. unfold uniswapV3FlashCallback. replays.
  apply replays_bind; [now apply repayAndContinue_replays|intros]. replays.
Qed.

Lemma swapCallback_replays (acquire : Acquire) sender d0 d1 data :
  (forall bs k d, Replays env (acquire bs k d)) ->
  Replays env (uniswapV3SwapCallback env acquire sender d0 d1 data).
Proof.
  intros Hacq. unfold uniswapV3SwapCallback. replays.
  apply replays_bind; [now apply repayAndContinue_replays|intros]. replays.
Qed.

Lemma flashLoanOrSwap_replays depth :
  forall bs k d, Replays env (flashLoanOrSwap env depth bs k d).
Proof.
  induction depth as [|depth IH]; intros bs k d.
  - apply replays_revert.
  - change (Replays env (flashLoanOrSwapVia env
                      (uniswapV3FlashCallback env (flashLoanOrSwap env depth))
                      (uniswapV3SwapCallback env (flashLoanOrSwap env depth))
                      bs k d)).
    unfold flashLoanOrSwapVia. replays.
    + unfold pool_flash. replays.
      apply replays_bind; [now apply flashCallback_replays|intros]. replays.
    + unfold pool_swap. replays.
      apply replays_bind; [now apply swapCallback_replays|intros]. replays.
Qed.

Lemma resolveBorrowAmounts_replays account bs :
  Replays env (resolveBorrowAmounts account bs).
Proof.
  induction bs as [|b rest IH]; cbn [resolveBorrowAmounts];
    [apply replays_ret|].
  replays. apply replays_bind; [apply IH|intros; apply replays_ret].
Qed.

Lemma migrate_replays sender coll plan base :
  Replays env (migrate env sender coll plan base).
Proof.
  unfold migrate. replays.
  apply replays_bind; [apply resolveBorrowAmounts_replays|intros].
  apply replays_bind; [apply flashLoanOrSwap_replays|intros]. replays.
Qed.

End Replaying.

(** * Atomicity (C1) *)

Section Atomicity.
Variable env : Env.

(** C1 (atomicity).  Every call to [migrate] either completes in full or
    reverts and leaves the world it found.  In full means: each listed debt
    shrinks by its resolved amount; each collateral item is pulled from the
    user and supplied to the target protocol for the user; the settlement
    total is withdrawn from the target protocol; every balance anywhere is
    what the logged calls make of it, and the balances of the target
    protocol move by exactly the supplies and the withdrawal.  For a user
    who is none of the contracts involved, the cTokens pulled are, item by
    item, the amounts asked (the whole remaining balance for the sentinel)
    and the user's token balances shrink by just these; and when the
    contract holds nothing of the collateral before it settles, what is
    supplied for each item is what its market pays for the cTokens pulled,
    so that the user's position in the target protocol grows by these
    payments and shrinks by the settlement total. *)
Theorem migrate_all_or_nothing sender coll plan base w :
  let run := migrate env sender coll plan base in
  let resolved := resolveAt (ledger w) sender plan in
  let held := heldBy (ledger w) sender in
  (exists w',
      snd (run w) = Ok (tt, w') /\ commit run w = w' /\
      (forall c a, borrowBalance (ledger w') c a
                   = borrowBalance (ledger w) c a
                     - repaidTo sender resolved c a) /\
      collect selRepay (fst (run w))
        = map (fun b => (borrowCToken b, sender, borrowAmount b)) resolved /\
      collect selTransferFrom (fst (run w))
        = map (fun c => (cToken c, sender, this env)) coll /\
      collect selSupply (fst (run w))
        = map (fun c => (sender, suppliedAsset env c)) coll /\
      collect selWithdraw (fst (run w))
        = [(sender, this env, base, owedSum env resolved)] /\
      ledger w' = replay env (fst (run w)) (ledger w) /\
      (forall x y, cometBalance (ledger w') x y
                   = cometBalance (ledger w) x y + cometDelta x y (fst (run w))) /\
      (~ In base (map (suppliedAsset env) coll) ->
       cometBalance (ledger w') sender base
       = cometBalance (ledger w) sender base - owedSum env resolved) /\
      (Outsider env sender plan ->
       collect selPulled (fst (run w)) = pulls env sender held coll /\
       (forall tk, balanceOf (ledger w') tk sender = remaining held coll tk) /\
       (this env <> comet env -> this env <> weth env ->
        Unheld env coll (settlementLedger env sender coll plan base (ledger w)) ->
        collect selSupplied (fst (run w)) = supplies env sender held coll /\
        forall y, cometBalance (ledger w') sender y
                  = cometBalance (ledger w) sender y
                    + reached env held coll y
                    - (if y =? base then owedSum env resolved else 0))))
  \/ (exists e, snd (run w) = Revert e /\ commit run w = w).
Proof.
  intros run resolved held. unfold commit.
  destruct (snd (run w)) as [[[] w']|e] eqn:Hrun; [left|right; eauto].
  exists w'. split; [reflexivity|]. split; [reflexivity|].
  destruct (migrate_success env _ _ _ _ _ _ Hrun) as (_ & _ & Hdebt & _).
  destruct (migrate_settlement env _ _ _ _ _ _ Hrun)
    as (dl & wm & wm' & ts & H1 & H2 & H3 & H4 & H5 & H6 & H7).
  fold resolved in Hdebt, H4, H5, H6, H7. fold run in H5.
  split; [assumption|].
  pose proof (migrateCollateralAndBorrow_wp env dl (owedSum env resolved) wm)
    as HP. unfold wp in HP. rewrite H4 in HP. cbn [fst snd] in HP.
  destruct HP as (HF & _ & HS).
  destruct (HS wm' eq_refl) as (_ & _ & Ht & Hs & Hw).
  rewrite H1, H2 in Ht, Hs. rewrite H1, H3 in Hw.
  assert (Hrepay : collect selRepay (fst (run w))
            = map (fun b => (borrowCToken b, sender, borrowAmount b)) resolved).
  { rewrite H5, !collect_app, opening_repays.
    rewrite reads_none, unwinding_none by reflexivity.
    rewrite (settle_none selRepay ts) by
      (assumption || (intros ev; destruct ev; (discriminate || reflexivity))).
    now rewrite app_nil_r. }
  assert (Hfrom : collect selTransferFrom (fst (run w))
            = map (fun c => (cToken c, sender, this env)) coll).
  { rewrite H5, !collect_app, Ht.
    rewrite reads_none, opening_none, unwinding_none by reflexivity.
    now rewrite app_nil_r. }
  assert (Hsupply : collect selSupply (fst (run w))
            = map (fun c => (sender, suppliedAsset env c)) coll).
  { rewrite H5, !collect_app, Hs.
    rewrite reads_none, opening_none, unwinding_none by reflexivity.
    now rewrite app_nil_r. }
  assert (Hwithdraw : collect selWithdraw (fst (run w))
            = [(sender, this env, base, owedSum env resolved)]).
  { rewrite H5, !collect_app, Hw.
    rewrite reads_none, opening_none, unwinding_none by reflexivity.
    reflexivity. }
  assert (Hrun' : run w = (fst (run w), Ok (tt, w'))).
  { unfold run in *. destruct (migrate env sender coll plan base w) as [t r].
    cbn [fst snd] in *. now subst r. }
  assert (Hcomet : forall x y, cometBalance (ledger w') x y
            = cometBalance (ledger w) x y + cometDelta x y (fst (run w))).
  { exact (migrate_tracks env sender coll plan base w _ tt w' Hrun'). }
  assert (Hreplay : ledger w' = replay env (fst (run w)) (ledger w)).
  { exact (migrate_replays env sender coll plan base w _ tt w' Hrun'). }
  do 6 (split; [assumption|]). split.
  { intros Hfresh. rewrite Hcomet, cometDelta_withdrawn.
    - rewrite Hwithdraw. cbn [withdrawn]. rewrite !Z.eqb_refl. cbn [andb]. lia.
    - rewrite Hsupply. intros Hin. apply Hfresh.
      apply in_map_iff in Hin. destruct Hin as (c & Hc & Hin).
      apply in_map_iff. exists c. split; [congruence|assumption]. }
  intros (Hs1 & Hs2 & Hout).
  pose proof (resolveAt_outside sender sender (ledger w) plan Hout) as Hout'.
  fold resolved in Hout'.
  assert (Hheld : forall tk, heldBy (ledger wm) sender tk = held tk).
  { intros tk. unfold heldBy, held. rewrite H6.
    now apply opening_user. }
  assert (Hu1 : user dl <> this env) by congruence.
  assert (Hu2 : user dl <> comet env) by congruence.
  destruct (settle_moves env dl _ wm ts wm' Hu1 Hu2 H4) as (Hp & Hb & Hsup).
  rewrite H1, H2 in Hp, Hb, Hsup.
  split; [|split].
  - rewrite H5, !collect_app, Hp.
    rewrite reads_none, opening_none, unwinding_none by reflexivity.
    rewrite app_nil_r. cbn [app]. apply pulls_ext. exact Hheld.
  - intros tk. rewrite H7, unwinding_user by assumption.
    rewrite Hb. apply remaining_ext. exact Hheld.
  - intros Hcm Hwe Hun.
    unfold settlementLedger in Hun. fold resolved in Hun. rewrite <- H6 in Hun.
    assert (Hsupd : collect selSupplied (fst (run w))
                    = supplies env sender held coll).
    { rewrite H5, !collect_app, (Hsup Hcm Hwe Hun).
      rewrite reads_none, opening_none, unwinding_none by reflexivity.
      rewrite app_nil_r. cbn [app]. apply supplies_ext. exact Hheld. }
    split; [exact Hsupd|].
    intros y. rewrite Hcomet, cometDelta_lists, Hsupd, Hwithdraw.
    rewrite suppliedTo_reached. cbn [withdrawn].
    rewrite Z.eqb_refl. cbn [andb]. lia.
Qed.

End Atomicity.

(** * The front end: reasoning *)

(** ** JavaScript maps *)

Section JsMapFacts.
Import Web.
Context {V : Type}.

Lemma mapGet_mapSet_same k (v : V) m : mapGet k (mapSet k v m) = Some v.
Proof.
  induction m as [|[k' v'] rest IH]; cbn.
  - now rewrite String.eqb_refl.
  - destruct (String.eqb k' k) eqn:E; cbn; rewrite ?String.eqb_refl, ?E; auto.
Qed.

Lemma mapGet_mapSet_other k k' (v : V) m :
  k' <> k -> mapGet k' (mapSet k v m) = mapGet k' m.
Proof.
  intros Hne. induction m as [|[k2 v2] rest IH]; cbn.
  - destruct (String.eqb_spec k k'); [congruence|reflexivity].
  - destruct (String.eqb_spec k2 k); cbn.
    + subst. destruct (String.eqb_spec k k'); [congruence|reflexivity].
    + destruct (String.eqb_spec k2 k'); auto.
Qed.

Lemma mapGet_in k (m : JsMap V) :
  mapGet k m <> None <-> In k (mapKeys m).
Proof.
  unfold mapKeys. induction m as [|[k' v'] rest IH]; cbn; [tauto|].
  destruct (String.eqb_spec k' k); [|tauto].
  split; [auto|discriminate].
Qed.

Lemma mapSet_present k (v : V) m :
  In k (mapKeys m) -> mapKeys (mapSet k v m) = mapKeys m.
Proof.
  unfold mapKeys. induction m as [|[k' v'] rest IH]; cbn; [tauto|].
  destruct (String.eqb_spec k' k); cbn; [congruence|].
  intros [H|H]; [congruence|]. now rewrite IH.
Qed.

Lemma mapSet_absent k (v : V) m :
  ~ In k (mapKeys m) -> mapSet k v m = m ++ [(k, v)].
Proof.
  unfold mapKeys. induction m as [|[k' v'] rest IH]; cbn; [reflexivity|].
  intros H. destruct (String.eqb_spec k' k); [tauto|].
  rewrite IH; tauto.
Qed.

Lemma fold_mapSet (m acc : JsMap V) :
  NoDup (mapKeys (acc ++ m)) ->
  fold_left (fun a kv => mapSet (fst kv) (snd kv) a) m acc = acc ++ m.
Proof.
  revert acc. induction m as [|[k v] rest IH]; intros acc H; cbn.
  - now rewrite app_nil_r.
  - rewrite mapSet_absent.
    + rewrite IH; rewrite <- app_assoc; [reflexivity|exact H].
    + unfold mapKeys in *. rewrite map_app in H. cbn in H.
      apply NoDup_remove_2 in H. intros Hin. apply H.
      apply in_or_app. now left.
Qed.

(** Copying a map, [new Map(Array.from(m))], yields the same entries. *)
Lemma mapFromEntries_id (m : JsMap V) :
  NoDup (mapKeys m) -> mapFromEntries (mapEntries m) = m.
Proof.
  intros H. unfold mapFromEntries, mapEntries. now rewrite fold_mapSet.
Qed.

(** [new Map(entries)] keeps entries whose keys are distinct as they are. *)
Lemma mapFromEntries_distinct (entries : list (string * V)) :
  NoDup (map fst entries) -> mapFromEntries entries = entries.
Proof. apply mapFromEntries_id. Qed.

End JsMapFacts.

(** Case analysis on the properties [typed] reads, one at a time; an absent
    property settles the goal. *)
Ltac read_typed o :=
  unfold Web.typed in *; cbn in *;
  destruct (Web.o_aToken o); [|try discriminate; try congruence];
  destruct (Web.o_allowance o); [|try discriminate; try congruence];
  destruct (Web.o_allowanceStableDebtToken o);
    [|try discriminate; try congruence];
  destruct (Web.o_allowanceVariableDebtToken o);
    [|try discriminate; try congruence];
  destruct (Web.o_balance o); [|try discriminate; try congruence];
  destruct (Web.o_borrowBalanceStable o); [|try discriminate; try congruence];
  destruct (Web.o_borrowBalanceVariable o); [|try discriminate; try congruence];
  destruct (Web.o_collateralFactor o); [|try discriminate; try congruence];
  destruct (Web.o_price o); [|try discriminate; try congruence];
  destruct (Web.o_repayAmountStable o); [|try discriminate; try congruence];
  destruct (Web.o_repayAmountVariable o); [|try discriminate; try congruence];
  destruct (Web.o_transfer o); [|try discriminate; try congruence].

(** ** The reducer *)

Section ReducerFacts.
Import Web.
Context {SwapRoute : Type}.
Implicit Types (m : JsMap (TokenObject SwapRoute)) (o : TokenObject SwapRoute)
  (a : Action SwapRoute) (state : MigratorState SwapRoute).

Lemma input_step error enabled m a sym f :
  NoDup (mapKeys m) -> inputUpdate a = Some (sym, f) ->
  reducer (StateHydrated error enabled m) a
  = StateHydrated None enabled (mapSet sym (f (spread (mapGet sym m))) m).
Proof.
  intros Hm Ha.
  destruct a as [| | |s t v|s r|s v]; try discriminate; cbn in Ha |- *.
  - destruct t; inversion Ha; subst; now rewrite mapFromEntries_id.
  - inversion Ha; subst; now rewrite mapFromEntries_id.
  - inversion Ha; subst; now rewrite mapFromEntries_id.
Qed.

(** X10 (an input writes one property).  On a hydrated state, an input
    action for a symbol of the map replaces the one property it names in
    that symbol's object and nothing else: the keys and their order stay,
    every other entry stays, [migratorEnabled] stays, and the error is
    cleared. *)
Theorem input_writes_one_property error enabled m a sym f o :
  NoDup (mapKeys m) -> inputUpdate a = Some (sym, f) ->
  mapGet sym m = Some o ->
  exists m',
    reducer (StateHydrated error enabled m) a = StateHydrated None enabled m' /\
    mapKeys m' = mapKeys m /\
    mapGet sym m' = Some (f o) /\
    forall k, k <> sym -> mapGet k m' = mapGet k m.
Proof.
  intros Hm Ha Ho. rewrite (input_step _ _ _ _ _ _ Hm Ha), Ho. cbn [spread].
  eexists. split; [reflexivity|]. split; [|split].
  - apply mapSet_present. apply mapGet_in. congruence.
  - apply mapGet_mapSet_same.
  - intros k Hk. now apply mapGet_mapSet_other.
Qed.

Lemma typed_empty_update a sym
    (f : TokenObject SwapRoute -> TokenObject SwapRoute) :
  inputUpdate a = Some (sym, f) -> typed (f emptyObject) = None.
Proof.
  destruct a as [| | |s t v|s r|s v]; try discriminate; cbn.
  - destruct t; intros H; inversion H; reflexivity.
  - intros H; inversion H; reflexivity.
  - intros H; inversion H; reflexivity.
Qed.

Lemma typedEntries_app m1 m2 :
  typedEntries (m1 ++ m2)
  = match typedEntries m1, typedEntries m2 with
    | Some e1, Some e2 => Some (e1 ++ e2)
    | _, _ => None
    end.
Proof.
  induction m1 as [|[k o] rest IH]; cbn.
  - now destruct (typedEntries m2).
  - rewrite IH. destruct (typed o); [|reflexivity].
    destruct (typedEntries rest); [|reflexivity].
    now destruct (typedEntries m2).
Qed.

(** X11 (an input for an unknown symbol).  An input action for a symbol the
    map does not hold spreads [undefined]: it appends, after all entries, an
    object that has the written property only, so the map no longer holds
    an [ATokenState] for every key. *)
Theorem input_for_unknown_symbol error enabled m a sym f :
  NoDup (mapKeys m) -> inputUpdate a = Some (sym, f) ->
  mapGet sym m = None ->
  reducer (StateHydrated error enabled m) a
  = StateHydrated None enabled (m ++ [(sym, f emptyObject)]) /\
  typedEntries (m ++ [(sym, f emptyObject)]) = None.
Proof.
  intros Hm Ha Ho. rewrite (input_step _ _ _ _ _ _ Hm Ha), Ho. cbn [spread].
  rewrite mapSet_absent.
  - split; [reflexivity|]. rewrite typedEntries_app. cbn.
    rewrite (typed_empty_update _ _ _ Ha). now destruct (typedEntries m).
  - intros Hin. apply mapGet_in in Hin. congruence.
Qed.


Lemma mapKeys_map (g : TokenObject SwapRoute -> TokenObject SwapRoute) m :
  mapKeys (map (fun e => (fst e, g (snd e))) m) = mapKeys m.
Proof. unfold mapKeys. rewrite map_map. reflexivity. Qed.

Lemma mapGet_map (g : TokenObject SwapRoute -> TokenObject SwapRoute) k m :
  mapGet k (map (fun e => (fst e, g (snd e))) m)
  = option_map g (mapGet k m).
Proof.
  induction m as [|[k' o] rest IH]; cbn; [reflexivity|].
  destruct (String.eqb k' k); auto.
Qed.

Lemma clear_step error enabled m :
  NoDup (mapKeys m) ->
  reducer (StateHydrated error enabled m) ClearRepayAndTransferAmounts
  = StateHydrated None enabled
      (map (fun e => (fst e, clearedObject (snd e))) m).
Proof.
  intros Hm. cbn. f_equal. unfold mapEntries.
  apply (mapFromEntries_id
           (map (fun e => (fst e, clearedObject (snd e)))
                m)).
  unfold mapKeys in *. now rewrite map_map.
Qed.

(** X12 (what clearing clears).  [ClearRepayAndTransferAmounts] keeps the
    keys and their order, empties [transfer] in every object and writes an
    empty [repayAmount], a property the interface does not declare;
    [repayAmountStable] and [repayAmountVariable] stay as they were.  Read
    at its declared type, an entry changes in [transfer] only. *)
Theorem clear_keeps_repay_amounts error enabled m :
  NoDup (mapKeys m) ->
  exists m',
    reducer (StateHydrated error enabled m) ClearRepayAndTransferAmounts
    = StateHydrated None enabled m' /\
    mapKeys m' = mapKeys m /\
    forall sym o, mapGet sym m = Some o ->
      exists o',
        mapGet sym m' = Some o' /\
        o_transfer o' = Some EmptyString /\
        o_repayAmount o' = Some EmptyString /\
        o_repayAmountStable o' = o_repayAmountStable o /\
        o_repayAmountVariable o' = o_repayAmountVariable o /\
        forall s, typed o = Some s ->
          typed o'
          = Some (mkATokenState (aToken s) (allowance s)
                    (allowanceStableDebtToken s) (allowanceVariableDebtToken s)
                    (balance s) (borrowBalanceStable s)
                    (borrowBalanceVariable s) (collateralFactor s) (price s)
                    (repayAmountStable s) (repayAmountVariable s) EmptyString
                    (swapRoute s)).
Proof.
  intros Hm. rewrite (clear_step _ _ _ Hm). eexists.
  split; [reflexivity|].
  split; [unfold mapKeys; now rewrite map_map|].
  intros sym o Ho.
  rewrite (mapGet_map clearedObject), Ho.
  cbn [option_map].
  eexists. split; [reflexivity|]. cbn. repeat split.
  intros s Hs. cbn in Hs |- *. read_typed o.
  inversion Hs; subst; reflexivity.
Qed.


Lemma typedEntries_all m :
  typedEntries m <> None <-> Forall (fun e => typed (snd e) <> None) m.
Proof.
  induction m as [|[k o] rest IH]; cbn.
  - split; [constructor|discriminate].
  - destruct (typed o) eqn:Ho.
    + destruct (typedEntries rest).
      * split; [|discriminate]. intros _. constructor; [cbn; congruence|].
        apply IH. discriminate.
      * split; [congruence|]. intros H. inversion H; subst. tauto.
    + split; [congruence|]. intros H. inversion H; subst. cbn in *. congruence.
Qed.

Lemma typed_update a sym o
    (f : TokenObject SwapRoute -> TokenObject SwapRoute) :
  inputUpdate a = Some (sym, f) -> typed o <> None -> typed (f o) <> None.
Proof.
  intros Ha Ho.
  destruct a as [| | |sy ty va|sy ro|sy va]; try discriminate; cbn in Ha;
    [destruct ty|..]; inversion Ha; subst; clear Ha;
    cbn; read_typed o; discriminate.
Qed.

Lemma typed_cleared o :
  typed o <> None ->
  typed (clearedObject o) <> None.
Proof. intros Ho. cbn. read_typed o. discriminate. Qed.

Lemma mapGet_some_in k m o : mapGet k m = Some o -> In (k, o) m.
Proof.
  induction m as [|[k' o'] rest IH]; cbn; [discriminate|].
  destruct (String.eqb_spec k' k).
  - intros H; inversion H; subst. now left.
  - intros H. right. auto.
Qed.

Lemma mapSet_all (P : string * TokenObject SwapRoute -> Prop) k v m :
  Forall P m -> P (k, v) -> Forall P (mapSet k v m).
Proof.
  intros Hm Hv. induction Hm as [|[k' o'] rest Hx Hrest IH]; cbn.
  - now constructor.
  - destruct (String.eqb k' k); constructor; auto.
Qed.

(** X13 (the map keeps its type).  As long as inputs name symbols of the
    map and a refresh carries well-typed objects, every state the reducer
    produces is renderable again: its keys are distinct and every object
    has every property the interface declares. *)
Theorem reducer_keeps_renderable state a :
  Renderable state -> Dispatchable state a -> Renderable (reducer state a).
Proof.
  intros Hs Ha.
  destruct state as [error|error enabled m];
    [destruct a; cbn in *; auto|].
  destruct Hs as [Hm Ht].
  destruct (inputUpdate a) as [[sym f]|] eqn:Hin.
  - assert (Hsym : In sym (mapKeys m))
      by (destruct a as [| | |s t v|s r|s v]; try discriminate;
          cbn in Hin, Ha; [destruct t|..]; inversion Hin; subst; exact Ha).
    destruct (mapGet sym m) as [o|] eqn:Ho;
      [|apply mapGet_in in Hsym; congruence].
    rewrite (input_step _ _ _ _ _ _ Hm Hin), Ho. cbn [spread Renderable].
    split.
    + now rewrite mapSet_present.
    + apply typedEntries_all. apply typedEntries_all in Ht.
      apply mapSet_all; [assumption|]. cbn.
      apply (typed_update _ _ _ _ Hin).
      apply mapGet_some_in in Ho.
      rewrite Forall_forall in Ht. exact (Ht _ Ho).
  - destruct a as [|en m2|e|s t v|s r|s v]; try (destruct t); try discriminate.
    + rewrite (clear_step _ _ _ Hm). cbn [Renderable]. split.
      * unfold mapKeys in *. now rewrite map_map.
      * apply typedEntries_all. apply typedEntries_all in Ht.
        apply Forall_map. revert Ht. apply Forall_impl.
        intros [k o]. cbn. apply typed_cleared.
    + exact Ha.
    + cbn. now split.
Qed.


Lemma mapWithIndex_keys state fetched configured : forall k,
  mapKeys (mapWithIndex (tokenStateAt state fetched) k configured)
  = map AToken.aTokenSymbol configured.
Proof.
  unfold mapKeys.
  induction configured as [|x rest IH]; intros k; cbn; [reflexivity|].
  now rewrite IH.
Qed.

Lemma mapWithIndex_get state fetched configured : forall k i x,
  NoDup (map AToken.aTokenSymbol configured) ->
  nth_error configured i = Some x ->
  mapGet (AToken.aTokenSymbol x)
         (mapWithIndex (tokenStateAt state fetched) k configured)
  = Some (snd (tokenStateAt state fetched (k + i) x)).
Proof.
  induction configured as [|y rest IH]; intros k i x Hnd Hi.
  - destruct i; discriminate.
  - cbn [mapWithIndex map] in *. inversion Hnd as [|? ? Hy Hrest]; subst.
    destruct i as [|i]; cbn in Hi.
    + inversion Hi; subst. cbn. rewrite String.eqb_refl.
      now rewrite Nat.add_0_r.
    + cbn [mapGet tokenStateAt fst].
      destruct (String.eqb_spec (AToken.aTokenSymbol y) (AToken.aTokenSymbol x))
        as [Heq|Hne].
      * exfalso. apply Hy. rewrite Heq. apply in_map.
        eapply nth_error_In; eauto.
      * rewrite (IH (S k) i x Hrest Hi). do 3 f_equal. lia.
Qed.

Lemma refresh_entry state configured enabled fetched i x :
  NoDup (map AToken.aTokenSymbol configured) ->
  nth_error configured i = Some x ->
  maybeTokenState (refresh state configured enabled fetched)
                  (AToken.aTokenSymbol x)
  = Some (snd (tokenStateAt state fetched i x)).
Proof.
  intros Hnd Hi. unfold refresh, tokenStates. cbn [reducer maybeTokenState].
  rewrite mapFromEntries_distinct
    by (fold (mapKeys (mapWithIndex (tokenStateAt state fetched) 0 configured));
        now rewrite mapWithIndex_keys).
  now rewrite (mapWithIndex_get _ _ _ 0 i x Hnd Hi).
Qed.

(** X14 (repay inputs outlive a clear).  After
    [ClearRepayAndTransferAmounts] and the next refresh of the account
    state, the entry of a configured aToken shows an empty [transfer], the
    freshly fetched balance, and the repay amounts the user had entered
    before the clear. *)
Theorem repay_inputs_survive_clear error enabled m configured enabled'
    fetched i x o s :
  NoDup (mapKeys m) -> NoDup (map AToken.aTokenSymbol configured) ->
  nth_error configured i = Some x ->
  mapGet (AToken.aTokenSymbol x) m = Some o -> typed o = Some s ->
  let cleared :=
    reducer (StateHydrated error enabled m) ClearRepayAndTransferAmounts in
  exists o',
    maybeTokenState (refresh cleared configured enabled' fetched)
                    (AToken.aTokenSymbol x) = Some o' /\
    o_transfer o' = Some EmptyString /\
    o_repayAmountStable o' = Some (repayAmountStable s) /\
    o_repayAmountVariable o' = Some (repayAmountVariable s) /\
    o_balance o' = nth_error (balances fetched) i.
Proof.
  intros Hm Hnd Hi Ho Hs cleared.
  rewrite (refresh_entry _ _ _ _ _ _ Hnd Hi). eexists. split; [reflexivity|].
  subst cleared. rewrite (clear_step _ _ _ Hm).
  cbn [tokenStateAt snd maybeTokenState o_transfer o_repayAmountStable
       o_repayAmountVariable o_balance].
  rewrite (mapGet_map clearedObject), Ho.
  cbn [option_map textOr withTransfer withRepayAmount o_transfer
       o_repayAmountStable o_repayAmountVariable].
  read_typed o.
  inversion Hs; subst. cbn. repeat split.
Qed.

End ReducerFacts.

(** ** The form and the figures *)

Section FormFacts.
Import Web.
Context {SwapRoute : Type}.
Variable h : Helpers.
Variable cometData : CometData.
Implicit Types (s : ATokenState SwapRoute)
  (aTokens entries : list (string * ATokenState SwapRoute)).

Lemma gtb_false a b : (a >? b) = false -> a <= b.
Proof. rewrite Z.gtb_ltb. apply Z.ltb_ge. Qed.

Lemma gtb_true a b : (a >? b) = true -> b < a.
Proof. rewrite Z.gtb_ltb. apply Z.ltb_lt. Qed.

Lemma collectCollateral_sound entries : forall acc coll,
  collectCollateral h cometData entries acc = Some coll ->
  exists new,
    coll = acc ++ new /\
    Forall (fun item => exists sym s asset,
              In (sym, s) entries /\ v3Asset cometData s = Some asset /\
              ItemWithin h s asset item) new.
Proof.
  induction entries as [|[sym s] rest IH]; intros acc coll H.
  - cbn in H. inversion H; subst. exists []. now rewrite app_nil_r.
  - cbn [collectCollateral] in H.
    assert (Hlift : forall item,
      collectCollateral h cometData rest (acc ++ [item]) = Some coll ->
      (exists asset, v3Asset cometData s = Some asset /\
                     ItemWithin h s asset item) ->
      exists new,
        coll = acc ++ new /\
        Forall (fun item => exists sy s' asset,
                  In (sy, s') ((sym, s) :: rest) /\
                  v3Asset cometData s' = Some asset /\
                  ItemWithin h s' asset item) new).
    { intros item Hrest (asset & Ha & Hi).
      destruct (IH _ _ Hrest) as (new & -> & Hnew).
      exists (item :: new). rewrite <- app_assoc. split; [reflexivity|].
      constructor; [exists sym, s, asset; cbn; auto|].
      revert Hnew. apply Forall_impl. intros it (sy & s' & a' & Hin & Hx).
      exists sy, s', a'. cbn. auto. }
    assert (Hskip :
      collectCollateral h cometData rest acc = Some coll ->
      exists new,
        coll = acc ++ new /\
        Forall (fun item => exists sy s' asset,
                  In (sy, s') ((sym, s) :: rest) /\
                  v3Asset cometData s' = Some asset /\
                  ItemWithin h s' asset item) new).
    { intros Hrest. destruct (IH _ _ Hrest) as (new & -> & Hnew).
      exists new. split; [reflexivity|].
      revert Hnew. apply Forall_impl. intros it (sy & s' & a' & Hin & Hx).
      exists sy, s', a'. cbn. auto. }
    destruct (v3Asset cometData s) as [asset|] eqn:Hasset; [|auto].
    destruct (String.eqb_spec (transfer s) "max") as [Hmax|Hmax].
    + destruct (_ >? _) eqn:Hcap; [discriminate|]. apply gtb_false in Hcap.
      apply (Hlift _ H). exists asset. split; [reflexivity|].
      unfold ItemWithin. cbn. repeat split; try lia. now left.
    + destruct (maybeBigIntFromString _ _ _) as [v|] eqn:Hv; [|discriminate].
      destruct (v >? balance s) eqn:Hbal; [discriminate|].
      destruct (_ >? Asset.supplyCap asset) eqn:Hcap; [discriminate|].
      apply gtb_false in Hbal, Hcap.
      destruct (v >? 0) eqn:Hpos; [|auto]. apply gtb_true in Hpos.
      apply (Hlift _ H). exists asset. split; [reflexivity|].
      unfold ItemWithin. cbn. repeat split; try lia. right. auto.
Qed.

Lemma validateForm_sound aTokens enabled b coll :
  validateForm h cometData aTokens enabled = FormParams b coll ->
  enabled = true /\
  (exists aUSDC,
     mapGet "aUSDC" aTokens = Some aUSDC /\
     borrowBalanceStable aUSDC <> 0 /\
     parseNumber h (repayAmountStable aUSDC)
       (fun n => amountToWei h n (AToken.decimals (aToken aUSDC))) = Some b /\
     (b = MAX_UINT256 /\
      borrowBalanceStable aUSDC
      <= BaseAsset.balanceOfComet (baseAsset cometData) \/
      b <> MAX_UINT256 /\ b <= borrowBalanceStable aUSDC /\
      b <= BaseAsset.balanceOfComet (baseAsset cometData))) /\
  Forall (fun item => exists sym s asset,
            In (sym, s) aTokens /\ v3Asset cometData s = Some asset /\
            ItemWithin h s asset item) coll /\
  v2BorrowValue h aTokens <= v2BorrowCapacity h aTokens /\
  v3BorrowValue h cometData aTokens
  <= v3BorrowCapacityValue h cometData aTokens /\
  hasMigratePosition h aTokens = true.
Proof.
  unfold validateForm. intros H.
  destruct enabled; [|discriminate]. cbn [negb] in H.
  destruct (mapGet "aUSDC" aTokens) as [aUSDC|]; [|discriminate].
  destruct (Z.eqb_spec (borrowBalanceStable aUSDC) 0) as [|Hdebt];
    [discriminate|].
  destruct (parseNumber _ _ _) as [repayAmount|] eqn:Hparse; [|discriminate].
  destruct (_ || _) eqn:Hrange; [discriminate|].
  destruct (collectCollateral _ _ _ _) as [collateral|] eqn:Hcoll;
    [|discriminate].
  destruct (_ || _) eqn:Hcap in H; [discriminate|].
  destruct (hasMigratePosition h aTokens) eqn:Hpos; [|discriminate].
  cbn [negb] in H. inversion H; subst; clear H.
  apply orb_false_iff in Hrange as [Hrange H3].
  apply orb_false_iff in Hrange as [H1 H2].
  apply orb_false_iff in Hcap as [Hc1 Hc2].
  apply gtb_false in Hc1, Hc2.
  split; [reflexivity|]. split.
  - exists aUSDC. repeat split; auto.
    destruct (Z.eqb_spec b MAX_UINT256) as [Hb|Hb]; cbn [negb andb] in *.
    + left. split; [assumption|]. now apply gtb_false.
    + right. split; [assumption|]. split; now apply gtb_false.
  - split; [|auto].
    destruct (collectCollateral_sound _ _ _ Hcoll) as (new & -> & Hnew).
    exact Hnew.
Qed.

(** X15 (what [migrate] is called with).  The component calls
    [migrator.migrate] only from a hydrated state without error whose form
    validates.  Then the migrator is enabled; the user has stable aUSDC
    debt; the borrow amount is what the stable repay input parses to, and
    it is either the maximum with the whole debt within the target's
    liquidity, or within both the debt and that liquidity; every collateral
    item comes from an entry whose token is a collateral asset of the
    target, names its aToken, stays within the user's balance and the
    asset's supply cap, and is the whole balance for ['max'] and positive
    otherwise; and neither position borrows beyond its capacity. *)
Theorem migrate_call_is_validated (state : MigratorState SwapRoute) coll b :
  migrateCall (migrateParams h cometData state) = Some (coll, b) ->
  exists enabled m aTokens,
    state = StateHydrated None enabled m /\
    typedEntries m = Some aTokens /\
    enabled = true /\
    (exists aUSDC,
       mapGet "aUSDC" aTokens = Some aUSDC /\
       borrowBalanceStable aUSDC <> 0 /\
       parseNumber h (repayAmountStable aUSDC)
         (fun n => amountToWei h n (AToken.decimals (aToken aUSDC)))
       = Some b /\
       (b = MAX_UINT256 /\
        borrowBalanceStable aUSDC
        <= BaseAsset.balanceOfComet (baseAsset cometData) \/
        b <> MAX_UINT256 /\ b <= borrowBalanceStable aUSDC /\
        b <= BaseAsset.balanceOfComet (baseAsset cometData))) /\
    Forall (fun item => exists sym s asset,
              In (sym, s) aTokens /\ v3Asset cometData s = Some asset /\
              ItemWithin h s asset item) coll /\
    v2BorrowValue h aTokens <= v2BorrowCapacity h aTokens /\
    v3BorrowValue h cometData aTokens
    <= v3BorrowCapacityValue h cometData aTokens /\
    hasMigratePosition h aTokens = true.
Proof.
  unfold migrateCall, migrateParams. intros H.
  destruct state as [error|error enabled m]; [discriminate|].
  destruct (typedEntries m) as [aTokens|] eqn:Ht; [|discriminate].
  destruct error as [message|]; [discriminate|].
  destruct (validateForm h cometData aTokens enabled) as [b' coll'| |] eqn:Hv;
    try discriminate.
  inversion H; subst; clear H.
  exists enabled, m, aTokens. split; [reflexivity|]. split; [exact Ht|].
  now apply validateForm_sound.
Qed.


Lemma collectCollateral_refuses entries sym s asset :
  In (sym, s) entries -> v3Asset cometData s = Some asset ->
  (if String.eqb (transfer s) "max"
   then Asset.supplyCap asset < Asset.totalSupply asset + balance s
   else match maybeBigIntFromString h (transfer s)
                (AToken.decimals (aToken s)) with
        | Some v => balance s < v \/
                    Asset.supplyCap asset < Asset.totalSupply asset + v
        | None => True
        end) ->
  forall acc, collectCollateral h cometData entries acc = None.
Proof.
  intros Hin Hasset Hbad.
  induction entries as [|[sym' s'] rest IH]; [contradiction|].
  intros acc. cbn [collectCollateral].
  destruct Hin as [Heq|Hin].
  - inversion Heq; subst. rewrite Hasset.
    destruct (String.eqb (transfer s) "max").
    + apply Z.gtb_lt in Hbad. now rewrite Hbad.
    + destruct (maybeBigIntFromString _ _ _) as [v|]; [|reflexivity].
      destruct (Z.gtb_spec v (balance s)); [reflexivity|].
      destruct Hbad as [Hbad|Hbad]; [lia|].
      apply Z.gtb_lt in Hbad. now rewrite Hbad.
  - specialize (IH Hin).
    destruct (v3Asset cometData s'); [|apply IH].
    destruct (String.eqb (transfer s') "max").
    + destruct (_ >? _); [reflexivity|apply IH].
    + destruct (maybeBigIntFromString h (transfer s') _) as [v'|];
        [|reflexivity].
      destruct (v' >? balance s'); [reflexivity|].
      destruct (_ + v' >? _); [reflexivity|].
      destruct (v' >? 0); apply IH.
Qed.

Lemma validateForm_refuses aTokens enabled :
  collectCollateral h cometData aTokens [] = None ->
  validateForm h cometData aTokens enabled = FormUndefined.
Proof.
  intros H. unfold validateForm. rewrite H.
  destruct (negb enabled); [reflexivity|].
  destruct (mapGet _ _); [|reflexivity].
  destruct (_ =? 0); [reflexivity|].
  destruct (parseNumber _ _ _); [|reflexivity].
  destruct (_ || _); reflexivity.
Qed.

(** X16 (a row error blocks the form).  Whenever a collateral row shows an
    input error, the form does not validate: always for an amount above the
    balance, and for the supply cap provided the row finds by symbol the
    asset that validation finds by address. *)
Theorem row_error_blocks_form aTokens enabled sym s err :
  In (sym, s) (collateralWithBalances cometData aTokens) ->
  collateralRowError h cometData s = Some err ->
  fst err = "Amount Exceeds Balance."%string \/
  rowAsset cometData s = v3Asset cometData s ->
  validateForm h cometData aTokens enabled = FormUndefined.
Proof.
  intros Hrow Herr Hsame. unfold collateralWithBalances in Hrow.
  apply filter_In in Hrow as [Hin Hshown]. cbn [snd] in Hshown.
  destruct (v3Asset cometData s) as [asset|] eqn:Hasset; [|discriminate].
  apply validateForm_refuses.
  apply (collectCollateral_refuses _ _ _ _ Hin Hasset).
  unfold collateralRowError in Herr.
  destruct (String.eqb (transfer s) "max").
  - destruct (rowAsset cometData s) as [asset'|] eqn:Hrow; [|discriminate].
    destruct (Z.gtb_spec (balance s + Asset.totalSupply asset')
                         (Asset.supplyCap asset')); [|discriminate].
    inversion Herr; subst. destruct Hsame as [Hsame|Hsame];
      [discriminate|].
    inversion Hsame; subst. lia.
  - destruct (maybeBigIntFromString _ _ _) as [v|]; [|discriminate].
    destruct (Z.gtb_spec v (balance s)); [left; assumption|].
    destruct (rowAsset cometData s) as [asset'|] eqn:Hrow; [|discriminate].
    destruct (Z.gtb_spec (v + Asset.totalSupply asset')
                         (Asset.supplyCap asset')); [|discriminate].
    inversion Herr; subst. destruct Hsame as [Hsame|Hsame];
      [discriminate|].
    inversion Hsame; subst. right. lia.
Qed.


(** *** The figures *)

Lemma sumOver_from {X} (f : X -> Z) xs : forall a,
  fold_left (fun acc x => acc + f x) xs a = a + sumOver f xs.
Proof.
  unfold sumOver. induction xs as [|x rest IH]; intros a; cbn; [lia|].
  rewrite (IH (a + f x)), (IH (f x)). lia.
Qed.

Lemma sumOver_cons {X} (f : X -> Z) x xs :
  sumOver f (x :: xs) = f x + sumOver f xs.
Proof. unfold sumOver at 1. cbn. now rewrite sumOver_from. Qed.

Lemma capped_within maybe whole :
  0 <= whole -> (forall v, maybe = Some v -> 0 <= v) ->
  0 <= capped maybe whole <= whole.
Proof.
  intros Hw Hv. unfold capped. destruct maybe as [v|]; [|lia].
  specialize (Hv v eq_refl). destruct (Z.gtb_spec v whole); lia.
Qed.

Lemma entered_nonneg s text whole :
  Sane h s -> 0 <= whole ->
  forall v, entered h text whole (AToken.decimals (aToken s)) = Some v ->
            0 <= v.
Proof.
  intros (_ & _ & _ & _ & _ & Hparse) Hw v. unfold entered.
  destruct (String.eqb text "max").
  - intros H; inversion H; subst; assumption.
  - apply Hparse.
Qed.

Lemma transferBigInt_within s :
  Sane h s -> 0 <= transferBigInt h s <= balance s.
Proof.
  intros Hs. unfold transferBigInt.
  apply capped_within; [apply Hs|]. apply entered_nonneg; [assumption|apply Hs].
Qed.

Lemma repay_within s :
  Sane h s ->
  0 <= repayAmountStableBigInt h s <= borrowBalanceStable s /\
  0 <= repayAmountVariableBigInt h s <= borrowBalanceVariable s.
Proof.
  intros Hs. unfold repayAmountStableBigInt, repayAmountVariableBigInt.
  split; (apply capped_within; [apply Hs|]);
    (apply entered_nonneg; [assumption|apply Hs]).
Qed.

(** Splitting an amount before the truncating division loses less than
    one unit. *)
Lemma bigDiv_split whole part p sc :
  0 <= part <= whole -> 0 <= p -> 0 < sc ->
  0 <= bigDiv ((whole - part) * p) sc /\
  0 <= bigDiv (part * p) sc /\
  bigDiv ((whole - part) * p) sc + bigDiv (part * p) sc
  <= bigDiv (whole * p) sc
  <= bigDiv ((whole - part) * p) sc + bigDiv (part * p) sc + 1.
Proof.
  intros Hpart Hp Hsc. unfold bigDiv.
  assert (Ha : 0 <= (whole - part) * p) by nia.
  assert (Hb : 0 <= part * p) by nia.
  assert (Hw : whole * p = (whole - part) * p + part * p) by lia.
  rewrite Hw. rewrite !Z.quot_div_nonneg by lia.
  set (a := (whole - part) * p) in *. set (b := part * p) in *.
  pose proof (Z.div_mod a sc ltac:(lia)) as Da.
  pose proof (Z.div_mod b sc ltac:(lia)) as Db.
  pose proof (Z.div_mod (a + b) sc ltac:(lia)) as Dab.
  pose proof (Z.mod_pos_bound a sc Hsc) as Ma.
  pose proof (Z.mod_pos_bound b sc Hsc) as Mb.
  pose proof (Z.mod_pos_bound (a + b) sc Hsc) as Mab.
  pose proof (Z.div_pos a sc Ha Hsc). pose proof (Z.div_pos b sc Hb Hsc).
  repeat split; try assumption; nia.
Qed.

(** X17 (the collateral value splits).  With sane figures, the collateral
    value left on the source protocol and the value being migrated are not
    negative, and together they never exceed the value of all collateral
    and fall short of it by less than one unit per token: the truncating
    division is applied to each part. *)
Theorem collateral_value_is_split aTokens :
  Forall (fun e => Sane h (snd e)) aTokens ->
  0 <= v2CollateralValue h aTokens /\
  0 <= v2ToV3MigrateCollateralValue h aTokens /\
  v2CollateralValue h aTokens + v2ToV3MigrateCollateralValue h aTokens
  <= v2CollateralTotal h aTokens
  <= v2CollateralValue h aTokens + v2ToV3MigrateCollateralValue h aTokens
     + Z.of_nat (length aTokens).
Proof.
  unfold v2CollateralValue, v2ToV3MigrateCollateralValue, v2CollateralTotal.
  induction 1 as [|[sym s] rest Hs _ IH].
  - unfold sumOver. cbn. lia.
  - rewrite !sumOver_cons. cbn [snd length]. cbv zeta.
    pose proof (transferBigInt_within s Hs) as Ht.
    destruct Hs as (Hb & _ & _ & Hp & Hsc & _).
    pose proof (bigDiv_split (balance s) (transferBigInt h s) (price s)
                             (scale h s) Ht Hp Hsc).
    lia.
Qed.

(** X18 (the borrow value splits).  With sane figures, the debt left on
    the source protocol and the debt being migrated are not negative, and
    together they never exceed the value of all debt and fall short of it
    by less than one unit per token. *)
Theorem borrow_value_is_split aTokens :
  Forall (fun e => Sane h (snd e)) aTokens ->
  0 <= v2BorrowValue h aTokens /\
  0 <= v2ToV3MigrateBorrowValue h aTokens /\
  v2BorrowValue h aTokens + v2ToV3MigrateBorrowValue h aTokens
  <= v2BorrowTotal h aTokens
  <= v2BorrowValue h aTokens + v2ToV3MigrateBorrowValue h aTokens
     + Z.of_nat (length aTokens).
Proof.
  unfold v2BorrowValue, v2ToV3MigrateBorrowValue, v2BorrowTotal.
  induction 1 as [|[sym s] rest Hs _ IH].
  - unfold sumOver. cbn. lia.
  - rewrite !sumOver_cons. cbn [snd length]. cbv zeta.
    destruct (repay_within s Hs) as [Hrs Hrv].
    destruct Hs as (_ & Hbs & Hbv & Hp & Hsc & _).
    pose proof (bigDiv_split
                  (borrowBalanceStable s + borrowBalanceVariable s)
                  (repayAmountStableBigInt h s + repayAmountVariableBigInt h s)
                  (price s) (scale h s) ltac:(lia) Hp Hsc) as Hsplit.
    replace (borrowBalanceStable s + borrowBalanceVariable s
             - repayAmountStableBigInt h s - repayAmountVariableBigInt h s)
      with (borrowBalanceStable s + borrowBalanceVariable s
            - (repayAmountStableBigInt h s + repayAmountVariableBigInt h s))
      by lia.
    lia.
Qed.


(** *** Messages *)

(** X19 (the one message).  The only message [validateForm] answers is
    "Insufficient Collateral", and it does so only after every input has
    passed its own checks, when one of the two positions would borrow
    beyond its capacity. *)
Theorem form_message_is_insufficient_collateral aTokens enabled message :
  validateForm h cometData aTokens enabled = FormMessage message ->
  message = "Insufficient Collateral"%string /\
  collectCollateral h cometData aTokens [] <> None /\
  (v2BorrowCapacity h aTokens < v2BorrowValue h aTokens \/
   v3BorrowCapacityValue h cometData aTokens
   < v3BorrowValue h cometData aTokens).
Proof.
  unfold validateForm. intros H.
  destruct (negb enabled); [discriminate|].
  destruct (mapGet _ _); [|discriminate].
  destruct (_ =? 0); [discriminate|].
  destruct (parseNumber _ _ _); [|discriminate].
  destruct (_ || _); [discriminate|].
  destruct (collectCollateral _ _ _ _); [|discriminate].
  destruct (_ || _) eqn:Hcap;
    [|destruct (negb _); discriminate].
  inversion H; subst. split; [reflexivity|]. split; [discriminate|].
  apply orb_true_iff in Hcap as [Hc|Hc]; apply gtb_true in Hc; auto.
Qed.

(** X20 (an error lasts until the next action).  Once an error is set, the
    button shows it and [migrate] calls nothing, whatever the form holds;
    every action other than [SetError] yields a hydrated state without
    error. *)
Theorem error_lasts_until_next_action error enabled
    (m : JsMap (TokenObject SwapRoute)) aTokens :
  typedEntries m = Some aTokens ->
  (forall e,
     migrateParams h cometData
       (reducer (StateHydrated error enabled m) (SetError e))
     = Some (FormMessage e) /\
     migrateCall (migrateParams h cometData
                    (reducer (StateHydrated error enabled m) (SetError e)))
     = None) /\
  (forall a, (forall e, a <> SetError e) ->
     exists enabled' m',
       reducer (StateHydrated error enabled m) a
       = StateHydrated None enabled' m').
Proof.
  intros Ht. split.
  - intros e. cbn. rewrite Ht. split; reflexivity.
  - intros a Ha. destruct a as [|en m2|e|sy ty va|sy ro|sy va]; cbn; eauto.
    now destruct (Ha e).
Qed.

End FormFacts.

(** * Scenarios *)

(** Scenario A of the specification, on the ledgers. *)
Example scenario_A :
  failure (snd runA) = None /\
  borrowBalance (ledger (commit (migrate envHonest USER collateralA planA USDC)
                                (idleWorld 1000))) CUSDC USER = 0 /\
  collect selWithdraw (fst runA) = [(USER, ME, USDC, 1003)] /\
  collect selSupply (fst runA) = [(USER, WBTC)] /\
  cometBalance (ledger (commit (migrate envHonest USER collateralA planA USDC)
                               (idleWorld 1000))) USER WBTC = 500 /\
  cometBalance (ledger (commit (migrate envHonest USER collateralA planA USDC)
                               (idleWorld 1000))) USER USDC = -1003.
Proof. vm_compute. repeat split; reflexivity. Qed.

Lemma guard_discipline_witness :
  inMigration (commit (migrate envHonest USER collateralA planA USDC)
                      (idleWorld 1000)) = 0 /\
  migrate envHonest USER collateralA planA USDC midLoanWorld
  = ([], Revert (Reentrancy 0)).
Proof.
  split.
  - apply (proj1 (proj2 (guard_discipline envHonest USER collateralA planA
                                          USDC (idleWorld 1000)))).
    reflexivity.
  - apply (proj2 (proj2 (guard_discipline envHonest USER collateralA planA
                                          USDC midLoanWorld))).
    discriminate.
Defined.

(** C3: a migration with one swap leg repays 1000 and succeeds, yet borrows
    500 from the target protocol, which is not 1000 plus any fee. *)
Lemma settlement_total_counterexample :
  failure (snd runSwap) = None /\
  map borrowAmount planSwap = [1000] /\
  ~ exists fee, 0 <= fee /\
      collect selWithdraw (fst runSwap) = [(USER, ME, USDC, 1000 + fee)].
Proof.
  split; [vm_compute; reflexivity|]. split; [reflexivity|].
  intros (fee & Hfee & H).
  assert (Hw : collect selWithdraw (fst runSwap) = [(USER, ME, USDC, 500)])
    by (vm_compute; reflexivity).
  rewrite Hw in H. assert (500 = 1000 + fee) by congruence. lia.
Qed.

(** C1: scenario A with the 500 cWBTC asked for as 300 and then the rest.
    The user is an outsider and the contract holds no cWBTC or WBTC when it
    settles; 300 and 200 cWBTC are pulled and none is left to the user, 300
    and 200 WBTC are supplied, and the user's position ends at 500 WBTC and
    a debt of 1003 USDC. *)
Lemma migrate_all_or_nothing_witness :
  Outsider envHonest USER planA /\
  Unheld envHonest collateralTwice
         (settlementLedger envHonest USER collateralTwice planA USDC
                           (ledgerWith 1000)) /\
  let w' := commit (migrate envHonest USER collateralTwice planA USDC)
                   (idleWorld 1000) in
  collect selPulled (fst runTwice)
  = [(CWBTC, USER, ME, 300); (CWBTC, USER, ME, 200)] /\
  balanceOf (ledger w') CWBTC USER = 0 /\
  collect selSupplied (fst runTwice)
  = [(USER, WBTC, 300); (USER, WBTC, 200)] /\
  cometBalance (ledger w') USER WBTC = 500 /\
  cometBalance (ledger w') USER USDC = -1003.
Proof.
  assert (Hout : Outsider envHonest USER planA).
  { repeat split; try discriminate. repeat constructor; discriminate. }
  assert (Hun : Unheld envHonest collateralTwice
                  (settlementLedger envHonest USER collateralTwice planA USDC
                                    (ledgerWith 1000))).
  { repeat constructor; try discriminate; try (vm_compute; reflexivity);
      intros H; vm_compute in H; discriminate. }
  split; [exact Hout|]. split; [exact Hun|].
  destruct (migrate_all_or_nothing envHonest USER collateralTwice planA USDC
              (idleWorld 1000))
    as [(w' & _ & Hc & _ & _ & _ & _ & _ & _ & _ & _ & Hmoves)|(e & He & _)];
    [|vm_compute in He; discriminate].
  cbv zeta. rewrite Hc.
  destruct (Hmoves Hout) as (Hp & Hb & Hs).
  destruct Hs as (Hs & Hpos);
    [discriminate|discriminate|exact Hun|].
  unfold runTwice. rewrite Hp, Hb, Hs, !Hpos.
  vm_compute. repeat split; reflexivity.
Defined.

Lemma settlement_total_witness :
  collect selWithdraw (fst runB) = [(USER, ME, USDC, 1405)] /\
  owedSum envHonest planB = feeInclusiveSum envHonest planB.
Proof.
  assert (Hrun : snd (migrate envHonest USER [] planB USDC (idleWorld 1400))
                 = Ok (tt, commit (migrate envHonest USER [] planB USDC)
                                  (idleWorld 1400)))
    by (vm_compute; reflexivity).
  pose proof (settlement_total envHonest USER [] planB USDC (idleWorld 1400)
                               _ Hrun) as (Hw & _ & Hsum).
  split; [exact Hw|].
  apply Hsum. repeat constructor.
Defined.

(** C4: the second leg of [planSentinel] is at the sentinel.  Its debt is
    read once, as the very first call, when the user owes 1400; step 1 then
    tries to repay 1400 although step 0 has repaid 1000 and the market shows
    400 by then, so the market reverts. *)
Lemma sentinel_resolution_counterexample :
  hd_error (fst runSentinel) = Some (CallBorrowBalanceCurrent CUSDC USER) /\
  collect selRead (fst runSentinel) = [(CUSDC, USER)] /\
  collect selStep (fst runSentinel) = [0; 1] /\
  collect selRepay (fst runSentinel)
    = [(CUSDC, USER, 1000); (CUSDC, USER, 1400)] /\
  (exists before l1 l2,
     pool_lend envHonest POOL1 ME 1000 0 (ledgerWith 1400) = Ok (before, l1) /\
     ctoken_repayBorrowBehalf envHonest CUSDC USER 1000 l1 = Ok (0, l2) /\
     borrowBalance l2 CUSDC USER = 400) /\
  snd runSentinel = Revert (CollaboratorRevert CUSDC).
Proof.
  repeat split; try (vm_compute; reflexivity).
  eexists _, _, _. repeat split; vm_compute; reflexivity.
Qed.

Lemma sentinel_resolution_witness :
  (forall c u a,
     In (c, u, a) (collect selRepay (fst runB)) ->
     exists b, In b planB /\ c = borrowCToken b /\ u = USER /\
               a = if borrowAmount b =? MAX_UINT256
                   then borrowBalance (ledgerWith 1400) (borrowCToken b) USER
                   else borrowAmount b) /\
  exists t2,
    fst (migrateCollateral envHonest USER collateralTwice 0 (idleWorld 0))
    = [CallTransferFrom CWBTC USER ME 300; CallRedeem CWBTC 300;
       CallApprove WBTC COMET MAX_UINT256; CallSupplyTo USER WBTC 300]
      ++ CallTransferFrom CWBTC USER ME 200 :: t2.
Proof.
  split.
  - apply (proj1 (sentinel_resolution envHonest USER [] planB USDC
                                      (idleWorld 1400))).
    reflexivity.
  - apply (proj2 (sentinel_resolution envHonest USER [] planB USDC
                                      (idleWorld 1400))
                 [mkCollateral CWBTC 300] (mkCollateral CWBTC MAX_UINT256) []
                 (idleWorld 0) _
                 (commit (migrateCollateral envHonest USER
                            [mkCollateral CWBTC 300] 0) (idleWorld 0))).
    vm_compute. reflexivity.
Defined.

(** C5 (callback authorization), on an input where the code lets the call
    through.  While the migration of scenario A is under way -- the guard is
    engaged and the contract holds the 1000 USDC that POOL1 lent for step 0
    -- an intruder calls the loan callback with data that name the intruder
    itself as the venue of step 0.  The caller check passes, since it reads
    the venue from these data: the call goes through, repays the user's debt
    with the loaned funds, withdraws 1003 USDC from the user's account in
    the target protocol and hands them to the intruder.  The swap callback
    lets the same through: called with a delta of 700 while the swap leg of
    1000 DAI is under way, it withdraws 700 USDC and hands them over. *)
Theorem forged_callback_accepted :
  let loanCall := uniswapV3FlashCallback envHonest (flashLoanOrSwap envHonest 2)
                                         INTRUDER 3 0 forgedData in
  let swapCall := uniswapV3SwapCallback envHonest (flashLoanOrSwap envHonest 2)
                                        INTRUDER 700 0 forgedSwapData in
  INTRUDER <> pool (loan 1000 POOL1) /\
  INTRUDER <> POOL3 /\
  inMigration midLoanWorld = 1 /\
  inMigration midSwapWorld = 1 /\
  failure (snd (loanCall midLoanWorld)) = None /\
  fst (loanCall midLoanWorld)
  = [CallApprove USDC CUSDC MAX_UINT256;
     CallRepayBorrowBehalf CUSDC USER 1000;
     CallWithdrawFrom USER ME USDC 1003;
     EmitMigrated USER [] 0 1003;
     CallTransfer USDC INTRUDER 1003] /\
  cometBalance (ledger (commit loanCall midLoanWorld)) USER USDC
  = cometBalance (ledger midLoanWorld) USER USDC - 1003 /\
  balanceOf (ledger (commit loanCall midLoanWorld)) USDC INTRUDER
  = balanceOf (ledger midLoanWorld) USDC INTRUDER + 1003 /\
  failure (snd (swapCall midSwapWorld)) = None /\
  fst (swapCall midSwapWorld)
  = [CallApprove DAI CDAI MAX_UINT256;
     CallRepayBorrowBehalf CDAI USER 1000;
     CallWithdrawFrom USER ME USDC 700;
     EmitMigrated USER [] 0 700;
     CallTransfer USDC INTRUDER 700] /\
  cometBalance (ledger (commit swapCall midSwapWorld)) USER USDC
  = cometBalance (ledger midSwapWorld) USER USDC - 700 /\
  balanceOf (ledger (commit swapCall midSwapWorld)) USDC INTRUDER
  = balanceOf (ledger midSwapWorld) USDC INTRUDER + 700.
Proof.
  cbv zeta. split; [vm_compute; discriminate|].
  split; [vm_compute; discriminate|].
  repeat split; vm_compute; reflexivity.
Qed.

(** C6: the swap callback of a leg that repays 1000 returns after paying
    the venue 500, which is not 1000 plus any fee. *)
Lemma venue_is_paid_its_leg_counterexample :
  let o := uniswapV3SwapCallback envHonest (flashLoanOrSwap envHonest 2)
             POOL3 (-1000) 500 (dataFor planSwap) midSwapWorld in
  failure (snd o) = None /\
  map borrowAmount planSwap = [1000] /\
  last (fst o) (CallSend 0 0) = CallTransfer USDC POOL3 500 /\
  ~ exists fee, 0 <= fee /\
      last (fst o) (CallSend 0 0) = CallTransfer USDC POOL3 (1000 + fee).
Proof.
  intros o. split; [vm_compute; reflexivity|]. split; [reflexivity|].
  assert (Hl : last (fst o) (CallSend 0 0) = CallTransfer USDC POOL3 500)
    by (vm_compute; reflexivity).
  split; [exact Hl|].
  intros (fee & Hfee & H). rewrite Hl in H.
  assert (500 = 1000 + fee) by congruence. lia.
Qed.

Lemma venue_is_paid_its_leg_witness :
  exists b pre,
    lookup planA 0 = Some b /\ POOL1 = pool b /\
    fst (uniswapV3FlashCallback envHonest (flashLoanOrSwap envHonest 2)
           POOL1 3 0 (dataFor planA) midLoanWorld)
    = pre ++ [CallTransfer (underlying envHonest (borrowCToken b)) POOL1
                (borrowAmount b + (if isPoolToken0 envHonest b then 3 else 0))].
Proof.
  destruct (proj1 (venue_is_paid_its_leg envHonest
                     (flashLoanOrSwap envHonest 2) POOL1 3 0 (dataFor planA)
                     midLoanWorld
                     (commit (uniswapV3FlashCallback envHonest
                                (flashLoanOrSwap envHonest 2) POOL1 3 0
                                (dataFor planA)) midLoanWorld)))
    as (b & pre & H1 & H2 & H3 & _).
  - vm_compute. reflexivity.
  - exists b, pre. auto.
Defined.

(** C7: the refusal happens in step 1, yet the error carries location 0. *)
Lemma source_market_refusal_counterexample :
  collect selStep (fst runRefused) = [0; 1] /\
  last (fst runRefused) (CallSend 0 0) = CallRepayBorrowBehalf CUSDC USER 400 /\
  repayCode envRefusing CUSDC USER 400 = 7 /\
  snd runRefused = Revert (CompoundV2Error 0 7) /\
  snd runRefused <> Revert (CompoundV2Error 1 7).
Proof.
  assert (H : snd runRefused = Revert (CompoundV2Error 0 7))
    by (vm_compute; reflexivity).
  repeat split; try (vm_compute; reflexivity); try exact H.
  rewrite H. discriminate.
Qed.

Lemma source_market_refusal_witness :
  snd runRefused = Revert (CompoundV2Error 0 7).
Proof.
  apply (source_market_refusal envRefusing USER [] planB USDC (idleWorld 1400)
                               CUSDC USER 400).
  - vm_compute. right. left. reflexivity.
  - vm_compute. discriminate.
Defined.

Lemma steps_in_plan_order_witness :
  collect selStep (fst runB) = upFrom 0 2.
Proof.
  destruct (proj1 (steps_in_plan_order envHonest USER [] planB USDC
                                       (idleWorld 1400)))
    as (m & _ & Hs & Hm).
  rewrite (Hm (commit (migrate envHonest USER [] planB USDC) (idleWorld 1400)))
    in Hs.
  - exact Hs.
  - vm_compute. reflexivity.
Defined.

Lemma sweep_discipline_witness :
  sweep envHonest OTHER midLoanWorld = ([], Revert (Reentrancy 2)) /\
  fst (sweep envHonest OTHER (idleWorld 0)) = [CallTransfer OTHER SWEEPEE 7] /\
  balanceOf (ledger (commit (sweep envHonest OTHER) (idleWorld 0))) OTHER ME = 0 /\
  balanceOf (ledger (commit (sweep envHonest OTHER) (idleWorld 0))) OTHER SWEEPEE
  = 7.
Proof.
  pose proof (sweep_discipline envHonest OTHER midLoanWorld) as (H1 & _ & _).
  pose proof (sweep_discipline envHonest OTHER (idleWorld 0)) as (_ & H2 & H3).
  split; [apply H1; discriminate|].
  split; [rewrite (H2 eq_refl); reflexivity|].
  apply (H3 (commit (sweep envHonest OTHER) (idleWorld 0)));
    [vm_compute; reflexivity|discriminate].
Defined.

(** ** Further scenarios on the contract *)

Lemma collateral_items_bounded_witness : (length collateralA <= 255)%nat.
Proof.
  apply (collateral_items_bounded envHonest USER collateralA planA USDC
           (idleWorld 1000)
           (commit (migrate envHonest USER collateralA planA USDC)
                   (idleWorld 1000))).
  vm_compute. reflexivity.
Defined.

Lemma redeem_refusal_location_witness :
  migrateCollateralAndBorrow envNoRedeem settleData 1003 (idleWorld 0)
  = ([CallTransferFrom CWBTC USER ME 300; CallRedeem CWBTC 300],
     Revert (CompoundV2Error 1 9)).
Proof.
  apply (redeem_refusal_location envNoRedeem settleData 1003 []
           (mkCollateral CWBTC 300) [] (idleWorld 0) [] (idleWorld 0)
           (move CWBTC USER ME 300 (ledgerWith 0))).
  - reflexivity.
  - reflexivity.
  - vm_compute. reflexivity.
  - vm_compute. discriminate.
Defined.

Lemma ctoken_transfer_refusal_witness :
  migrateCollateralAndBorrow envHonest
    (mkData USER planA [mkCollateral CWBTC 600] USDC 0 0) 1003 (idleWorld 0)
  = ([CallTransferFrom CWBTC USER ME 600], Revert CTokenTransferFailure).
Proof.
  apply (ctoken_transfer_refusal envHonest
           (mkData USER planA [mkCollateral CWBTC 600] USDC 0 0) 1003 []
           (mkCollateral CWBTC 600) [] (idleWorld 0) [] (idleWorld 0)).
  - reflexivity.
  - reflexivity.
  - right. vm_compute. reflexivity.
Defined.

Lemma settlement_keeps_nothing_witness :
  balanceOf (ledger (commit (migrateCollateralAndBorrow envHonest settleData
                               1003) strayWorld)) CWBTC ME = 0 /\
  balanceOf (ledger (commit (migrateCollateralAndBorrow envHonest settleData
                               1003) strayWorld)) WBTC ME = 0.
Proof.
  destruct (settlement_keeps_nothing envHonest settleData 1003 strayWorld
              (fst (migrateCollateralAndBorrow envHonest settleData 1003
                      strayWorld))
              (commit (migrateCollateralAndBorrow envHonest settleData 1003)
                      strayWorld)) as [H _].
  - vm_compute. discriminate.
  - vm_compute. discriminate.
  - vm_compute. reflexivity.
  - exact (H (mkCollateral CWBTC 300) (or_introl eq_refl)).
Defined.

Lemma pass_supplies_whole_balance_witness :
  In (CallSupplyTo USER WBTC 307)
     (fst (migrateOne envHonest USER (mkCollateral CWBTC 300) 0 strayWorld)) /\
  cometBalance (ledger (commit (migrateOne envHonest USER
                                  (mkCollateral CWBTC 300) 0) strayWorld))
               USER WBTC = 307.
Proof.
  apply (pass_supplies_whole_balance envHonest USER (mkCollateral CWBTC 300)
           0 strayWorld _ 1
           (commit (migrateOne envHonest USER (mkCollateral CWBTC 300) 0)
                   strayWorld)).
  - vm_compute. discriminate.
  - vm_compute. discriminate.
  - vm_compute. discriminate.
  - vm_compute. discriminate.
  - vm_compute. reflexivity.
Defined.


Lemma collateral_before_borrow_witness :
  (exists t1,
     fst runA = t1 ++ [CallWithdrawFrom USER ME USDC 1003;
                       EmitMigrated USER collateralA 0 1003;
                       CallTransfer USDC POOL1 1003] /\
     collect selSupply t1 = [(USER, WBTC)] /\
     collect selWithdraw t1 = []) /\
  collect selMigrated (fst runA) = [(USER, collateralA, 0, 1003)].
Proof.
  destruct (collateral_before_borrow envHonest USER collateralA planA USDC
              (idleWorld 1000)
              (commit (migrate envHonest USER collateralA planA USDC)
                      (idleWorld 1000))) as (H1 & _ & H2).
  - vm_compute. reflexivity.
  - split; [exact H1|exact H2].
Defined.

Lemma callbacks_closed_witness :
  uniswapV3FlashCallback envHonest (flashLoanOrSwap envHonest 1) POOL1 3 0
                         (dataFor planA) (idleWorld 1000)
  = ([], Revert (Reentrancy 1)) /\
  uniswapV3SwapCallback envHonest (flashLoanOrSwap envHonest 1) POOL1 3 0
                        (dataFor []) midLoanWorld
  = ([], Revert (Panic PANIC_INDEX)).
Proof.
  split.
  - apply (proj1 (callbacks_closed envHonest (flashLoanOrSwap envHonest 1)
                    POOL1 3 0 (dataFor planA) (idleWorld 1000))).
    apply reach_deployed.
  - apply (proj2 (callbacks_closed envHonest (flashLoanOrSwap envHonest 1)
                    POOL1 3 0 (dataFor []) midLoanWorld)); reflexivity.
Defined.

Lemma venues_repaid_in_reverse_witness :
  collect selTransfer (fst runB)
  = [(USDC, POOL2, 402); (USDC, POOL1, 1003)].
Proof.
  apply (venues_repaid_in_reverse envHonest USER [] planB USDC (idleWorld 1400)
           (commit (migrate envHonest USER [] planB USDC) (idleWorld 1400))).
  vm_compute. reflexivity.
Defined.

Lemma borrowed_equals_paid_witness :
  Forall (fun b => legToken envHonest b = USDC) planB /\
  collect selWithdraw (fst runB)
  = [(USER, ME, USDC, paidIn USDC [(USDC, POOL2, 402); (USDC, POOL1, 1003)])].
Proof.
  assert (Hbase : Forall (fun b => legToken envHonest b = USDC) planB)
    by (repeat constructor).
  assert (Hrun : snd (migrate envHonest USER [] planB USDC (idleWorld 1400))
                 = Ok (tt, commit (migrate envHonest USER [] planB USDC)
                                  (idleWorld 1400)))
    by (vm_compute; reflexivity).
  split; [exact Hbase|].
  unfold runB.
  rewrite (proj2 (borrowed_equals_paid envHonest USER [] planB USDC
                    (idleWorld 1400) _ Hbase Hrun)).
  vm_compute. reflexivity.
Defined.

(** ** Scenarios on the front end *)

Local Open Scope string_scope.

Lemma demoMap_distinct transfer : NoDup (Web.mapKeys (demoMap transfer)).
Proof.
  repeat constructor; cbn; [intros [H|[]]; discriminate|tauto].
Qed.

Lemma input_writes_one_property_witness :
  exists m',
    Web.reducer (Web.StateHydrated (Some "oops") true (demoMap "max"))
                (Web.SetTransferForAToken "aWETH" "2")
    = Web.StateHydrated None true m' /\
    Web.mapKeys m' = ["aUSDC"; "aWETH"] /\
    Web.mapGet "aWETH" m' = Some (Web.objectOf (stateWETH "2")) /\
    forall k, k <> "aWETH" -> Web.mapGet k m' = Web.mapGet k (demoMap "max").
Proof.
  apply (input_writes_one_property (Some "oops") true (demoMap "max")
           (Web.SetTransferForAToken "aWETH" "2") "aWETH"
           (Web.withTransfer "2") (Web.objectOf (stateWETH "max"))
           (demoMap_distinct "max") eq_refl eq_refl).
Defined.

Lemma input_for_unknown_symbol_witness :
  let appended :=
    (demoMap "max" ++ [("aDAI", Web.withTransfer "2" Web.emptyObject)])%list in
  Web.reducer (demoState "max") (Web.SetTransferForAToken "aDAI" "2")
  = Web.StateHydrated None true appended /\
  Web.typedEntries appended = None.
Proof.
  apply (input_for_unknown_symbol None true (demoMap "max")
           (Web.SetTransferForAToken "aDAI" "2") "aDAI"
           (Web.withTransfer "2") (demoMap_distinct "max") eq_refl eq_refl).
Defined.

Lemma clear_keeps_repay_amounts_witness :
  exists m',
    Web.reducer (demoState "max") Web.ClearRepayAndTransferAmounts
    = Web.StateHydrated None true m' /\
    Web.mapKeys m' = ["aUSDC"; "aWETH"] /\
    exists o',
      Web.mapGet "aUSDC" m' = Some o' /\
      Web.o_repayAmountStable o' = Some "100".
Proof.
  destruct (clear_keeps_repay_amounts None true (demoMap "max")
              (demoMap_distinct "max")) as (m' & H1 & H2 & H3).
  exists m'. split; [exact H1|]. split; [exact H2|].
  destruct (H3 "aUSDC" (Web.objectOf stateUSDC) eq_refl)
    as (o' & Ho & _ & _ & Hs & _).
  exists o'. split; [exact Ho|exact Hs].
Defined.

Lemma reducer_keeps_renderable_witness :
  Web.Renderable (Web.reducer (demoState "max")
                              (Web.SetRepayAmount "aUSDC" Web.variable "7")).
Proof.
  apply (reducer_keeps_renderable (demoState "max")
           (Web.SetRepayAmount "aUSDC" Web.variable "7")).
  - split; [apply demoMap_distinct|vm_compute; discriminate].
  - cbn. auto.
Defined.

Lemma repay_inputs_survive_clear_witness :
  exists o',
    Web.maybeTokenState
      (Web.refresh (Web.reducer (demoState "max")
                                Web.ClearRepayAndTransferAmounts)
                   [tokenUSDC; tokenWETH] true demoFetched) "aUSDC"
    = Some o' /\
    Web.o_transfer o' = Some EmptyString /\
    Web.o_repayAmountStable o' = Some "100" /\
    Web.o_repayAmountVariable o' = Some EmptyString /\
    Web.o_balance o' = Some 0.
Proof.
  apply (repay_inputs_survive_clear None true (demoMap "max")
           [tokenUSDC; tokenWETH] true demoFetched 0 tokenUSDC
           (Web.objectOf stateUSDC) stateUSDC (demoMap_distinct "max")).
  - repeat constructor; cbn; [intros [H|[]]; discriminate|tauto].
  - reflexivity.
  - reflexivity.
  - reflexivity.
Defined.

Lemma migrate_call_is_validated_witness :
  Web.migrateCall (Web.migrateParams demoHelpers demoComet (demoState "max"))
  = Some ([Web.Collateral.mk "0xaweth" (5 * 10 ^ 18)], 100 * 10 ^ 6) /\
  exists enabled m aTokens,
    demoState "max" = Web.StateHydrated None enabled m /\
    Web.typedEntries m = Some aTokens /\
    Web.v3BorrowValue demoHelpers demoComet aTokens
    <= Web.v3BorrowCapacityValue demoHelpers demoComet aTokens.
Proof.
  assert (Hcall : Web.migrateCall
                    (Web.migrateParams demoHelpers demoComet (demoState "max"))
                  = Some ([Web.Collateral.mk "0xaweth" (5 * 10 ^ 18)],
                          100 * 10 ^ 6))
    by (vm_compute; reflexivity).
  split; [exact Hcall|].
  destruct (migrate_call_is_validated demoHelpers demoComet (demoState "max")
              _ _ Hcall)
    as (enabled & m & aTokens & H1 & H2 & _ & _ & _ & _ & H3 & _).
  exists enabled, m, aTokens. auto.
Defined.

Lemma row_error_blocks_form_witness :
  Web.collateralRowError demoHelpers demoComet (stateWETH "7")
  = Some ("Amount Exceeds Balance.", "Value must be less than or equal to ") /\
  Web.validateForm demoHelpers demoComet
    [("aUSDC", stateUSDC); ("aWETH", stateWETH "7")] true
  = Web.FormUndefined.
Proof.
  split; [vm_compute; reflexivity|].
  apply (row_error_blocks_form demoHelpers demoComet
           [("aUSDC", stateUSDC); ("aWETH", stateWETH "7")] true "aWETH"
           (stateWETH "7")
           ("Amount Exceeds Balance.", "Value must be less than or equal to ")).
  - vm_compute. auto.
  - vm_compute. reflexivity.
  - left. reflexivity.
Defined.

Lemma demo_sane transfer s :
  In s [stateUSDC; stateWETH transfer] -> Web.Sane demoHelpers s.
Proof.
  intros Hin. unfold Web.Sane. repeat split.
  1-4: destruct Hin as [<-|[<-|[]]]; vm_compute; discriminate.
  - destruct Hin as [<-|[<-|[]]]; vm_compute; reflexivity.
  - intros text v. unfold demoHelpers. cbn [Web.maybeBigIntFromString].
    assert (Hsome : forall a b : Z, Some a = Some b -> a = b)
      by (intros a b Hab; congruence).
    repeat (destruct (String.eqb text _)); intros H;
      try discriminate H; apply Hsome in H; subst v;
      (apply Z.mul_nonneg_nonneg; [lia|apply Z.pow_nonneg; lia]).
Qed.

Lemma collateral_value_is_split_witness :
  let aTokens := [("aUSDC", stateUSDC); ("aWETH", stateWETH "2")] in
  Web.v2CollateralValue demoHelpers aTokens
  + Web.v2ToV3MigrateCollateralValue demoHelpers aTokens
  <= Web.v2CollateralTotal demoHelpers aTokens
  <= Web.v2CollateralValue demoHelpers aTokens
     + Web.v2ToV3MigrateCollateralValue demoHelpers aTokens + 2.
Proof.
  intros aTokens.
  apply (collateral_value_is_split demoHelpers aTokens).
  repeat constructor; apply (demo_sane "2"); cbn; auto.
Defined.

Lemma borrow_value_is_split_witness :
  let aTokens := [("aUSDC", stateUSDC); ("aWETH", stateWETH "2")] in
  Web.v2BorrowValue demoHelpers aTokens
  + Web.v2ToV3MigrateBorrowValue demoHelpers aTokens
  <= Web.v2BorrowTotal demoHelpers aTokens
  <= Web.v2BorrowValue demoHelpers aTokens
     + Web.v2ToV3MigrateBorrowValue demoHelpers aTokens + 2.
Proof.
  intros aTokens.
  apply (borrow_value_is_split demoHelpers aTokens).
  repeat constructor; apply (demo_sane "2"); cbn; auto.
Defined.

Lemma form_message_is_insufficient_collateral_witness :
  Web.validateForm demoHelpers demoComet
    [("aUSDC", stateRepaying "2"); ("aWETH", stateWETH "max")] true
  = Web.FormMessage "Insufficient Collateral" /\
  Web.v2BorrowCapacity demoHelpers
    [("aUSDC", stateRepaying "2"); ("aWETH", stateWETH "max")]
  < Web.v2BorrowValue demoHelpers
      [("aUSDC", stateRepaying "2"); ("aWETH", stateWETH "max")].
Proof.
  assert (Hform : Web.validateForm demoHelpers demoComet
                    [("aUSDC", stateRepaying "2"); ("aWETH", stateWETH "max")]
                    true
                  = Web.FormMessage "Insufficient Collateral")
    by (vm_compute; reflexivity).
  split; [exact Hform|].
  destruct (form_message_is_insufficient_collateral demoHelpers demoComet
              _ _ _ Hform) as (_ & _ & [H|H]); [exact H|].
  exfalso. revert H. vm_compute. discriminate.
Defined.

Lemma error_lasts_until_next_action_witness :
  Web.migrateCall
    (Web.migrateParams demoHelpers demoComet
       (Web.reducer (demoState "max") (Web.SetError "oops")))
  = None /\
  exists enabled' m',
    Web.reducer (Web.StateHydrated (Some "oops") true (demoMap "max"))
                Web.ClearRepayAndTransferAmounts
    = Web.StateHydrated None enabled' m'.
Proof.
  split.
  - apply (proj1 (error_lasts_until_next_action demoHelpers demoComet None
                    true (demoMap "max")
                    [("aUSDC", stateUSDC); ("aWETH", stateWETH "max")]
                    eq_refl) "oops").
  - apply (proj2 (error_lasts_until_next_action demoHelpers demoComet
                    (Some "oops") true (demoMap "max")
                    [("aUSDC", stateUSDC); ("aWETH", stateWETH "max")]
                    eq_refl) Web.ClearRepayAndTransferAmounts).
    intros e. discriminate.
Defined.
